(** * Savage-Scraper: the orchestration engine of [module.py]

    A shallow embedding of the partitioner, the resume filter, the worker
    loop, the output sink, the progress tracker and the supervisor's monitor
    loop, with the properties the specification states about them.

    Conventions.
    - A work item is a Python dict of string fields: [gmap string string].
    - A Python [int] is a [Z]; [//] is [Z.div] (both round towards minus
      infinity), and division by zero raises.
    - A call that can raise returns an [Outcome]; [except Exception] is the
      only handler the source uses, so one class of exceptions is modelled.
    - A queue is the list of the values put on it, oldest first. *)

From stdpp Require Import gmap strings list fin_maps.
From Stdlib Require Import ZArith QArith.
Local Open Scope Z_scope.

(** ** Exceptions and outcomes *)

Inductive Exn : Type :=
  | ZeroDivisionError
  | IndexError
  | OSError
  | AgentError (msg : string).

Inductive Outcome (A : Type) : Type :=
  | Ret (a : A)
  | Raise (e : Exn).
Arguments Ret {A} a.
Arguments Raise {A} e.

(** ** Work items *)

Abbreviation Item := (gmap string string).

(** [item.get(key, '')] on a dict of strings. *)
Definition item_get (item : Item) (key : string) : string :=
  default EmptyString (item !! key).

(** Truthiness of a Python [str]: the empty string is falsy. *)
Definition str_truthy (s : string) : bool :=
  match s with EmptyString => false | _ => true end.

(** ** Partitioner: [split_items_into_batches] *)

Module Partitioner.
Section Batches.
Context {A : Type}.

(** [a // b] on Python integers. *)
Definition floordiv (a b : Z) : Outcome Z :=
  if decide (b = 0) then Raise ZeroDivisionError else Ret (a `div` b).

(** [range(0, stop, step)] for [step >= 1]: [0, step, 2*step, ...] below
    [stop]. *)
Definition range0 (stop step : nat) : list nat :=
  (λ k, k * step)%nat <$> seq 0 ((stop + step - 1) `div` step)%nat.

(** [items[i:j]] for [0 <= i <= j]; slicing clips at the end of the list. *)
Definition slice (items : list A) (i j : nat) : list A :=
  take (j - i) (drop i items).

(** One iteration of the slicing [for]: append the slice when it is not
    empty. *)
Definition slice_step (items : list A) (batch_size : nat)
    (batches : list (list A)) (i : nat) : list (list A) :=
  let batch := slice items i (i + batch_size) in
  match batch with
  | [] => batches
  | _ => batches ++ [batch]
  end.

Definition slice_loop (items : list A) (batch_size : nat) : list (list A) :=
  foldl (slice_step items batch_size) [] (range0 (length items) batch_size).

(** [last_batch = batches.pop()]: [IndexError] on the empty list. *)
Definition pop {B : Type} (l : list B) : Outcome (B * list B) :=
  match reverse l with
  | [] => Raise IndexError
  | x :: r => Ret (x, reverse r)
  end.

(** [batches[-1].extend(last_batch)]: [IndexError] on the empty list. *)
Definition extend_last (batches : list (list A)) (ext : list A)
    : Outcome (list (list A)) :=
  match reverse batches with
  | [] => Raise IndexError
  | b :: r => Ret (reverse r ++ [b ++ ext])
  end.

(** The merging [while]: the guard is re-evaluated before every iteration;
    each iteration shortens [batches] by one, so [length batches]
    iterations are enough ([merge_loop_spec]). *)
Fixpoint merge_loop (fuel : nat) (batches : list (list A)) (num_processes : Z)
    : Outcome (list (list A)) :=
  if bool_decide (num_processes < Z.of_nat (length batches))
     && bool_decide (1 < length batches)%nat
  then
    match fuel with
    | O => Ret batches
    | S fuel' =>
        match pop batches with
        | Raise e => Raise e
        | Ret (last_batch, batches') =>
            match extend_last batches' last_batch with
            | Raise e => Raise e
            | Ret batches'' => merge_loop fuel' batches'' num_processes
            end
        end
    end
  else Ret batches.

Definition split_items_into_batches (items : list A) (num_processes : Z)
    : Outcome (list (list A)) :=
  match items with
  | [] => Ret []
  | _ =>
      match floordiv (Z.of_nat (length items)) num_processes with
      | Raise e => Raise e
      | Ret q =>
          let batch_size := Z.to_nat (Z.max 1 q) in
          let batches := slice_loop items batch_size in
          merge_loop (length batches) batches num_processes
      end
  end.

End Batches.
End Partitioner.

(** ** A state-and-exception monad for the effectful code

    [M S A] is a computation over a state [S] that returns an [A] or raises.
    [try_except] and [try_finally] follow Python: the handler runs in the
    state the body left; the [finally] block runs whatever the body did, and
    an exception raised by the [finally] block replaces the body's outcome. *)

Definition M (S A : Type) : Type := S → Outcome A * S.

Section Monad.
Context {S : Type}.

Definition ret {A} (a : A) : M S A := λ s, (Ret a, s).
Global Instance M_ret : MRet (M S) := @ret.

Definition raise {A} (e : Exn) : M S A := λ s, (Raise e, s).

Definition bind {A B} (c : M S A) (k : A → M S B) : M S B :=
  λ s, match c s with
       | (Ret a, s') => k a s'
       | (Raise e, s') => (Raise e, s')
       end.

Definition try_except {A} (body : M S A) (handler : Exn → M S A) : M S A :=
  λ s, match body s with
       | (Ret a, s') => (Ret a, s')
       | (Raise e, s') => handler e s'
       end.

Definition try_finally {A} (body : M S A) (final : M S unit) : M S A :=
  λ s, match body s with
       | (r, s') =>
           match final s' with
           | (Ret _, s'') => (r, s'')
           | (Raise e, s'') => (Raise e, s'')
           end
       end.

Global Instance M_bind : MBind (M S) := λ A B k c, bind c k.

Definition modify (f : S → S) : M S unit := λ s, (Ret (), f s).

Definition gets {A} (f : S → A) : M S A := λ s, (Ret (f s), s).

Definition of_outcome {A} (o : Outcome A) : M S A := λ s, (o, s).

(** [for x in l: body(x)]; an exception leaves the loop. *)
Fixpoint for_each {B} (l : list B) (body : B → M S unit) : M S unit :=
  match l with
  | [] => ret ()
  | x :: l' => body x;; for_each l' body
  end.
End Monad.

(** ** Messages on the queues *)

Inductive Level : Type := DEBUG | INFO | WARNING | ERROR.

(** The [eta_str] of a progress summary. *)
Inductive Eta : Type :=
  | EtaCompleting
  | EtaRemaining (seconds : Z)
  | EtaCompleted
  | EtaCalculating.

(** A log record: the fixed text of the message for the plain ones, the
    reported numbers for the progress summary of [_log_progress].
    [NoLevel] is a record whose [levelno] is [None]: what
    [logging.makeLogRecord] builds from a dict that gives no ['levelno']
    (a ['level'] entry becomes an attribute of that name and nothing
    more). *)
Inductive LogRecord : Type :=
  | Log (level : Level) (text : string)
  | ProgressSummary (processed total : Z) (pct : Q) (output failed : Z)
      (eta : Eta)
  | NoLevel (text : string).

(** What a worker puts on the progress queue: an [int] or ['DONE']. *)
Inductive Signal : Type :=
  | Count (n : Z)
  | Done.

Global Instance Signal_eq_dec : EqDecision Signal.
Proof. solve_decision. Defined.

Abbreviation ResultRecord := (gmap string string).

(** ** ResumeFilter: [_load_existing_results], [_filter_items_for_resume] *)

Module ResumeFilter.

(** What [pd.read_csv] returns for the output file: the column names and
    one dict per data row. A NaN cell is an absent key; a present cell
    holds the [str] of its value. *)
Record DataFrame : Type := {
  df_columns : list string;
  df_rows : list (gmap string string)
}.

(** The output file as [_load_existing_results] finds it. *)
Inductive OutputFile : Type :=
  | Missing
  | Unreadable (e : Exn)
  | Table (df : DataFrame).

(** [existing_df.empty]: some axis has length zero. *)
Definition df_empty (df : DataFrame) : bool :=
  bool_decide (df_columns df = []) || bool_decide (df_rows df = []).

(** [existing_df[resume_key].dropna().astype(str)]. *)
Definition column_values (df : DataFrame) (key : string) : list string :=
  omap (λ row : gmap string string, row !! key) (df_rows df).

Definition _load_existing_results (file : OutputFile) (resume_key : string)
    : gset string :=
  match file with
  | Missing => ∅
  | Unreadable _ => ∅
  | Table df =>
      if df_empty df then ∅
      else if bool_decide (resume_key ∈ df_columns df)
           then list_to_set (column_values df resume_key)
           else ∅
  end.

(** The [for item in items] loop, with [filtered_items] as accumulator. *)
Fixpoint filter_loop (existing_keys : gset string) (resume_key : string)
    (items filtered_items : list Item) : list Item :=
  match items with
  | [] => filtered_items
  | item :: rest =>
      let item_key := item_get item resume_key in
      if str_truthy item_key && bool_decide (item_key ∉ existing_keys)
      then filter_loop existing_keys resume_key rest (filtered_items ++ [item])
      else filter_loop existing_keys resume_key rest filtered_items
  end.

(** The message about skipped items goes to the logger or to stdout and
    is left out; the returned list is what the run goes on with. *)
Definition _filter_items_for_resume (file : OutputFile) (resume_key : string)
    (items : list Item) : list Item :=
  let existing_keys := _load_existing_results file resume_key in
  if bool_decide (existing_keys = ∅) then items
  else filter_loop existing_keys resume_key items [].

(** [s] is a resume-key value held by some row of the persisted output. *)
Definition persisted_key (file : OutputFile) (resume_key s : string) : Prop :=
  ∃ df, file = Table df
        ∧ resume_key ∈ df_columns df
        ∧ ∃ row, row ∈ df_rows df ∧ row !! resume_key = Some s.

(** The test the loop applies to an item. *)
Definition kept (K : gset string) (resume_key : string) (item : Item) : bool :=
  str_truthy (item_get item resume_key)
  && bool_decide (item_get item resume_key ∉ K).

(** The set difference of the specification's wording: the items whose
    resume-key value is not among the persisted keys. *)
Definition spec_set_difference (K : gset string) (resume_key : string)
    (items : list Item) : list Item :=
  List.filter (λ item, bool_decide (item_get item resume_key ∉ K)) items.

End ResumeFilter.

(** ** Worker: [SavageScraper.process_batch] *)

Module Worker.
Section ProcessBatch.

(** The page agent is an external collaborator, and the methods that
    drive it are the ones subclasses override. [World] is everything it
    owns (browser, network); [_init_driver], [_process_single_item] and
    [self.driver.quit] act on the world only and may raise.
    [has_driver] is the truthiness of [self.driver]. Calls of the logger
    go through [QueueHandler.emit], which swallows every exception, and a
    put on an unbounded queue does not raise. *)
Context {World : Type}.
Variable _init_driver : World → Outcome bool * World.
Variable has_driver : World → bool.
Variable _process_single_item : Item → World → Outcome (list ResultRecord) * World.
Variable driver_quit : World → Outcome unit * World.
Variable progress_tracking_key : string.

(** The state of one worker process: the world, whether [self.logger] is
    set, and what the worker has put on the three queues. *)
Record WState : Type := mkWState {
  world : World;
  has_logger : bool;
  log_queue : list LogRecord;
  output_queue : list ResultRecord;
  progress_queue : list Signal
}.

Definition lift {A} (op : World → Outcome A * World) : M WState A :=
  λ s, match op (world s) with
       | (r, w') => (r, mkWState w' (has_logger s) (log_queue s)
                          (output_queue s) (progress_queue s))
       end.

(** [log_queue.put(record)]. *)
Definition log_queue_put (r : LogRecord) : M WState unit :=
  modify (λ s, mkWState (world s) (has_logger s) (log_queue s ++ [r])
                 (output_queue s) (progress_queue s)).

(** [output_queue.put(result)]. *)
Definition output_queue_put (r : ResultRecord) : M WState unit :=
  modify (λ s, mkWState (world s) (has_logger s) (log_queue s)
                 (output_queue s ++ [r]) (progress_queue s)).

(** [progress_queue.put(x)]. *)
Definition progress_queue_put (x : Signal) : M WState unit :=
  modify (λ s, mkWState (world s) (has_logger s) (log_queue s)
                 (output_queue s) (progress_queue s ++ [x])).

(** [QueueHandler.emit]: the put, with every exception swallowed. *)
Definition emit (r : LogRecord) : M WState unit :=
  try_except (log_queue_put r) (λ _, ret ()).

(** [self.logger.<level>(text)] through the queue handler. *)
Definition logger (level : Level) (text : string) : M WState unit :=
  emit (Log level text).

Definition setup_process_logging : M WState unit :=
  modify (λ s, mkWState (world s) true (log_queue s)
                 (output_queue s) (progress_queue s)).

(** The body of the [for i, item in enumerate(items_batch)] loop: the
    inner [try] with its [except Exception]. *)
Definition process_item (item : Item) : M WState unit :=
  try_except
    (if negb (str_truthy (item_get item progress_tracking_key)) then
       logger WARNING "Skipping item without tracking key";;
       progress_queue_put (Count 0)
     else
       logger INFO "Processing item";;
       results ← lift (_process_single_item item);
       match results with
       | [] =>
           logger WARNING "No results from item processing";;
           progress_queue_put (Count 0)
       | _ =>
           for_each results output_queue_put;;
           progress_queue_put (Count (Z.of_nat (length results)));;
           logger INFO "Successfully processed item"
       end)
    (λ e,
       logger ERROR "Error processing item";;
       progress_queue_put (Count (-1))).

(** The outer [try] block. The [return] after a failed driver
    initialisation skips the rest of the block. *)
Definition batch_body (items_batch : list Item) : M WState unit :=
  setup_process_logging;;
  logger INFO "Starting batch processing";;
  ok ← lift _init_driver;
  if negb ok then
    logger ERROR "Failed to initialize WebDriver in worker process";;
    for_each items_batch (λ _, progress_queue_put (Count (-1)))
  else
    for_each items_batch process_item;;
    logger INFO "Completed batch processing".

(** The outer [except Exception] block. The record it puts on the log
    queue is made by [logging.makeLogRecord] from a dict with the keys
    ['name'], ['level'], ['pathname'], ['lineno'], ['msg'], ['args'],
    ['exc_info'] and ['created']: there is no ['levelno'] among them. *)
Definition batch_handler (items_batch : list Item) (e : Exn) : M WState unit :=
  log_queue_put (NoLevel "Error in process");;
  for_each items_batch (λ _, progress_queue_put (Count (-1))).

(** The [finally] block. *)
Definition batch_finally : M WState unit :=
  d ← gets (λ s : WState, has_driver (world s));
  (if d : bool then
     try_except
       (lift driver_quit;; logger INFO "WebDriver closed successfully")
       (λ e, logger WARNING "Error closing WebDriver")
   else ret ());;
  progress_queue_put Done.

Definition process_batch (items_batch : list Item) : M WState unit :=
  try_finally
    (try_except (batch_body items_batch) (batch_handler items_batch))
    batch_finally.

(** A worker process starts with empty puts. *)
Definition start (w : World) : WState := mkWState w false [] [] [].

(** What one worker puts on the progress queue, in order. *)
Definition progress_trace (items_batch : list Item) (w : World) : list Signal :=
  progress_queue (process_batch items_batch (start w)).2.

(** The progress signal the loop body puts for [item] when the agent is
    in world [w], and the world it leaves. *)
Definition item_signal (item : Item) (w : World) : Z :=
  if str_truthy (item_get item progress_tracking_key) then
    match (_process_single_item item w).1 with
    | Ret results => Z.of_nat (length results)
    | Raise _ => -1
    end
  else 0.

Definition item_world (item : Item) (w : World) : World :=
  if str_truthy (item_get item progress_tracking_key)
  then (_process_single_item item w).2
  else w.

(** The signals of the whole loop, and the world after it. *)
Fixpoint loop_signals (items : list Item) (w : World) : list Signal :=
  match items with
  | [] => []
  | item :: rest => Count (item_signal item w) :: loop_signals rest (item_world item w)
  end.

Fixpoint loop_world (items : list Item) (w : World) : World :=
  match items with
  | [] => w
  | item :: rest => loop_world rest (item_world item w)
  end.

(** The integer signals of a whole batch and the world after the [try]
    block: the loop's when the driver starts, one [-1] per item when it
    does not. [final_world] is the world after the [finally] block. *)
Definition batch_signals (items : list Item) (w : World) : list Signal :=
  match _init_driver w with
  | (Ret true, w1) => loop_signals items w1
  | (_, _) => replicate (length items) (Count (-1))
  end.

Definition batch_world (items : list Item) (w : World) : World :=
  match _init_driver w with
  | (Ret true, w1) => loop_world items w1
  | (_, w1) => w1
  end.

Definition final_world (w : World) : World :=
  if has_driver w then (driver_quit w).2 else w.

End ProcessBatch.

(** An integer signal, as opposed to ['DONE']. *)
Definition is_count (x : Signal) : bool :=
  match x with Count _ => true | Done => false end.

End Worker.

(** ** OutputSink: [OutputManager] *)

Module OutputManager.

(** The output file is a sequence of CSV lines. *)
Inductive Line : Type :=
  | HeaderLine (columns : list string)
  | DataLine (values : list string).

Global Instance Line_eq_dec : EqDecision Line.
Proof. solve_decision. Defined.

Definition is_header (l : Line) : bool :=
  match l with HeaderLine _ => true | DataLine _ => false end.

(** The number of header rows in a file. *)
Definition header_count (f : list Line) : nat :=
  length (List.filter is_header f).

(** The steps of the [try] block of [append_single_result] that call the
    operating system, in program order: [stat], [open], taking the lock,
    [to_csv], and leaving the two [with] blocks (releasing the lock and
    closing the file, which flushes what is still buffered). *)
Inductive SinkOp : Type := OpStat | OpOpen | OpLock | OpWrite | OpClose.

Global Instance SinkOp_eq_dec : EqDecision SinkOp.
Proof. solve_decision. Defined.

(** What the operating system does during one call.
    - [fails_at]: which step of the [try] block fails, if any.
    - [reached]: [to_csv] writes the header line, when there is one,
      before the row; when the write or the close fails, the first
      [reached] lines of this write are in the file all the same.
    - [now]: [int(time.time())] when the backup file is named.
    - [backup_fails]: whether writing the backup file fails, and
      [backup_reached] what the failure leaves: nothing when the file
      could not be opened; otherwise a file of that name, opened in write
      mode and so emptied first, with the lines that reached it.
    A file is a sequence of whole lines. The name of the backup file
    ([with_suffix] on a path that has a name) is taken to be computed
    without error. *)
Record SinkEnv : Type := {
  fails_at : option SinkOp;
  reached : nat;
  now : Z;
  backup_fails : bool;
  backup_reached : option nat
}.

(** [output_file] is [None] while the file does not exist. The backup
    files are listed with the second their name carries. *)
Record Sink : Type := mkSink {
  output_file : option (list Line);
  headers_written : bool;
  backup_files : list (Z * list Line);
  sink_log : list LogRecord
}.

(** [pd.DataFrame([result]).to_csv(..., index=False, header=h)]. *)
Definition csv_lines (result : ResultRecord) (header : bool) : list Line :=
  (if header then [HeaderLine (map_to_list result).*1] else [])
  ++ [DataLine (map_to_list result).*2].

(** [_ensure_file_exists]: [touch] when the file is missing. *)
Definition _ensure_file_exists (file : option (list Line)) : option (list Line) :=
  match file with
  | None => Some []
  | Some f => Some f
  end.

Definition __init__ (file : option (list Line)) (log : list LogRecord) : Sink :=
  mkSink (_ensure_file_exists file) false [] log.

(** The logger handed over by the output writer has level [INFO]:
    [log.debug] is dropped. *)
Definition log (level : Level) (text : string) : M Sink unit :=
  match level with
  | DEBUG => ret ()
  | _ => modify (λ s, mkSink (output_file s) (headers_written s)
                        (backup_files s) (sink_log s ++ [Log level text]))
  end.

Definition os_call (env : SinkEnv) (op : SinkOp) : M Sink unit :=
  if bool_decide (fails_at env = Some op) then raise OSError else ret ().

(** [self.output_file.stat().st_size == 0]. *)
Definition stat_is_empty (env : SinkEnv) : M Sink bool :=
  os_call env OpStat;;
  f ← gets output_file;
  match f with
  | None => raise OSError
  | Some lines => ret (bool_decide (lines = []))
  end.

(** [open(self.output_file, 'a')]: creates the file when it is missing. *)
Definition open_append (env : SinkEnv) : M Sink unit :=
  os_call env OpOpen;;
  modify (λ s, mkSink (_ensure_file_exists (output_file s)) (headers_written s)
                 (backup_files s) (sink_log s)).

(** The lines of a write that get into the file: all of them, or the
    first [reached] when the write or the close fails. *)
Definition arrived (env : SinkEnv) (lines : list Line) : list Line :=
  match fails_at env with
  | Some OpWrite | Some OpClose => take (reached env) lines
  | _ => lines
  end.

(** [df_result.to_csv(f, index=False, header=write_header)] on the file
    opened for appending: what gets into the file is appended to it, and
    a failing write raises. *)
Definition to_csv (env : SinkEnv) (result : ResultRecord) (write_header : bool)
    : M Sink unit :=
  modify (λ s, mkSink (Some (default [] (output_file s)
                             ++ arrived env (csv_lines result write_header)))
                 (headers_written s) (backup_files s) (sink_log s));;
  os_call env OpWrite.

Definition set_headers_written (b : bool) : M Sink unit :=
  modify (λ s, mkSink (output_file s) b (backup_files s) (sink_log s)).

(** Writing a file in mode ['w']: a file of that name is replaced. *)
Definition write_file (name : Z) (content : list Line)
    (files : list (Z * list Line)) : list (Z * list Line) :=
  filter (λ file, file.1 ≠ name) files ++ [(name, content)].

(** [pd.DataFrame([result]).to_csv(backup_file, index=False)], with
    [backup_file = output_file.with_suffix(f'.backup_{int(time.time())}.csv')]. *)
Definition backup_to_csv (env : SinkEnv) (result : ResultRecord) : M Sink unit :=
  let write content :=
    modify (λ s, mkSink (output_file s) (headers_written s)
                   (write_file (now env) content (backup_files s)) (sink_log s)) in
  if backup_fails env then
    match backup_reached env with
    | None => raise OSError
    | Some k => write (take k (csv_lines result true));; raise OSError
    end
  else write (csv_lines result true).

Definition append_single_result (env : SinkEnv) (result : ResultRecord)
    : M Sink unit :=
  try_except
    (file_is_empty ← stat_is_empty env;
     open_append env;;
     os_call env OpLock;;
     hw ← gets headers_written;
     let write_header := (file_is_empty : bool) || negb hw in
     to_csv env result write_header;;
     set_headers_written true;;
     os_call env OpClose;;
     log DEBUG "Appended single result to output file")
    (λ e,
       log ERROR "Error appending single result to output file";;
       try_except
         (backup_to_csv env result;;
          log WARNING "Result saved to backup file")
         (λ backup_e, log ERROR "Failed to save backup file")).

(** What a call that fails leaves in the output file: nothing when the
    failure comes before the write; the lines that reached the file when
    the write or the close fails. *)
Definition left_behind (env : SinkEnv) (result : ResultRecord) (s : Sink)
    : list Line :=
  match fails_at env, output_file s with
  | Some OpWrite, Some f | Some OpClose, Some f =>
      take (reached env)
        (csv_lines result (bool_decide (f = []) || negb (headers_written s)))
  | _, _ => []
  end.

(** The header invariant of one instance: while it has written nothing
    the file is empty, and from its first write on the file holds one
    header row. *)
Definition header_once (s : Sink) : Prop :=
  ∃ f, output_file s = Some f
       ∧ if headers_written s then header_count f = 1%nat else f = [].

(** A sequence of calls on one instance. *)
Definition append_all (calls : list (SinkEnv * ResultRecord)) : M Sink unit :=
  for_each calls (λ c, append_single_result c.1 c.2).

End OutputManager.

(** ** OutputWriter: [OutputWriterProcess.run] *)

Module OutputWriterProcess.
Import OutputManager.

(** The outcome of [queue.get(timeout=1.0)]. *)
Inductive Get (A : Type) : Type :=
  | GetEmpty
  | Got (x : A).
Arguments GetEmpty {A}.
Arguments Got {A} x.

Record Writer : Type := mkWriter {
  output_manager : Sink;
  should_stop : bool;
  items_written : Z
}.

Inductive LoopExit : Type := Stopped | Waiting.

Definition with_manager {A} (c : M Sink A) : M Writer A :=
  λ s, match c (output_manager s) with
       | (r, m') => (r, mkWriter m' (should_stop s) (items_written s))
       end.

(** The writer's logger and the one [append_single_result] receives are
    the same object. *)
Definition logger (level : Level) (text : string) : M Writer unit :=
  with_manager (log level text).

(** The body of the [try] inside the loop, after a record was received. *)
Definition write_result (env : SinkEnv) (result : ResultRecord) : M Writer unit :=
  with_manager (append_single_result env result);;
  modify (λ s, mkWriter (output_manager s) (should_stop s) (items_written s + 1));;
  n ← gets items_written;
  if bool_decide ((n : Z) `mod` 10 = 0)
  then logger INFO "Written items to output file"
  else ret ().

(** The [while not self.should_stop] loop over the successive outcomes of
    [output_queue.get]; each comes with what the operating system does
    during the write it triggers. [None] is the shutdown sentinel. When
    the outcomes run out the loop is still waiting. *)
Fixpoint run_loop (gets_ : list (Get (option ResultRecord) * SinkEnv))
    : M Writer LoopExit :=
  match gets_ with
  | [] => ret Waiting
  | (g, env) :: rest =>
      stop ← gets should_stop;
      if stop : bool then ret Stopped
      else
        match g with
        | GetEmpty => run_loop rest
        | Got None => ret Stopped
        | Got (Some result) =>
            try_except (write_result env result)
              (λ e, logger ERROR "Error in output writer process");;
            run_loop rest
        end
  end.

Definition run (gets_ : list (Get (option ResultRecord) * SinkEnv))
    : M Writer LoopExit :=
  logger INFO "Output writer process started";;
  exit ← run_loop gets_;
  match exit with
  | Stopped => logger INFO "Output writer process stopped";; ret Stopped
  | Waiting => ret Waiting
  end.

(** The number of records received before the shutdown sentinel. *)
Fixpoint records_before_stop (gets_ : list (Get (option ResultRecord) * SinkEnv)) : Z :=
  match gets_ with
  | [] => 0
  | (GetEmpty, _) :: rest => records_before_stop rest
  | (Got None, _) :: _ => 0
  | (Got (Some _), _) :: rest => 1 + records_before_stop rest
  end.

End OutputWriterProcess.

(** ** ProgressTracker and the supervisor's monitor loop *)

Module ProgressTracker.
Section Tracker.

(** [time.time()]: the successive readings of the clock, as rationals. *)
Variable clock : nat → Q.

Record Tracker : Type := mkTracker {
  total_input_items : Z;
  processed_input_items : Z;
  total_output_items : Z;
  failed_items : Z;
  start_time : Q;
  last_update : Q
}.

(** The supervisor process: the tracker, the records sent through
    [main_logger], and how many times the clock was read. *)
Record Sup : Type := mkSup {
  tracker : Tracker;
  main_log : list LogRecord;
  ticks : nat
}.

Definition time_time : M Sup Q :=
  λ s, (Ret (clock (ticks s)), mkSup (tracker s) (main_log s) (S (ticks s))).

Definition main_logger (r : LogRecord) : M Sup unit :=
  modify (λ s, mkSup (tracker s) (main_log s ++ [r]) (ticks s)).

Definition set_tracker (f : Tracker → Tracker) : M Sup unit :=
  modify (λ s, mkSup (f (tracker s)) (main_log s) (ticks s)).

(** [ProgressTracker(total_input_items, logger)], in a process that has
    logged nothing yet. *)
Definition __init__ (total : Z) : Sup :=
  mkSup (mkTracker total 0 0 0 (clock 0) 0%Q) [] 1.

(** [a / b] on Python numbers. *)
Definition truediv (a b : Z) : Outcome Q :=
  if decide (b = 0) then Raise ZeroDivisionError
  else Ret (inject_Z a / inject_Z b)%Q.

Definition Qlt_bool (a b : Q) : bool := negb (Qle_bool b a).

(** [int(x)] on a float: truncation towards zero. *)
Definition int_of (x : Q) : Z := Z.quot (Qnum x) (Z.pos (Qden x)).

Definition _log_progress : M Sup unit :=
  t ← gets tracker;
  if processed_input_items t =? 0 then ret ()
  else
    ratio ← of_outcome (truediv (processed_input_items t) (total_input_items t));
    let progress_pct := (ratio * 100)%Q in
    now ← time_time;
    let elapsed_time := (now - start_time t)%Q in
    let eta_str :=
      if (0 <? processed_input_items t)
         && (processed_input_items t <? total_input_items t)
      then
        let avg_time_per_item := (elapsed_time / inject_Z (processed_input_items t))%Q in
        let remaining_items := total_input_items t - processed_input_items t in
        let eta_seconds := (inject_Z remaining_items * avg_time_per_item)%Q in
        if Qlt_bool eta_seconds 0 then EtaCompleting
        else EtaRemaining (int_of eta_seconds)
      else
        if total_input_items t <=? processed_input_items t then EtaCompleted
        else EtaCalculating in
    main_logger (ProgressSummary (processed_input_items t) (total_input_items t)
                   progress_pct (total_output_items t) (failed_items t) eta_str).

(** The three branches of [update] on the counters. *)
Definition count_signal (count : Z) (t : Tracker) : Tracker :=
  if count =? -1 then
    mkTracker (total_input_items t) (processed_input_items t + 1)
      (total_output_items t) (failed_items t + 1) (start_time t) (last_update t)
  else if count =? 0 then
    mkTracker (total_input_items t) (processed_input_items t + 1)
      (total_output_items t) (failed_items t) (start_time t) (last_update t)
  else
    mkTracker (total_input_items t) (processed_input_items t + 1)
      (total_output_items t + count) (failed_items t) (start_time t) (last_update t).

Definition set_last_update (now : Q) (t : Tracker) : Tracker :=
  mkTracker (total_input_items t) (processed_input_items t)
    (total_output_items t) (failed_items t) (start_time t) now.

Definition update (count : Z) : M Sup unit :=
  set_tracker (count_signal count);;
  current_time ← time_time;
  t ← gets tracker;
  if Qlt_bool 10 (current_time - last_update t)%Q
     || (total_input_items t <=? processed_input_items t)
  then _log_progress;; set_tracker (set_last_update current_time)
  else ret ().

Definition update_process_completion : M Sup unit := ret ().

End Tracker.
End ProgressTracker.

(** ** Supervisor: [run_multiprocess_scraper] *)

Module Supervisor.
Import ProgressTracker.

(** What [progress_queue.get(timeout=1.0)] does in one iteration of the
    monitor loop: time out, deliver a signal, or be interrupted. *)
Inductive QueueGet : Type :=
  | Timeout
  | Deliver (x : Signal)
  | KeyboardInterrupt.

(** One iteration of the monitor loop as the environment decides it: the
    outcome of the get, and the workers the liveness check finds dead with
    a non-zero exit code. *)
Record Poll : Type := {
  poll_get : QueueGet;
  poll_dead : list nat
}.

(** How the wait for one worker ends after the monitor loop: it joins
    within the timeout, or has to be terminated, or has to be killed. *)
Inductive JoinOutcome : Type := Joined | Terminated | Killed.

Inductive RunExit : Type :=
  | Finished      (* every worker's ['DONE'] was seen *)
  | Interrupted   (* the monitor loop was left by [break] *)
  | Starved       (* the polls ran out: the loop is still waiting *)
  | Aborted.      (* an exception reached the outer handler *)

Global Instance RunExit_eq_dec : EqDecision RunExit.
Proof. solve_decision. Defined.

(** The signals the polls deliver, in order. *)
Definition delivered (polls : list Poll) : list Signal :=
  omap (λ p, match poll_get p with Deliver x => Some x | _ => None end) polls.

Definition interrupted (p : Poll) : bool :=
  match poll_get p with KeyboardInterrupt => true | _ => false end.

(** The progress queue is shared: it delivers some interleaving of what
    the workers put, each worker's puts in the order it made them. *)
Inductive Interleave {A : Type} : list (list A) → list A → Prop :=
  | interleave_done traces :
      Forall (λ t, t = []) traces → Interleave traces []
  | interleave_next pre x xs post out :
      Interleave (pre ++ xs :: post) out →
      Interleave (pre ++ (x :: xs) :: post) (x :: out).

(** Bookkeeping on what the workers have still to deliver: the workers
    that have not finished, the integer signals outstanding, and the shape
    of one worker's remaining puts (integers, then one ['DONE']). *)
Fixpoint pending (traces : list (list Signal)) : nat :=
  match traces with
  | [] => 0
  | [] :: ts => pending ts
  | _ :: ts => S (pending ts)
  end.

Fixpoint outstanding (traces : list (list Signal)) : nat :=
  match traces with
  | [] => 0
  | t :: ts => length (List.filter Worker.is_count t) + outstanding ts
  end.

Fixpoint tail_of_worker (t : list Signal) : bool :=
  match t with
  | [] => true
  | [Done] => true
  | Done :: _ => false
  | Count _ :: t' => match t' with [] => false | _ => tail_of_worker t' end
  end.

Definition is_summary (r : LogRecord) : bool :=
  match r with ProgressSummary _ _ _ _ _ _ => true | _ => false end.

(** No progress summary has been logged while no item was processed. *)
Definition quiet (s : ProgressTracker.Sup) : Prop :=
  0 ≤ processed_input_items (tracker s)
  ∧ (processed_input_items (tracker s) = 0 →
     Forall (λ r, is_summary r = false) (main_log s)).

Section Run.
Variable clock : nat → Q.

Abbreviation Sup := (ProgressTracker.Sup).

Definition info (text : string) : M Sup unit := main_logger (Log INFO text).

Definition liveness_check (dead : list nat) : M Sup unit :=
  for_each dead (λ _, main_logger (Log ERROR "Process died with exit code")).

(** The [while completed_processes < len(processes)] loop. *)
Fixpoint monitor (nprocs completed_processes : nat) (polls : list Poll)
    : M Sup RunExit :=
  if bool_decide (completed_processes < nprocs)%nat then
    match polls with
    | [] => ret Starved
    | p :: rest =>
        match poll_get p with
        | KeyboardInterrupt =>
            main_logger (Log WARNING "Received interrupt signal, shutting down processes...");;
            ret Interrupted
        | Timeout =>
            liveness_check (poll_dead p);;
            monitor nprocs completed_processes rest
        | Deliver Done =>
            info "Process completed";;
            update_process_completion;;
            liveness_check (poll_dead p);;
            monitor nprocs (S completed_processes) rest
        | Deliver (Count c) =>
            update clock c;;
            liveness_check (poll_dead p);;
            monitor nprocs completed_processes rest
        end
    end
  else ret Finished.

(** [process.join(timeout=30)] and the escalation after it. *)
Definition join_process (j : JoinOutcome) : M Sup unit :=
  match j with
  | Joined => ret ()
  | Terminated => main_logger (Log WARNING "Force terminating process")
  | Killed =>
      main_logger (Log WARNING "Force terminating process");;
      main_logger (Log ERROR "Force killing process")
  end.

(** The [try] block of [run_multiprocess_scraper]. The workers run in
    their own processes; what reaches the supervisor of them is [polls],
    and [joins] tells how the wait for each of them ends. Creating the
    scraper instance of a batch and starting its process are taken to
    succeed: this is the run in which every worker starts, and what is
    kept of the two calls is the record logged after them. *)
Definition run_body (items_to_scrape : list Item) (num_processes : Z)
    (polls : list Poll) (joins : nat → JoinOutcome) : M Sup RunExit :=
  info "Starting multiprocess scraping";;
  info "Total items to process";;
  batches ← of_outcome (Partitioner.split_items_into_batches items_to_scrape num_processes);
  info "Split into batches";;
  for_each batches (λ _, info "Started process");;
  exit ← monitor (length batches) 0 polls;
  match exit with
  | Starved => ret Starved
  | _ =>
      for_each (seq 0 (length batches)) (λ i, join_process (joins i));;
      info "All processes completed";;
      _log_progress clock;;
      ret exit
  end.

Inductive RunResult : Type :=
  | NoItems
  | NoNewItems
  | Ran (exit : Outcome RunExit) (final : Sup).

Definition run_multiprocess_scraper (file : ResumeFilter.OutputFile)
    (resume_key : string) (items_to_scrape : list Item) (num_processes : Z)
    (polls : list Poll) (joins : nat → JoinOutcome) : RunResult :=
  match items_to_scrape with
  | [] => NoItems
  | _ =>
      let items := ResumeFilter._filter_items_for_resume file resume_key items_to_scrape in
      match items with
      | [] => NoNewItems
      | _ =>
          let progress_tracker := __init__ clock (Z.of_nat (length items)) in
          let r :=
            try_finally
              (try_except (run_body items num_processes polls joins)
                 (λ e, main_logger (Log ERROR "Error in multiprocess scraping");;
                       ret Aborted))
              (info "Scraping completed")
              progress_tracker in
          Ran r.1 r.2
      end
  end.

End Run.
End Supervisor.

(** ** Concrete scenarios *)

Module Scenario.
Import ResumeFilter OutputManager Supervisor.

Definition a : Item := {[ "k" := "a" ]}.
Definition b : Item := {[ "k" := "b" ]}.
Definition c : Item := {[ "k" := "c" ]}.

(** An item without the resume-key field, as the N1N3 example builds. *)
Definition page : Item := {[ "page_url" := "x" ]}.

(** The output of an earlier run that scraped [a]. *)
Definition earlier_output : OutputFile :=
  Table {| df_columns := ["k"; "scraped_at"];
           df_rows := [ {[ "k" := "a"; "scraped_at" := "t0" ]} ] |}.

Definition row_a : ResultRecord := {[ "k" := "a"; "scraped_at" := "t0" ]}.
Definition row_b : ResultRecord := {[ "k" := "b"; "scraped_at" := "t1" ]}.

(** The same output as lines of the file. *)
Definition earlier_file : list Line :=
  csv_lines row_a true.

Definition no_fault : SinkEnv :=
  {| fails_at := None; reached := 0; now := 0;
     backup_fails := false; backup_reached := None |}.

(** A clock that stands still. *)
Definition still : nat → Q := λ _, 0%Q.

(** A worker whose driver starts and whose agent returns one record for
    [a], raises on [b] and returns nothing otherwise. The world counts
    the agent calls. *)
Definition agent (item : Item) (w : nat) : Outcome (list ResultRecord) * nat :=
  if bool_decide (item = a) then (Ret [row_a], S w)
  else if bool_decide (item = b) then (Raise (AgentError "boom"), S w)
  else (Ret [], S w).

(** The progress queue of a run of two workers on [[a]] and [[b; c]]:
    the second worker's first signal arrives first, and one get times
    out. *)
Definition polls_abc : list Poll :=
  [ {| poll_get := Deliver (Count (-1)); poll_dead := [] |};
    {| poll_get := Deliver (Count 1); poll_dead := [] |};
    {| poll_get := Timeout; poll_dead := [] |};
    {| poll_get := Deliver Done; poll_dead := [] |};
    {| poll_get := Deliver (Count 0); poll_dead := [] |};
    {| poll_get := Deliver Done; poll_dead := [] |} ].

Definition init_ok (w : nat) : Outcome bool * nat := (Ret true, w).
Definition init_fails (w : nat) : Outcome bool * nat := (Ret false, w).
Definition quit_ok (w : nat) : Outcome unit * nat := (Ret (), w).
Definition driver_up (w : nat) : bool := true.
Definition driver_down (w : nat) : bool := false.

End Scenario.

(** ** Reading the queues and the output file

    What a sequence of queue deliveries amounts to: the records the output
    writer received, the lines they make in a fresh file, and the sums the
    progress tracker forms over integer signals. *)

Module Traces.
Import OutputManager OutputWriterProcess.

(** The records received before the shutdown sentinel, in arrival order. *)
Fixpoint received (gets_ : list (Get (option ResultRecord) * SinkEnv))
    : list ResultRecord :=
  match gets_ with
  | [] => []
  | (GetEmpty, _) :: rest => received rest
  | (Got None, _) :: _ => []
  | (Got (Some r), _) :: rest => r :: received rest
  end.

(** A header for the first record, then one data line per record. *)
Definition rows_of (records : list ResultRecord) : list Line :=
  match records with
  | [] => []
  | r :: rest => csv_lines r true ++ flat_map (λ r', csv_lines r' false) rest
  end.

Definition is_data (l : Line) : bool := negb (is_header l).

(** What the signals add to [total_output_items]: every integer but the
    error signal [-1]. *)
Fixpoint produced (signals : list Signal) : Z :=
  match signals with
  | [] => 0
  | Count c :: rest => (if c =? -1 then 0 else c) + produced rest
  | Done :: rest => produced rest
  end.

(** The number of error signals. *)
Fixpoint failures (signals : list Signal) : Z :=
  match signals with
  | [] => 0
  | Count c :: rest => (if c =? -1 then 1 else 0) + failures rest
  | Done :: rest => failures rest
  end.

(** The number of integer signals, and of ['DONE']. *)
Fixpoint counts (signals : list Signal) : Z :=
  match signals with
  | [] => 0
  | Count _ :: rest => 1 + counts rest
  | Done :: rest => counts rest
  end.

Fixpoint dones (signals : list Signal) : nat :=
  match signals with
  | [] => 0
  | Count _ :: rest => dones rest
  | Done :: rest => S (dones rest)
  end.

End Traces.

(** ** LogAggregator: [LoggerProcess.run] *)

Module LoggerProcess.
Import OutputWriterProcess.

(** What travels on the log queue: a [logging.LogRecord], or any other
    object, which is logged through its [str]. [None] is the shutdown
    sentinel. *)
Inductive LogItem : Type :=
  | Record_ (r : LogRecord)
  | Other (text : string).

(** The logger process: its stop flag, and the lines written to the log
    file and to stdout (both handlers receive the same lines). *)
Record Logger : Type := mkLogger {
  should_stop : bool;
  lines : list LogRecord
}.

Definition write_line (r : LogRecord) : M Logger unit :=
  modify (λ s, mkLogger (should_stop s) (lines s ++ [r])).

Definition TypeError : Exn := AgentError "TypeError".

(** [logger.handle(record)] for a log record, [logger.info(str(record))]
    for anything else. [handle] hands the record to the two handlers of
    the root logger after comparing [record.levelno >= hdlr.level]: on a
    record whose [levelno] is [None] the comparison raises [TypeError]
    before anything is written. *)
Definition handle_item (item : LogItem) : M Logger unit :=
  match item with
  | Record_ (NoLevel _) => raise TypeError
  | Record_ r => write_line r
  | Other text => write_line (Log INFO text)
  end.

(** The [while not self.should_stop] loop over the successive outcomes of
    [log_queue.get]. *)
Fixpoint run_loop (gets_ : list (Get (option LogItem))) : M Logger LoopExit :=
  match gets_ with
  | [] => ret Waiting
  | g :: rest =>
      stop ← gets should_stop;
      if stop : bool then ret Stopped
      else
        match g with
        | GetEmpty => run_loop rest
        | Got None => ret Stopped
        | Got (Some item) =>
            try_except (handle_item item)
              (λ e, write_line (Log ERROR "Error in logger process"));;
            run_loop rest
        end
  end.

(** [logging.basicConfig] opens the log file; when that fails the
    exception leaves [run]. *)
Definition run (log_file_opens : bool) (gets_ : list (Get (option LogItem)))
    : M Logger LoopExit :=
  (if log_file_opens then ret () else raise OSError);;
  write_line (Log INFO "Logger process started");;
  exit ← run_loop gets_;
  match exit with
  | Stopped => write_line (Log INFO "Logger process stopped");; ret Stopped
  | Waiting => ret Waiting
  end.

(** The line an item makes in the log: a record with no level makes the
    line of the loop's own exception handler. *)
Definition line_of (item : LogItem) : LogRecord :=
  match item with
  | Record_ (NoLevel _) => Log ERROR "Error in logger process"
  | Record_ r => r
  | Other text => Log INFO text
  end.

(** The items received before the shutdown sentinel. *)
Fixpoint received (gets_ : list (Get (option LogItem))) : list LogItem :=
  match gets_ with
  | [] => []
  | GetEmpty :: rest => received rest
  | Got None :: _ => []
  | Got (Some item) :: rest => item :: received rest
  end.

(** Whether the sentinel is among the deliveries. *)
Fixpoint stopped (gets_ : list (Get (option LogItem))) : bool :=
  match gets_ with
  | [] => false
  | Got None :: _ => true
  | _ :: rest => stopped rest
  end.

End LoggerProcess.

(** ** The base class's browser methods

    [_init_driver], [_find_elements], [_click_element], the error-page
    helpers, [_navigate_to_url] and [_process_single_item] of
    [SavageScraper]. Selenium is external: [B] is the browser with the
    file system it writes to, and every call into it may raise. *)

Module Scraper.

Inductive By : Type := XPATH | CSS_SELECTOR.

(** [selector.startswith(('//', './', '/', '(/', '(./)'))]. *)
Definition _get_selector_type (selector : string) : By :=
  if String.prefix "//" selector || String.prefix "./" selector
     || String.prefix "/" selector || String.prefix "(/" selector
     || String.prefix "(./)" selector
  then XPATH else CSS_SELECTOR.

(** Exceptions of the interpreter, by class name. *)
Definition AttributeError : Exn := AgentError "AttributeError".
Definition KeyError : Exn := AgentError "KeyError".
Definition RecursionError : Exn := AgentError "RecursionError".

Section Browser.
Context {B Element : Type}.

(** Building the [Options]: reads of the instance's settings and
    [random.choice(self.USER_AGENTS)], which raises on an empty list. *)
Variable options : B → Outcome unit * B.
(** [webdriver.Chrome(options=options)], and the calls on the driver. *)
Variable chrome : B → Outcome unit * B.
Variable execute_script : B → Outcome unit * B.
Variable set_window_size : B → Outcome unit * B.
Variable quit : B → Outcome unit * B.
Variable driver_get : string → B → Outcome unit * B.
(** [self.wait.until(EC.presence_of_element_located((by, selector)))]. *)
Variable wait_presence : By → string → B → Outcome unit * B.
(** [container.find_elements(by, selector)]; no container is the driver. *)
Variable find_elements : option Element → By → string → B → Outcome (list Element) * B.
(** [self.wait.until(EC.element_to_be_clickable(...))] and the click. *)
Variable wait_click : By → string → B → Outcome unit * B.
(** Writing [self.driver.page_source] to a file under [error_pages_dir]. *)
Variable save_page_source : B → Outcome unit * B.
(** The hooks a subclass provides. *)
Variable _process_category_element : Element → Item → B → Outcome ResultRecord * B.
Variable _create_empty_result : Item → B → Outcome ResultRecord * B.
Variable _get_page_ready_selector : string.
Variable _get_categories_selector : string.
Variable progress_tracking_key : string.
(** How many nested retries of [_navigate_to_url] the interpreter's stack
    allows before the next call raises [RecursionError]. *)
Variable recursion_limit : nat.

(** The instance: the browser, whether [self.driver] and [self.wait] are
    set, [self.selectors] (absent when the configuration could not be
    loaded), whether [self.logger] exists, and what was logged and
    printed. *)
Record Instance : Type := mkInstance {
  browser : B;
  driver : bool;
  wait : bool;
  selectors : option (gmap string (list string));
  has_logger : bool;
  log : list LogRecord;
  stdout : list string
}.

Definition lift {A} (op : B → Outcome A * B) : M Instance A :=
  λ s, match op (browser s) with
       | (r, b') => (r, mkInstance b' (driver s) (wait s) (selectors s)
                          (has_logger s) (log s) (stdout s))
       end.

Definition set_driver (d : bool) : M Instance unit :=
  modify (λ s, mkInstance (browser s) d (wait s) (selectors s)
                 (has_logger s) (log s) (stdout s)).

Definition set_wait (w : bool) : M Instance unit :=
  modify (λ s, mkInstance (browser s) (driver s) w (selectors s)
                 (has_logger s) (log s) (stdout s)).

Definition write_log (r : LogRecord) : M Instance unit :=
  modify (λ s, mkInstance (browser s) (driver s) (wait s) (selectors s)
                 (has_logger s) (log s ++ [r]) (stdout s)).

Definition print (text : string) : M Instance unit :=
  modify (λ s, mkInstance (browser s) (driver s) (wait s) (selectors s)
                 (has_logger s) (log s) (stdout s ++ [text])).

(** [if hasattr(self, 'logger'): self.logger.<level>(text)]. *)
Definition log_if (level : Level) (text : string) : M Instance unit :=
  l ← gets has_logger;
  if l : bool then write_log (Log level text) else ret ().

(** [self.logger.<level>(text)] without the guard. *)
Definition logger (level : Level) (text : string) : M Instance unit :=
  l ← gets has_logger;
  if l : bool then write_log (Log level text) else raise AttributeError.

(** A call on [self.driver], which is [None] until the driver starts. *)
Definition on_driver {A} (op : B → Outcome A * B) : M Instance A :=
  d ← gets driver;
  if d : bool then lift op else raise AttributeError.

(** A call on [self.wait]. *)
Definition on_wait {A} (op : B → Outcome A * B) : M Instance A :=
  w ← gets wait;
  if w : bool then lift op else raise AttributeError.

(** The cleanup both at the start of [_init_driver] and in its handler. *)
Definition discard_driver : M Instance unit :=
  d ← gets driver;
  if d : bool then
    try_except (lift quit) (λ _, ret ());;
    set_driver false
  else ret ().

Definition _init_driver : M Instance bool :=
  try_except
    (discard_driver;;
     lift options;;
     log_if INFO "Initializing Chrome WebDriver";;
     lift chrome;;
     set_driver true;;
     lift execute_script;;
     lift set_window_size;;
     set_wait true;;
     log_if INFO "WebDriver initialized successfully";;
     ret true)
    (λ e,
       l ← gets has_logger;
       (if l : bool then write_log (Log ERROR "Failed to initialize WebDriver")
        else print "Failed to initialize WebDriver");;
       discard_driver;;
       ret false).

(** The [for selector in self.selectors[selector_key]] loop: the first
    selector that is present and yields elements returns them; a timeout
    or any other exception moves on to the next selector. *)
Fixpoint find_loop (container : option Element) (candidates : list string)
    : M Instance (list Element) :=
  match candidates with
  | [] => ret []
  | selector :: rest =>
      elements ←
        try_except
          (let by_type := _get_selector_type selector in
           on_wait (wait_presence by_type selector);;
           match container with
           | Some c => lift (find_elements (Some c) by_type selector)
           | None => on_driver (find_elements None by_type selector)
           end)
          (λ _, ret []);
      match elements with
      | [] => find_loop container rest
      | _ => ret elements
      end
  end.

Definition _find_elements (selector_key : string) (container : option Element)
    : M Instance (list Element) :=
  configured ← gets selectors;
  match configured with
  | None => raise AttributeError
  | Some m =>
      match m !! selector_key with
      | None =>
          log_if ERROR "Selector key not found in configuration";;
          ret []
      | Some candidates => find_loop container candidates
      end
  end.

Definition _click_element (selector : string) : M Instance bool :=
  try_except
    (on_wait (wait_click (_get_selector_type selector) selector);;
     ret true)
    (λ _, ret false).

Definition _wait_for_page_ready : M Instance bool :=
  elements ← _find_elements _get_page_ready_selector None;
  ret (match elements with [] => false | _ => true end).

Definition _is_error_page : M Instance bool :=
  error_elements ← _find_elements "error_page_indicator" None;
  match error_elements with
  | [] => ret false
  | _ => log_if WARNING "Error page detected";; ret true
  end.

Fixpoint handle_loop (handlers : list string) : M Instance bool :=
  match handlers with
  | [] => log_if ERROR "Failed to handle error page";; ret false
  | selector :: rest =>
      clicked ← _click_element selector;
      if clicked : bool
      then log_if INFO "Error page handled successfully";; ret true
      else handle_loop rest
  end.

(** [self.selectors.get('error_page_handler', [])]. *)
Definition _handle_error_page : M Instance bool :=
  configured ← gets selectors;
  match configured with
  | None => raise AttributeError
  | Some m => handle_loop (default [] (m !! "error_page_handler"))
  end.

(** [_navigate_to_url] calls itself after a handled error page; [depth]
    is how many more nested calls the stack allows. The whole body is
    inside the [try]. *)
Fixpoint _navigate_to_url (depth : nat) (url : string) : M Instance bool :=
  try_except
    (log_if INFO "Navigating";;
     on_driver (driver_get url);;
     ready ← _wait_for_page_ready;
     if ready : bool then
       log_if INFO "Page loaded successfully";; ret true
     else
       log_if WARNING "Page not ready, checking for error page";;
       is_error ← _is_error_page;
       if is_error : bool then
         handled ← _handle_error_page;
         if handled : bool then
           match depth with
           | O => raise RecursionError
           | S depth' => _navigate_to_url depth' url
           end
         else ret false
       else
         on_driver save_page_source;;
         ret false)
    (λ e, log_if ERROR "Navigation failed";; ret false).

(** [item[key]]. *)
Definition getitem (item : Item) (key : string) : M Instance string :=
  match item !! key with
  | Some v => ret v
  | None => raise KeyError
  end.

(** Truthiness of a dict. *)
Definition dict_truthy (d : ResultRecord) : bool := negb (bool_decide (d = ∅)).

(** The [for category_element in category_elements] loop, with
    [new_items] as accumulator. *)
Fixpoint category_loop (elements : list Element) (item : Item)
    (new_items : list ResultRecord) : M Instance (list ResultRecord) :=
  match elements with
  | [] => ret new_items
  | category_element :: rest =>
      new_items' ←
        try_except
          (result_item ← lift (_process_category_element category_element item);
           if dict_truthy result_item
           then ret (new_items ++ [result_item])
           else ret new_items)
          (λ e,
             logger WARNING "Error processing category element";;
             ret new_items);
      category_loop rest item new_items'
  end.

Definition _process_single_item (item : Item) : M Instance (list ResultRecord) :=
  try_except
    (url ← getitem item progress_tracking_key;
     navigated ← _navigate_to_url recursion_limit url;
     if negb navigated then
       logger ERROR "Failed to navigate";;
       ret []
     else
       category_elements ← _find_elements _get_categories_selector None;
       new_items ←
         match category_elements with
         | [] =>
             logger WARNING "No categories found, creating empty result";;
             empty_result ← lift (_create_empty_result item);
             ret [empty_result]
         | _ =>
             logger INFO "Found category elements";;
             category_loop category_elements item []
         end;
       logger INFO "Successfully extracted categories";;
       ret new_items)
    (λ e, logger ERROR "Error processing item";; ret []).

End Browser.
End Scraper.

(** Two things said of a computation on an instance: that it never
    raises, and that it leaves [self.logger] and [self.selectors] as they
    are. *)
Module ScraperSpec.
Import Scraper.
Section Spec.
Context {B : Type}.

Definition never_raises {A} (c : M (Instance (B:=B)) A) : Prop :=
  ∀ s, ∃ r s', c s = (Ret r, s').

Definition keeps {A} (c : M (Instance (B:=B)) A) : Prop :=
  ∀ s, has_logger (c s).2 = has_logger s ∧ selectors (c s).2 = selectors s.

End Spec.
End ScraperSpec.

(** ** Text cleaning: [_clean_text] and [get_clean_text]

    A Python [str] is a sequence of code points. [isspace] is the
    interpreter's whitespace test, the one both [\s] in a [str] pattern
    and [str.strip] apply to a code point; its table is not part of the
    source and is taken as given. *)

Module Text.
Section Chars.
Variable isspace : N → bool.

(** A literal of the source, as code points. *)
Definition chars (s : string) : list N :=
  Ascii.N_of_ascii <$> String.list_ascii_of_string s.

Definition LT : N := 60.     (* '<' *)
Definition GT : N := 62.     (* '>' *)
Definition SPACE : N := 32.  (* ' ' *)

(** [re.sub(r'<[^>]+>', '', text)] as one scan from the left. [pending]
    holds, newest first, the characters read since a '<' that may open a
    match. [[^>]+] takes everything up to the next '>', other '<'
    included, and needs one character at least: so the next '>' closes
    the match and the whole is dropped, unless it follows the '<' at once,
    in which case there is no match at that '<' and both characters stay.
    A '<' with no '>' behind it matches nothing, and neither does any
    later one. *)
Fixpoint strip_tags_scan (pending : option (list N)) (text : list N) : list N :=
  match text with
  | [] =>
      match pending with
      | None => []
      | Some inside => LT :: reverse inside
      end
  | c :: rest =>
      match pending with
      | None =>
          if (c =? LT)%N then strip_tags_scan (Some []) rest
          else c :: strip_tags_scan None rest
      | Some inside =>
          if (c =? GT)%N then
            match inside with
            | [] => LT :: GT :: strip_tags_scan None rest
            | _ => strip_tags_scan None rest
            end
          else strip_tags_scan (Some (c :: inside)) rest
      end
  end.

Definition strip_tags (text : list N) : list N := strip_tags_scan None text.

(** [text.replace(old, new)] for a non-empty [old]: occurrences are
    replaced from the left and do not overlap. [skip] counts the
    characters of a replaced occurrence still to be passed over. *)
Fixpoint replace_scan (old new : list N) (skip : nat) (text : list N) : list N :=
  match text with
  | [] => []
  | c :: rest =>
      match skip with
      | S skip' => replace_scan old new skip' rest
      | O =>
          if bool_decide (old `prefix_of` text)
          then new ++ replace_scan old new (length old - 1) rest
          else c :: replace_scan old new 0 rest
      end
  end.

Definition replace (old new text : list N) : list N := replace_scan old new 0 text.

(** [re.sub(r'\s+', ' ', text)]: every maximal run of whitespace becomes
    one space. [in_run] tells whether the previous character was
    whitespace. *)
Fixpoint collapse_scan (in_run : bool) (text : list N) : list N :=
  match text with
  | [] => []
  | c :: rest =>
      if isspace c then
        if in_run then collapse_scan true rest
        else SPACE :: collapse_scan true rest
      else c :: collapse_scan false rest
  end.

Definition collapse (text : list N) : list N := collapse_scan false text.

Fixpoint lstrip (text : list N) : list N :=
  match text with
  | [] => []
  | c :: rest => if isspace c then lstrip rest else text
  end.

Definition rstrip (text : list N) : list N := reverse (lstrip (reverse text)).

(** [text.strip()]. *)
Definition strip (text : list N) : list N := rstrip (lstrip text).

Definition _clean_text (text : list N) : list N :=
  match text with
  | [] => []
  | _ =>
      let text := strip_tags text in
      let text := replace (chars "&nbsp;") (chars " ") text in
      let text := replace (chars "&amp;") (chars "&") text in
      let text := replace (chars "&lt;") (chars "<") text in
      let text := replace (chars "&gt;") (chars ">") text in
      strip (collapse text)
  end.

(** [text and text.strip()]: the attribute is there and not blank. *)
Definition usable (text : option (list N)) : bool :=
  match text with
  | None => false
  | Some [] => false
  | Some t => match strip t with [] => false | _ => true end
  end.

Section Element.
Context {B Element : Type}.
(** [element.get_attribute(name)], [None] when the attribute is absent,
    and [element.text]; both may raise (a stale element). *)
Variable get_attribute : string → Element → B → Outcome (option (list N)) * B.
Variable element_text : Element → B → Outcome (list N) * B.

Definition get_clean_text (element : option Element) : M B (list N) :=
  match element with
  | None => ret []
  | Some el =>
      try_except
        (text ← get_attribute "innerText" el;
         if usable text then ret (_clean_text (default [] text))
         else
           text ← element_text el;
           if usable (Some text) then ret (_clean_text text)
           else
             text ← get_attribute "innerHTML" el;
             if usable text
             then ret (_clean_text (strip_tags (default [] text)))
             else ret [])
        (λ _, ret [])
  end.

End Element.

(** Text in normal form: it neither starts nor ends with whitespace, its
    only whitespace characters are spaces, and no two of them are
    adjacent. *)
Fixpoint single_spaced (text : list N) : bool :=
  match text with
  | [] => true
  | c :: rest =>
      (if isspace c
       then (c =? SPACE)%N
            && match rest with [] => true | c' :: _ => negb (isspace c') end
       else true)
      && single_spaced rest
  end.

Definition normalised (text : list N) : bool :=
  match text with [] => true | c :: _ => negb (isspace c) end
  && match last text with None => true | Some c => negb (isspace c) end
  && single_spaced text.

End Chars.

(** Whitespace among the first 128 code points. *)
Definition ascii_space (c : N) : bool :=
  bool_decide (c ∈ [9; 10; 11; 12; 13; 28; 29; 30; 31; 32]%N).

End Text.

(** ** A concrete browser

    A browser that counts the calls made on it, with numbers for
    elements: every call succeeds, every selector finds one element, and
    each category element gives the record [row_a]. *)

Module Cases.
Import Scraper.

(** A call whose [stat] fails at second [t], and one whose write fails
    at second [t] after the header line has reached the file; the backup
    file is written in both. *)
Definition stat_fails (t : Z) : OutputManager.SinkEnv :=
  {| OutputManager.fails_at := Some OutputManager.OpStat;
     OutputManager.reached := 0; OutputManager.now := t;
     OutputManager.backup_fails := false;
     OutputManager.backup_reached := None |}.

Definition write_fails (t : Z) : OutputManager.SinkEnv :=
  {| OutputManager.fails_at := Some OutputManager.OpWrite;
     OutputManager.reached := 1; OutputManager.now := t;
     OutputManager.backup_fails := false;
     OutputManager.backup_reached := None |}.

(** A driver initialisation that raises. *)
Definition init_raises (w : nat) : Outcome bool * nat := (Raise OSError, w).

Definition ok (b : nat) : Outcome unit * nat := (Ret (), S b).

Definition get_ok (url : string) (b : nat) : Outcome unit * nat := (Ret (), S b).

Definition present (by_type : By) (selector : string) (b : nat)
    : Outcome unit * nat :=
  (Ret (), S b).

Definition one_element (container : option nat) (by_type : By)
    (selector : string) (b : nat) : Outcome (list nat) * nat :=
  (Ret [7%nat], S b).

Definition category (element : nat) (item : Item) (b : nat)
    : Outcome ResultRecord * nat :=
  (Ret Scenario.row_a, S b).

Definition empty_result (item : Item) (b : nat) : Outcome ResultRecord * nat :=
  (Ret ∅, b).

Definition configured : gmap string (list string) :=
  {[ "ready" := ["//body"]; "categories" := ["div.category"] ]}.

(** A worker's instance after [setup_process_logging], before
    [_init_driver]. *)
Definition fresh : Instance (B:=nat) :=
  mkInstance 0%nat false false (Some configured) true [] [].

(** An element whose [innerText] is blank and whose [text] is marked
    up. *)
Definition blank_attribute (name : string) (element : nat) (b : nat)
    : Outcome (option (list N)) * nat :=
  (Ret (Some (Text.chars "  ")), S b).

Definition marked_up_text (element : nat) (b : nat) : Outcome (list N) * nat :=
  (Ret (Text.chars " <p>a  b</p> "), S b).

End Cases.

(** * Properties *)

(** ** Partitioner *)

Section PartitionerFacts.
Import Partitioner.
Context {A : Type}.
Implicit Types (items : list A) (batches : list (list A)).

Lemma range0_bound stop step k :
  (0 < step)%nat → (k < (stop + step - 1) `div` step)%nat → (k * step < stop)%nat.
Proof.
  intros Hs Hk.
  pose proof (Nat.div_mod_eq (stop + step - 1) step) as E.
  pose proof (Nat.mod_upper_bound (stop + step - 1) step ltac:(lia)) as U.
  nia.
Qed.

Lemma range0_cover stop step :
  (0 < step)%nat → (stop ≤ (stop + step - 1) `div` step * step)%nat.
Proof.
  intros Hs.
  pose proof (Nat.div_mod_eq (stop + step - 1) step) as E.
  pose proof (Nat.mod_upper_bound (stop + step - 1) step ltac:(lia)) as U.
  nia.
Qed.

Lemma slice_prefix items batch_size m :
  (0 < batch_size)%nat →
  (m ≤ (length items + batch_size - 1) `div` batch_size)%nat →
  let batches := foldl (slice_step items batch_size) []
                   ((λ k, k * batch_size)%nat <$> seq 0 m) in
  concat batches = take (m * batch_size) items
  ∧ length batches = m
  ∧ Forall (λ b, b ≠ []) batches.
Proof.
  intros Hs. induction m as [|m IH]; intros Hm.
  - done.
  - cbv zeta. rewrite seq_S, fmap_app, foldl_app. simpl.
    destruct IH as (IHc & IHl & IHf); [lia|].
    set (bs := foldl _ _ _) in *.
    unfold slice_step, slice.
    replace (m * batch_size + batch_size - m * batch_size)%nat with batch_size by lia.
    assert (m * batch_size < length items)%nat as Hlt
      by (apply range0_bound; [done|lia]).
    destruct (take batch_size (drop (m * batch_size) items)) as [|x b] eqn:E.
    + apply (f_equal length) in E. rewrite length_take, length_drop in E.
      simpl in E. lia.
    + rewrite <- E. split_and!.
      * rewrite concat_app, IHc. simpl. rewrite app_nil_r.
        rewrite (Nat.add_comm batch_size), take_take_drop. done.
      * rewrite length_app. simpl. lia.
      * apply Forall_app. split; [done|]. constructor; [|done].
        rewrite E. done.
Qed.

Lemma slice_loop_spec items batch_size :
  (0 < batch_size)%nat →
  concat (slice_loop items batch_size) = items
  ∧ Forall (λ b, b ≠ []) (slice_loop items batch_size).
Proof.
  intros Hs. unfold slice_loop, range0.
  destruct (slice_prefix items batch_size
              ((length items + batch_size - 1) `div` batch_size) Hs (le_n _))
    as (Hc & _ & Hf).
  split; [|done]. rewrite Hc. apply take_ge.
  by apply range0_cover.
Qed.

(** One iteration of the merging loop on a list of at least two batches. *)
Lemma merge_step pre (y x : list A) :
  pop (pre ++ [y; x]) = Ret (x, pre ++ [y])
  ∧ extend_last (pre ++ [y]) x = Ret (pre ++ [y ++ x]).
Proof.
  unfold pop, extend_last.
  rewrite !reverse_app. simpl.
  change (reverse [y; x]) with [x; y]. change (reverse [y]) with [y]. simpl.
  rewrite reverse_involutive.
  replace (reverse (y :: reverse pre)) with (pre ++ [y])
    by (rewrite reverse_cons, reverse_involutive; done).
  done.
Qed.

Lemma two_last batches :
  (1 < length batches)%nat → ∃ pre y x, batches = pre ++ [y; x].
Proof.
  intros Hl.
  destruct (decide (batches = [])) as [->|Hne]; [simpl in Hl; lia|].
  destruct (exists_last Hne) as (l1 & x & ->).
  rewrite length_app in Hl. simpl in Hl.
  destruct (decide (l1 = [])) as [->|Hne1]; [simpl in Hl; lia|].
  destruct (exists_last Hne1) as (pre & y & ->).
  exists pre, y, x. by rewrite <- app_assoc.
Qed.

(** The merging loop never raises, keeps the concatenation and the
    non-emptiness of the batches, and with [length batches] iterations
    allowed it stops because its guard is false. *)
Lemma merge_loop_spec fuel batches n :
  (length batches ≤ fuel)%nat →
  Forall (λ b, b ≠ []) batches →
  ∃ merged,
    merge_loop fuel batches n = Ret merged
    ∧ concat merged = concat batches
    ∧ Forall (λ b, b ≠ []) merged
    ∧ (length merged ≤ length batches)%nat
    ∧ ¬ (n < Z.of_nat (length merged) ∧ (1 < length merged)%nat).
Proof.
  revert batches. induction fuel as [|fuel IH]; intros batches Hfuel Hne.
  - destruct batches; [|simpl in Hfuel; lia].
    exists []. simpl. rewrite andb_false_r. split_and!; try done.
    simpl. lia.
  - simpl.
    destruct (bool_decide (n < Z.of_nat (length batches))
              && bool_decide (1 < length batches)%nat) eqn:G.
    + apply andb_true_iff in G as [G1 G2].
      apply bool_decide_eq_true in G1, G2.
      destruct (two_last batches G2) as (pre & y & x & ->).
      destruct (merge_step pre y x) as [-> ->].
      rewrite length_app in Hfuel. simpl in Hfuel.
      apply Forall_app in Hne as [Hpre Hyx].
      inversion Hyx as [|? ? Hy Hx']; subst.
      destruct (IH (pre ++ [y ++ x])) as (merged & E & Hc & Hf & Hl & Hg).
      * rewrite length_app. simpl. lia.
      * apply Forall_app. split; [done|]. constructor; [|done].
        destruct y; [done|]. done.
      * exists merged. split_and!; try done.
        -- rewrite Hc, !concat_app. simpl. rewrite !app_nil_r.
           by rewrite app_assoc.
        -- rewrite length_app in Hl |- *. simpl in *. lia.
    + exists batches. split_and!; try done.
      intros [H1 H2].
      apply andb_false_iff in G as [G|G]; apply bool_decide_eq_false in G; lia.
Qed.

(** Whenever the function returns, for any [n], the batches concatenate
    to the input. *)
Lemma split_items_into_batches_concat items (n : Z) batches :
  split_items_into_batches items n = Ret batches → concat batches = items.
Proof.
  unfold split_items_into_batches.
  destruct items as [|a items'] eqn:Ei; [by intros [= <-]|].
  rewrite <- Ei. unfold floordiv.
  destruct (decide (n = 0)) as [?|_]; [done|].
  set (batch_size := Z.to_nat (Z.max 1 (Z.of_nat (length items) `div` n))).
  assert (0 < batch_size)%nat as Hbs by (unfold batch_size; lia).
  destruct (slice_loop_spec items batch_size Hbs) as [Hc Hf].
  destruct (merge_loop_spec (length (slice_loop items batch_size))
              (slice_loop items batch_size) n (le_n _) Hf)
    as (merged & E & Hc' & _).
  rewrite E. intros [= <-]. by rewrite Hc'.
Qed.

(** C1. For every list of items and every number of processes [n >= 1],
    [split_items_into_batches] returns batches whose concatenation, in
    order, is the input list; there are at most [n] of them; none is
    empty; and the empty list gives no batch. *)
Theorem split_items_into_batches_partition items (n : Z) :
  1 ≤ n →
  ∃ batches,
    split_items_into_batches items n = Ret batches
    ∧ concat batches = items
    ∧ Z.of_nat (length batches) ≤ n
    ∧ Forall (λ b, b ≠ []) batches
    ∧ (items = [] → batches = []).
Proof.
  intros Hn. unfold split_items_into_batches.
  destruct items as [|a items'] eqn:Ei.
  - exists []. split_and!; try done. simpl. lia.
  - rewrite <- Ei. unfold floordiv.
    destruct (decide (n = 0)) as [?|_]; [lia|].
    set (batch_size := Z.to_nat (Z.max 1 (Z.of_nat (length items) `div` n))).
    assert (0 < batch_size)%nat as Hbs by (unfold batch_size; lia).
    destruct (slice_loop_spec items batch_size Hbs) as [Hc Hf].
    destruct (merge_loop_spec (length (slice_loop items batch_size))
                (slice_loop items batch_size) n (le_n _) Hf)
      as (merged & E & Hc' & Hf' & _ & Hg).
    exists merged. split_and!; try done.
    + by rewrite Hc'.
    + destruct (decide (Z.of_nat (length merged) ≤ n)) as [|Hgt]; [done|].
      exfalso. apply Hg. split; lia.
    + rewrite Ei. done.
Qed.

End PartitionerFacts.

Lemma split_items_into_batches_partition_witness :
  1 ≤ 2 ∧
  ∃ batches,
    Partitioner.split_items_into_batches [1; 2; 3; 4; 5]%nat 2 = Ret batches
    ∧ concat batches = [1; 2; 3; 4; 5]%nat
    ∧ Z.of_nat (length batches) ≤ 2
    ∧ Forall (λ b, b ≠ []) batches
    ∧ ([1; 2; 3; 4; 5]%nat = [] → batches = []).
Proof.
  split; [lia|].
  apply (split_items_into_batches_partition [1; 2; 3; 4; 5]%nat 2). lia.
Defined.

Example split_seven_for_three :
  Partitioner.split_items_into_batches [1; 2; 3; 4; 5; 6; 7]%nat 3
  = Ret [[1; 2]; [3; 4]; [5; 6; 7]]%nat.
Proof. reflexivity. Qed.

Example split_for_no_process :
  Partitioner.split_items_into_batches [1; 2; 3]%nat 0 = Raise ZeroDivisionError.
Proof. reflexivity. Qed.

Example split_for_negative_count :
  Partitioner.split_items_into_batches [1; 2; 3]%nat (-2) = Ret [[1; 2; 3]]%nat.
Proof. reflexivity. Qed.

(** C8 as the specification words it fails: three items cut for two
    processes do not come back as [[a, b], [c]]. *)
Lemma split_abc_2_not_ab_c :
  Partitioner.split_items_into_batches
    [ {[ "k" := "a" ]}; {[ "k" := "b" ]}; {[ "k" := "c" ]} ] 2
  ≠ Ret [ [ ({[ "k" := "a" ]} : Item); {[ "k" := "b" ]} ]; [ {[ "k" := "c" ]} ] ].
Proof. intros H. discriminate H. Qed.

(** C8, amended. For the input [[{"k":"a"},{"k":"b"},{"k":"c"}]] and
    [n = 2] the batch size is [max(1, 3 // 2) = 1]; the three singleton
    slices are merged from the end, and the result is [[a], [b, c]]. *)
Theorem split_abc_2 :
  Partitioner.split_items_into_batches
    [ {[ "k" := "a" ]}; {[ "k" := "b" ]}; {[ "k" := "c" ]} ] 2
  = Ret [ [ ({[ "k" := "a" ]} : Item) ]; [ {[ "k" := "b" ]}; {[ "k" := "c" ]} ] ].
Proof. reflexivity. Qed.

(** ** ResumeFilter *)

Section ResumeFilterFacts.
Import ResumeFilter.

Lemma filter_loop_filter K key items acc :
  filter_loop K key items acc = acc ++ List.filter (kept K key) items.
Proof.
  revert acc. induction items as [|item rest IH]; intros acc; simpl.
  - by rewrite app_nil_r.
  - fold (kept K key item). destruct (kept K key item).
    + rewrite IH, <- app_assoc. done.
    + apply IH.
Qed.

Lemma load_existing_results_persisted file key s :
  s ∈ _load_existing_results file key ↔ persisted_key file key s.
Proof.
  unfold persisted_key, _load_existing_results.
  destruct file as [| e | df].
  - split; [set_solver|]. intros (df & ? & _). done.
  - split; [set_solver|]. intros (df & ? & _). done.
  - unfold df_empty, column_values.
    destruct (decide (df_columns df = [])) as [Ec|Ec].
    { rewrite (bool_decide_eq_true_2 _ Ec). cbn [orb]. split; [set_solver|].
      intros (df' & [= <-] & Hin & _). rewrite Ec in Hin. set_solver. }
    rewrite (bool_decide_eq_false_2 _ Ec). cbn [orb].
    destruct (decide (df_rows df = [])) as [Er|Er].
    { rewrite (bool_decide_eq_true_2 _ Er). split; [set_solver|].
      intros (df' & [= <-] & _ & row & Hin & _). rewrite Er in Hin. set_solver. }
    rewrite (bool_decide_eq_false_2 _ Er).
    destruct (decide (key ∈ df_columns df)) as [Hk|Hk].
    + rewrite (bool_decide_eq_true_2 _ Hk).
      rewrite elem_of_list_to_set, list_elem_of_omap. split.
      * intros (row & Hin & Hrow). exists df. eauto.
      * intros (df' & [= <-] & _ & row & Hin & Hrow). eauto.
    + rewrite (bool_decide_eq_false_2 _ Hk). split; [set_solver|].
      intros (df' & [= <-] & Hin & _). done.
Qed.

(** C2 as the specification words it fails: with ["a"] persisted, an item
    that has no resume-key field is not among the persisted keys, yet the
    filter drops it. *)
Lemma filter_items_for_resume_not_set_difference :
  _load_existing_results Scenario.earlier_output "k" = {[ "a" ]}
  ∧ _filter_items_for_resume Scenario.earlier_output "k"
      [Scenario.a; Scenario.page; Scenario.b]
    = [Scenario.b]
  ∧ spec_set_difference {[ "a" ]} "k" [Scenario.a; Scenario.page; Scenario.b]
    = [Scenario.page; Scenario.b]
  ∧ _filter_items_for_resume Scenario.earlier_output "k"
      [Scenario.a; Scenario.page; Scenario.b]
    ≠ spec_set_difference {[ "a" ]} "k" [Scenario.a; Scenario.page; Scenario.b].
Proof.
  split_and!.
  - vm_compute. reflexivity.
  - vm_compute. reflexivity.
  - vm_compute. reflexivity.
  - intros H. apply (f_equal length) in H. vm_compute in H. discriminate H.
Qed.

(** The specification's resume scenario: ["a"] persisted, input [[a; b]]. *)
Example resume_a_b :
  _filter_items_for_resume Scenario.earlier_output "k" [Scenario.a; Scenario.b]
  = [Scenario.b].
Proof. vm_compute. reflexivity. Qed.

(** C2, amended. The set [K] the filter consults holds exactly the
    resume-key values of the persisted rows. When [K] is empty the input
    is returned unchanged; otherwise the result is, in input order, the
    items whose resume-key value is present, non-empty and not in [K].
    A missing output file and an output without rows give the input
    back. *)
Theorem filter_items_for_resume_spec key items :
  (∀ file,
     let K := _load_existing_results file key in
     (∀ s, s ∈ K ↔ persisted_key file key s)
     ∧ _filter_items_for_resume file key items
       = if bool_decide (K = ∅) then items
         else List.filter
                (λ item, str_truthy (item_get item key)
                         && bool_decide (item_get item key ∉ K)) items)
  ∧ _filter_items_for_resume Missing key items = items
  ∧ (∀ columns,
       _filter_items_for_resume
         (Table {| df_columns := columns; df_rows := [] |}) key items = items).
Proof.
  split_and!.
  - intros file K. split.
    + intros s. apply load_existing_results_persisted.
    + unfold _filter_items_for_resume. fold K.
      destruct (bool_decide (K = ∅)); [done|].
      by rewrite filter_loop_filter.
  - done.
  - intros columns. unfold _filter_items_for_resume. simpl.
    unfold df_empty. simpl. rewrite orb_true_r. done.
Qed.

End ResumeFilterFacts.

(** ** Worker *)

Ltac unfold_monad :=
  unfold mbind, M_bind, bind, mret, M_ret, ret, raise, modify, gets,
    of_outcome, try_except, try_finally in *.

Section WorkerFacts.
Import Worker.
Context {World : Type}.
Variable _init_driver : World → Outcome bool * World.
Variable has_driver : World → bool.
Variable _process_single_item : Item → World → Outcome (list ResultRecord) * World.
Variable driver_quit : World → Outcome unit * World.
Variable progress_tracking_key : string.

Local Abbreviation process_item :=
  (process_item _process_single_item progress_tracking_key).
Local Abbreviation process_batch :=
  (process_batch _init_driver has_driver _process_single_item driver_quit
     progress_tracking_key).
Local Abbreviation progress_trace :=
  (progress_trace _init_driver has_driver _process_single_item driver_quit
     progress_tracking_key).
Local Abbreviation item_signal := (item_signal _process_single_item progress_tracking_key).
Local Abbreviation item_world := (item_world _process_single_item progress_tracking_key).
Local Abbreviation loop_signals := (loop_signals _process_single_item progress_tracking_key).
Local Abbreviation loop_world := (loop_world _process_single_item progress_tracking_key).
Local Abbreviation batch_finally := (batch_finally (World:=World) has_driver driver_quit).

Implicit Types (s : WState (World:=World)) (w : World) (items : list Item).

Lemma for_each_output (results : list ResultRecord) s :
  for_each results output_queue_put s
  = (Ret (), mkWState (world s) (has_logger s) (log_queue s)
               (output_queue s ++ results) (progress_queue s)).
Proof.
  revert s. induction results as [|r results IH]; intros [w hl lq oq pq]; simpl.
  - unfold_monad. by rewrite app_nil_r.
  - unfold_monad. unfold output_queue_put at 1. unfold_monad. simpl.
    rewrite IH. simpl. by rewrite <- app_assoc.
Qed.

Lemma for_each_failed items s :
  for_each items (λ _, progress_queue_put (World:=World) (Count (-1))) s
  = (Ret (), mkWState (world s) (has_logger s) (log_queue s) (output_queue s)
               (progress_queue s ++ replicate (length items) (Count (-1)))).
Proof.
  revert s. induction items as [|i items IH]; intros [w hl lq oq pq]; simpl.
  - unfold_monad. by rewrite app_nil_r.
  - unfold_monad. unfold progress_queue_put at 1. unfold_monad. simpl.
    rewrite IH. simpl. by rewrite <- app_assoc.
Qed.

(** The loop body never raises: whatever the agent does, it puts one
    integer signal and leaves the rest of the progress queue alone. *)
Lemma process_item_run item s :
  ∃ logs outs,
    process_item item s
    = (Ret (), mkWState (item_world item (world s)) (has_logger s)
                 (log_queue s ++ logs) (output_queue s ++ outs)
                 (progress_queue s ++ [Count (item_signal item (world s))])).
Proof.
  destruct s as [w hl lq oq pq].
  unfold Worker.process_item, Worker.item_signal, Worker.item_world. simpl.
  destruct (str_truthy (item_get item progress_tracking_key)); simpl.
  - unfold logger, emit, lift, log_queue_put, progress_queue_put.
    unfold_monad. simpl.
    destruct (_process_single_item item w) as [[results|e] w'] eqn:E; simpl.
    + destruct results as [|r results].
      * simpl. eexists _, []. rewrite (app_nil_r oq), <- ?app_assoc. reflexivity.
      * set (rs := r :: results).
        rewrite for_each_output. simpl. eexists _, rs.
        rewrite <- ?app_assoc. reflexivity.
    + eexists _, []. rewrite (app_nil_r oq), <- ?app_assoc. reflexivity.
  - unfold logger, emit, log_queue_put, progress_queue_put.
    unfold_monad. simpl. eexists _, []. rewrite (app_nil_r oq), <- ?app_assoc.
    reflexivity.
Qed.

Lemma loop_run items s :
  ∃ logs outs,
    for_each items process_item s
    = (Ret (), mkWState (loop_world items (world s)) (has_logger s)
                 (log_queue s ++ logs) (output_queue s ++ outs)
                 (progress_queue s ++ loop_signals items (world s))).
Proof.
  revert s. induction items as [|item items IH]; intros s.
  - exists [], []. destruct s. simpl. unfold_monad. by rewrite !app_nil_r.
  - destruct (process_item_run item s) as (logs1 & outs1 & E1).
    simpl. unfold_monad. rewrite E1.
    edestruct IH as (logs2 & outs2 & E2). rewrite E2. simpl.
    exists (logs1 ++ logs2), (outs1 ++ outs2).
    by rewrite <- !app_assoc.
Qed.

Lemma loop_signals_app pre post w :
  loop_signals (pre ++ post) w
  = loop_signals pre w ++ loop_signals post (loop_world pre w).
Proof.
  revert w. induction pre as [|item pre IH]; intros w; simpl; [done|].
  by rewrite IH.
Qed.

Lemma loop_signals_length items w : length (loop_signals items w) = length items.
Proof. revert w. induction items; intros w; simpl; [done|]. by f_equal. Qed.

Lemma loop_signals_counts items w : forallb is_count (loop_signals items w) = true.
Proof. revert w. induction items; intros w; simpl; done. Qed.

Lemma replicate_counts n c : forallb is_count (replicate n (Count c)) = true.
Proof. induction n; simpl; done. Qed.

Local Abbreviation batch_signals :=
  (batch_signals _init_driver _process_single_item progress_tracking_key).
Local Abbreviation batch_world :=
  (batch_world _init_driver _process_single_item progress_tracking_key).
Local Abbreviation final_world := (final_world has_driver driver_quit).
Local Abbreviation batch_body :=
  (batch_body _init_driver _process_single_item progress_tracking_key).

(** The [finally] block never raises and puts one ['DONE']. *)
Lemma batch_finally_run s :
  ∃ logs,
    batch_finally s
    = (Ret (), mkWState (final_world (world s)) (has_logger s)
                 (log_queue s ++ logs) (output_queue s)
                 (progress_queue s ++ [Done])).
Proof.
  destruct s as [w hl lq oq pq].
  unfold Worker.batch_finally, Worker.final_world, logger, emit, lift,
    log_queue_put, progress_queue_put.
  unfold_monad. simpl.
  destruct (has_driver w); simpl.
  - destruct (driver_quit w) as [[[]|e] w']; simpl; eexists; reflexivity.
  - exists []. by rewrite app_nil_r.
Qed.

(** The [try] block with its [except Exception] handler never raises. *)
Lemma batch_guarded_run items s :
  ∃ logs outs,
    try_except (batch_body items) (batch_handler items) s
    = (Ret (), mkWState (batch_world items (world s)) true
                 (log_queue s ++ logs) (output_queue s ++ outs)
                 (progress_queue s ++ batch_signals items (world s)))
    ∧ ((_init_driver (world s)).1 ≠ Ret true → outs = []).
Proof.
  destruct s as [w hl lq oq pq].
  unfold Worker.batch_body, Worker.batch_signals, Worker.batch_world,
    batch_handler, setup_process_logging, logger, emit, lift, log_queue_put.
  unfold_monad. simpl.
  destruct (_init_driver w) as [[[|]|e] w1] eqn:E; simpl.
  - edestruct (loop_run items) as (logs & outs & ->). simpl.
    eexists _, outs. rewrite <- ?app_assoc. split; [reflexivity|].
    intros H. by destruct H.
  - rewrite for_each_failed. simpl.
    eexists _, []. rewrite (app_nil_r oq), <- ?app_assoc. done.
  - rewrite for_each_failed. simpl.
    eexists _, []. rewrite (app_nil_r oq), <- ?app_assoc. done.
Qed.

Lemma process_batch_run items s :
  ∃ logs outs,
    process_batch items s
    = (Ret (), mkWState (final_world (batch_world items (world s))) true
                 (log_queue s ++ logs) (output_queue s ++ outs)
                 (progress_queue s ++ batch_signals items (world s) ++ [Done]))
    ∧ ((_init_driver (world s)).1 ≠ Ret true → outs = []).
Proof.
  destruct (batch_guarded_run items s) as (logs1 & outs & E1 & Hout).
  unfold Worker.process_batch.
  unfold try_finally. rewrite E1.
  edestruct batch_finally_run as (logs2 & ->). simpl.
  exists (logs1 ++ logs2), outs. by rewrite <- !app_assoc.
Qed.

Lemma batch_signals_length items w :
  length (batch_signals items w) = length items.
Proof.
  unfold Worker.batch_signals.
  destruct (_init_driver w) as [[[|]|e] w1];
    rewrite ?loop_signals_length, ?length_replicate; done.
Qed.

Lemma batch_signals_counts items w :
  forallb is_count (batch_signals items w) = true.
Proof.
  unfold Worker.batch_signals.
  destruct (_init_driver w) as [[[|]|e] w1];
    rewrite ?loop_signals_counts, ?replicate_counts; done.
Qed.

Lemma counts_not_done sigs : forallb is_count sigs = true → Done ∉ sigs.
Proof.
  intros H Hin. rewrite forallb_forall in H.
  apply list_elem_of_In, H in Hin. done.
Qed.

(** What one worker puts on the progress queue: one integer per item of
    its batch, then ['DONE']. *)
Lemma progress_trace_shape items w :
  progress_trace items w = batch_signals items w ++ [Done].
Proof.
  unfold Worker.progress_trace.
  destruct (process_batch_run items (start w)) as (logs & outs & -> & _).
  done.
Qed.

(** C3. Every invocation of [process_batch] returns, and what it adds to
    the progress queue is a run of integer signals followed by exactly
    one ['DONE']: whatever the items do, when the driver does not start,
    and when an exception reaches the outer handler. The second part is
    the [finally] block on its own: after any [try] body at all, raising
    or not, it adds exactly one ['DONE'] to what the body put. *)
Theorem process_batch_one_done items s :
  (∃ s' sigs,
     process_batch items s = (Ret (), s')
     ∧ progress_queue s' = progress_queue s ++ sigs ++ [Done]
     ∧ Done ∉ sigs)
  ∧ (∀ body : M WState unit,
       progress_queue (try_finally body batch_finally s).2
       = progress_queue (body s).2 ++ [Done]).
Proof.
  split.
  - destruct (process_batch_run items s) as (logs & outs & E & _).
    eexists _, (batch_signals items (world s)). split; [exact E|].
    split; [done|]. apply counts_not_done, batch_signals_counts.
  - intros body. unfold try_finally.
    destruct (body s) as [r s1].
    destruct (batch_finally_run s1) as (logs & ->). done.
Qed.

(** C6. When the driver does not start (the initialisation returns
    [False], or raises), the worker puts one [-1] per item of its batch
    and then ['DONE'], puts nothing on the output queue, and the agent is
    never asked to process an item: the world is the one the failed
    initialisation left, closed by the [finally] block. *)
Theorem process_batch_driver_failure items w :
  (_init_driver w).1 ≠ Ret true →
  ∃ s',
    process_batch items (start w) = (Ret (), s')
    ∧ progress_queue s' = replicate (length items) (Count (-1)) ++ [Done]
    ∧ output_queue s' = []
    ∧ world s' = let w1 := (_init_driver w).2 in
                 if has_driver w1 then (driver_quit w1).2 else w1.
Proof.
  intros Hfail.
  destruct (process_batch_run items (start w)) as (logs & outs & E & Hout).
  eexists. split; [exact E|]. simpl in *.
  rewrite (Hout Hfail).
  unfold Worker.batch_signals, Worker.batch_world, Worker.final_world.
  destruct (_init_driver w) as [[[|]|e] w1]; simpl in *; done.
Qed.

Lemma loop_world_app pre post w :
  loop_world (pre ++ post) w = loop_world post (loop_world pre w).
Proof.
  revert w. induction pre as [|item pre IH]; intros w; simpl; [done|].
  by rewrite IH.
Qed.

Lemma loop_signals_lookup items w j next :
  items !! j = Some next →
  loop_signals items w !! j
  = Some (Count (item_signal next (loop_world (take j items) w))).
Proof.
  revert w j. induction items as [|item items IH]; intros w [|j] Hj;
    simpl in *; try done.
  - by injection Hj as ->.
  - by apply IH.
Qed.

(** C4. When the driver started and the agent raises on an item, the
    worker puts exactly one [-1] for that item, in the item's position,
    and goes on with the next item. The signals before it are those of
    the items before it; the signals after it are those of the loop run
    on the remaining items from the world the failed call left: each of
    them that has a tracking key is handed to the agent in its turn and
    signals its own outcome. So every item has its one integer signal,
    ['DONE'] follows the last of them, and the agent's world at the end
    is the one the last item left, closed by the [finally] block. *)
Theorem process_batch_failed_item pre item post w w1 e w2 :
  _init_driver w = (Ret true, w1) →
  str_truthy (item_get item progress_tracking_key) = true →
  _process_single_item item (loop_world pre w1) = (Raise e, w2) →
  progress_trace (pre ++ item :: post) w
  = loop_signals pre w1 ++ [Count (-1)] ++ loop_signals post w2 ++ [Done]
  ∧ length (loop_signals pre w1) = length pre
  ∧ length (loop_signals post w2) = length post
  ∧ forallb is_count (loop_signals pre w1 ++ loop_signals post w2) = true
  ∧ (∀ j next, post !! j = Some next →
       loop_signals post w2 !! j
       = Some (Count
                 (if str_truthy (item_get next progress_tracking_key)
                  then match (_process_single_item next
                                (loop_world (take j post) w2)).1 with
                       | Ret results => Z.of_nat (length results)
                       | Raise _ => -1
                       end
                  else 0)))
  ∧ world (process_batch (pre ++ item :: post) (start w)).2
    = Worker.final_world has_driver driver_quit (loop_world post w2).
Proof.
  intros Hinit Hkey Hraise.
  assert (item_world item (loop_world pre w1) = w2) as Hw2.
  { unfold Worker.item_world. by rewrite Hkey, Hraise. }
  split_and!.
  - rewrite progress_trace_shape. unfold Worker.batch_signals. rewrite Hinit.
    rewrite loop_signals_app. simpl. rewrite Hw2.
    unfold Worker.item_signal at 1. rewrite Hkey, Hraise. simpl.
    by rewrite <- !app_assoc.
  - apply loop_signals_length.
  - apply loop_signals_length.
  - rewrite forallb_app, !loop_signals_counts. done.
  - intros j next Hj. by rewrite (loop_signals_lookup post w2 j next Hj).
  - destruct (process_batch_run (pre ++ item :: post) (start w))
      as (logs & outs & -> & _).
    simpl. unfold Worker.batch_world. rewrite Hinit.
    rewrite loop_world_app. simpl. by rewrite Hw2.
Qed.

End WorkerFacts.

Lemma process_batch_driver_failure_witness :
  ∃ s',
    Worker.process_batch Scenario.init_fails Scenario.driver_down Scenario.agent
      Scenario.quit_ok "k" [Scenario.a; Scenario.b] (Worker.start 0%nat)
    = (Ret (), s')
    ∧ Worker.progress_queue s' = replicate 2 (Count (-1)) ++ [Done]
    ∧ Worker.output_queue s' = []
    ∧ Worker.world s' = 0%nat.
Proof.
  apply (process_batch_driver_failure Scenario.init_fails Scenario.driver_down
           Scenario.agent Scenario.quit_ok "k" [Scenario.a; Scenario.b] 0%nat).
  simpl. discriminate.
Defined.

Lemma process_batch_failed_item_witness :
  Worker.progress_trace Scenario.init_ok Scenario.driver_up Scenario.agent
    Scenario.quit_ok "k" ([Scenario.a] ++ Scenario.b :: [Scenario.c; Scenario.a]) 0%nat
  = Worker.loop_signals Scenario.agent "k" [Scenario.a] 0%nat
    ++ [Count (-1)]
    ++ Worker.loop_signals Scenario.agent "k" [Scenario.c; Scenario.a] 2%nat
    ++ [Done]
  ∧ length (Worker.loop_signals Scenario.agent "k" [Scenario.a] 0%nat)
    = length [Scenario.a]
  ∧ length (Worker.loop_signals Scenario.agent "k" [Scenario.c; Scenario.a] 2%nat)
    = length [Scenario.c; Scenario.a]
  ∧ forallb Worker.is_count
      (Worker.loop_signals Scenario.agent "k" [Scenario.a] 0%nat
       ++ Worker.loop_signals Scenario.agent "k" [Scenario.c; Scenario.a] 2%nat)
    = true
  ∧ (∀ j next, [Scenario.c; Scenario.a] !! j = Some next →
       Worker.loop_signals Scenario.agent "k" [Scenario.c; Scenario.a] 2%nat !! j
       = Some (Count
                 (if str_truthy (item_get next "k")
                  then match (Scenario.agent next
                                (Worker.loop_world Scenario.agent "k"
                                   (take j [Scenario.c; Scenario.a]) 2%nat)).1 with
                       | Ret results => Z.of_nat (length results)
                       | Raise _ => -1
                       end
                  else 0)))
  ∧ Worker.world
      (Worker.process_batch Scenario.init_ok Scenario.driver_up Scenario.agent
         Scenario.quit_ok "k" ([Scenario.a] ++ Scenario.b :: [Scenario.c; Scenario.a])
         (Worker.start 0%nat)).2
    = Worker.final_world Scenario.driver_up Scenario.quit_ok
        (Worker.loop_world Scenario.agent "k" [Scenario.c; Scenario.a] 2%nat).
Proof.
  apply (process_batch_failed_item Scenario.init_ok Scenario.driver_up
           Scenario.agent Scenario.quit_ok "k" [Scenario.a] Scenario.b
           [Scenario.c; Scenario.a] 0%nat 0%nat (AgentError "boom") 2%nat).
  - reflexivity.
  - reflexivity.
  - vm_compute. reflexivity.
Defined.

Example worker_abc :
  Worker.progress_trace Scenario.init_ok Scenario.driver_up Scenario.agent
    Scenario.quit_ok "k" [Scenario.a; Scenario.b; Scenario.c] 0%nat
  = [Count 1; Count (-1); Count 0; Done].
Proof. vm_compute. reflexivity. Qed.

(** ** ProgressTracker and Supervisor *)

Section SupervisorFacts.
Import ProgressTracker Supervisor.
Variable clock : nat → Q.

Implicit Types (s : ProgressTracker.Sup) (t : Tracker).

Lemma count_signal_processed c t :
  processed_input_items (count_signal c t) = processed_input_items t + 1
  ∧ total_input_items (count_signal c t) = total_input_items t.
Proof.
  unfold count_signal. destruct (c =? -1); [done|]. destruct (c =? 0); done.
Qed.

(** [_log_progress] leaves the counters alone; it logs nothing while no
    item was processed, and one summary of the counters otherwise. *)
Lemma log_progress_run s :
  total_input_items (tracker s) ≠ 0 →
  ∃ s',
    _log_progress clock s = (Ret (), s')
    ∧ tracker s' = tracker s
    ∧ (if processed_input_items (tracker s) =? 0
       then main_log s' = main_log s
       else ∃ pct eta,
           main_log s'
           = main_log s
             ++ [ProgressSummary (processed_input_items (tracker s))
                   (total_input_items (tracker s)) pct
                   (total_output_items (tracker s))
                   (failed_items (tracker s)) eta]).
Proof.
  intros Htot. destruct s as [t lg k]. simpl in *.
  unfold _log_progress. unfold_monad. simpl.
  destruct (processed_input_items t =? 0) eqn:E.
  - eexists. split; [reflexivity|]. done.
  - unfold truediv. destruct (decide (total_input_items t = 0)); [done|].
    simpl. unfold main_logger. unfold_monad. simpl.
    eexists. split; [reflexivity|]. split; [done|]. simpl.
    eexists _, _. reflexivity.
Qed.

(** Every [update] call returns and increments [processed_input_items]
    by exactly one. *)
Lemma update_run c s :
  total_input_items (tracker s) ≠ 0 →
  ∃ s',
    update clock c s = (Ret (), s')
    ∧ processed_input_items (tracker s') = processed_input_items (tracker s) + 1
    ∧ total_input_items (tracker s') = total_input_items (tracker s).
Proof.
  intros Htot. destruct s as [t lg k].
  destruct (count_signal_processed c t) as [Hp Ht].
  unfold update, set_tracker, time_time. unfold_monad. simpl in *.
  match goal with |- context [if ?b then _ else _] => destruct b end.
  - destruct (log_progress_run (mkSup (count_signal c t) lg (S k)))
      as (s1 & E1 & Htr & _); [simpl; lia|].
    rewrite E1. eexists. split; [reflexivity|]. simpl. rewrite Htr. simpl. done.
  - eexists. split; [reflexivity|]. done.
Qed.

Lemma quiet_log s r :
  is_summary r = false → quiet s →
  quiet (mkSup (tracker s) (main_log s ++ [r]) (ticks s)).
Proof.
  intros Hr [H0 Hq]. split; [done|]. simpl. intros Hz.
  apply Forall_app. split; [by apply Hq|]. by constructor.
Qed.

Lemma quiet_processed s :
  0 < processed_input_items (tracker s) → quiet s.
Proof. intros H. split; [lia|]. intros Hz. lia. Qed.

Lemma liveness_check_run dead s :
  ∃ s',
    liveness_check dead s = (Ret (), s')
    ∧ tracker s' = tracker s
    ∧ (quiet s → quiet s').
Proof.
  unfold liveness_check.
  revert s. induction dead as [|d dead IH]; intros s; simpl.
  - eexists. split; [reflexivity|]. done.
  - unfold main_logger at 1. unfold_monad. simpl.
    edestruct IH as (s' & -> & Htr & Hq). eexists. split; [reflexivity|].
    split; [done|]. intros Hqs. apply Hq. by apply (quiet_log s).
Qed.

Lemma for_each_info {B} (l : list B) text s :
  ∃ s',
    for_each l (λ _, info text) s = (Ret (), s')
    ∧ tracker s' = tracker s
    ∧ (quiet s → quiet s').
Proof.
  revert s. induction l as [|x l IH]; intros s; simpl.
  - eexists. split; [reflexivity|]. done.
  - unfold info at 1. unfold main_logger at 1. unfold_monad. simpl.
    edestruct IH as (s' & -> & Htr & Hq). eexists. split; [reflexivity|].
    split; [done|]. intros Hqs. apply Hq. by apply (quiet_log s).
Qed.

(** The monitor loop never raises while the total is not zero, and logs
    no summary before an item was processed. *)
Lemma monitor_returns nprocs completed polls s :
  total_input_items (tracker s) ≠ 0 →
  quiet s →
  ∃ exit s',
    monitor clock nprocs completed polls s = (Ret exit, s')
    ∧ total_input_items (tracker s') = total_input_items (tracker s)
    ∧ exit ≠ Aborted
    ∧ quiet s'.
Proof.
  revert completed s. induction polls as [|p polls IH]; intros completed s Htot Hq.
  - simpl. case_bool_decide; eexists _, _; (split; [reflexivity|done]).
  - simpl. case_bool_decide; [|eexists _, _; (split; [reflexivity|done])].
    destruct (poll_get p) as [|[c|]|].
    + unfold_monad.
      destruct (liveness_check_run (poll_dead p) s) as (s1 & -> & Htr & Hq1).
      destruct (IH completed s1) as (exit & s' & -> & Ht' & Hex & Hq');
        [by rewrite Htr|by apply Hq1|].
      eexists _, _. split; [reflexivity|]. by rewrite Ht', Htr.
    + unfold_monad.
      destruct (update_run c s Htot) as (s1 & -> & Hp1 & Ht1).
      destruct (liveness_check_run (poll_dead p) s1) as (s2 & -> & Htr & Hq2).
      destruct (IH completed s2) as (exit & s' & -> & Ht' & Hex & Hq').
      * by rewrite Htr, Ht1.
      * apply Hq2, quiet_processed. destruct Hq as [H0 _]. lia.
      * eexists _, _. split; [reflexivity|]. by rewrite Ht', Htr, Ht1.
    + unfold info, update_process_completion, main_logger. unfold_monad.
      match goal with |- context [liveness_check ?d ?s0] =>
        destruct (liveness_check_run d s0) as (s2 & -> & Htr & Hq2) end.
      destruct (IH (S completed) s2) as (exit & s' & -> & Ht' & Hex & Hq').
      * by rewrite Htr.
      * apply Hq2. by apply (quiet_log s).
      * eexists _, _. split; [reflexivity|]. by rewrite Ht', Htr.
    + unfold main_logger. unfold_monad. eexists _, _. split; [reflexivity|].
      split; [done|]. split; [done|]. by apply (quiet_log s).
Qed.

Lemma pending_app (a b : list (list Signal)) :
  pending (a ++ b) = (pending a + pending b)%nat.
Proof. induction a as [|[|x tr] a IH]; simpl; lia. Qed.

Lemma outstanding_app (a b : list (list Signal)) :
  outstanding (a ++ b) = (outstanding a + outstanding b)%nat.
Proof. induction a as [|tr a IH]; simpl; lia. Qed.

Lemma all_empty_measures (traces : list (list Signal)) :
  Forall (λ tr, tr = []) traces → pending traces = 0%nat ∧ outstanding traces = 0%nat.
Proof. induction 1 as [|tr ts -> _ [IH1 IH2]]; simpl; done. Qed.

Lemma pending_zero (traces : list (list Signal)) :
  pending traces = 0%nat → outstanding traces = 0%nat.
Proof.
  induction traces as [|[|x tr] ts IH]; simpl; [done| |done].
  intros H. by apply IH.
Qed.

(** Once every worker's ['DONE'] is among the delivered signals of an
    interleaving, every integer signal has been delivered and applied:
    the loop ends having counted them all. *)
Lemma monitor_interleave polls :
  ∀ traces nprocs completed s,
    Interleave traces (delivered polls) →
    Forall (λ tr, tail_of_worker tr = true) traces →
    (completed + pending traces)%nat = nprocs →
    Forall (λ p, interrupted p = false) polls →
    total_input_items (tracker s) ≠ 0 →
    ∃ s',
      monitor clock nprocs completed polls s = (Ret Finished, s')
      ∧ processed_input_items (tracker s')
        = processed_input_items (tracker s) + Z.of_nat (outstanding traces)
      ∧ total_input_items (tracker s') = total_input_items (tracker s).
Proof.
  induction polls as [|p polls IH];
    intros traces nprocs completed s Hil Htail Hpend Hint Htot.
  - inversion Hil as [? Hall|]; subst.
    destruct (all_empty_measures _ Hall) as [Hp Ho].
    simpl. rewrite bool_decide_eq_false_2 by lia.
    eexists. split; [reflexivity|]. rewrite Ho. split; [lia|done].
  - simpl. case_bool_decide as Hguard; cycle 1.
    { assert (pending traces = 0%nat) as Hp by lia.
      rewrite (pending_zero _ Hp).
      eexists. split; [reflexivity|]. split; [lia|done]. }
    inversion Hint as [|? ? Hp Hint']; subst.
    unfold interrupted in Hp. unfold delivered in Hil. simpl in Hil.
    destruct (poll_get p) as [|[c|]|] eqn:Eget; [| | |done].
    + unfold_monad.
      destruct (liveness_check_run (poll_dead p) s) as (s1 & -> & Htr & _).
      destruct (IH traces (completed + pending traces)%nat completed s1)
        as (s' & -> & Hp' & Ht'); try done; [by rewrite Htr|].
      eexists. split; [reflexivity|]. by rewrite Hp', Ht', Htr.
    + inversion Hil as [|pre x xs post out Hil']; subst.
      apply Forall_app in Htail as [Hpre Hpost].
      inversion Hpost as [|? ? Hx Hpost']; subst.
      simpl in Hx. destruct xs as [|x' xs']; [done|].
      unfold_monad.
      destruct (update_run c s Htot) as (s1 & -> & Hp1 & Ht1).
      destruct (liveness_check_run (poll_dead p) s1) as (s2 & -> & Htr & _).
      destruct (IH (pre ++ (x' :: xs') :: post)
                  (completed + pending (pre ++ (Count c :: x' :: xs') :: post))%nat
                  completed s2)
        as (s' & -> & Hp' & Ht'); try done.
      * apply Forall_app. split; [done|]. by constructor.
      * rewrite !pending_app. simpl. done.
      * by rewrite Htr, Ht1.
      * eexists. split; [reflexivity|]. rewrite Hp', Ht', Htr, Hp1, Ht1.
        split; [|done]. rewrite !outstanding_app. simpl. lia.
    + inversion Hil as [|pre x xs post out Hil']; subst.
      apply Forall_app in Htail as [Hpre Hpost].
      inversion Hpost as [|? ? Hx Hpost']; subst.
      simpl in Hx. destruct xs as [|x' xs']; [|done].
      unfold info, update_process_completion, main_logger. unfold_monad.
      match goal with |- context [liveness_check ?d ?s0] =>
        destruct (liveness_check_run d s0) as (s2 & -> & Htr & _) end.
      destruct (IH (pre ++ [] :: post)
                  (completed + pending (pre ++ [Done] :: post))%nat
                  (S completed) s2)
        as (s' & -> & Hp' & Ht'); try done.
      * apply Forall_app. split; [done|]. by constructor.
      * rewrite !pending_app. simpl. lia.
      * by rewrite Htr.
      * eexists. split; [reflexivity|]. rewrite Hp', Ht', Htr. simpl.
        split; [|done]. rewrite !outstanding_app. simpl. lia.
Qed.

(** The [try] block of the run, once the batches are cut: it returns
    what the monitor loop returns, and unless the loop is still waiting
    it ends with the final call of [_log_progress]. *)
Lemma join_all_run (l : list nat) (joins : nat → JoinOutcome) s :
  ∃ s',
    for_each l (λ i, join_process (joins i)) s = (Ret (), s')
    ∧ tracker s' = tracker s
    ∧ (quiet s → quiet s').
Proof.
  revert s. induction l as [|i l IH]; intros s; simpl.
  - eexists. split; [reflexivity|]. done.
  - unfold join_process at 1. unfold main_logger. unfold_monad.
    destruct (joins i); simpl.
    + apply IH.
    + edestruct IH as (s' & -> & Htr & Hq). eexists. split; [reflexivity|].
      split; [done|]. intros Hqs. apply Hq. by apply (quiet_log s).
    + edestruct IH as (s' & -> & Htr & Hq). eexists. split; [reflexivity|].
      split; [done|]. intros Hqs. apply Hq.
      apply (quiet_log (mkSup _ _ _) (Log ERROR _) eq_refl).
      by apply (quiet_log s).
Qed.

(** The [try] block of the run, once the batches are cut: it returns
    what the monitor loop returns, and unless the loop is still waiting
    it ends with the final call of [_log_progress]. *)
Lemma run_body_run (items : list Item) n batches polls joins s :
  Partitioner.split_items_into_batches items n = Ret batches →
  total_input_items (tracker s) ≠ 0 →
  quiet s →
  ∃ exit s0 s1 s',
    tracker s0 = tracker s
    ∧ monitor clock (length batches) 0 polls s0 = (Ret exit, s1)
    ∧ run_body clock items n polls joins s = (Ret exit, s')
    ∧ exit ≠ Aborted
    ∧ tracker s' = tracker s1
    ∧ total_input_items (tracker s') = total_input_items (tracker s)
    ∧ (exit ≠ Starved →
       if processed_input_items (tracker s') =? 0
       then Forall (λ r, is_summary r = false) (main_log s')
       else ∃ log pct eta,
           main_log s'
           = log ++ [ProgressSummary (processed_input_items (tracker s'))
                       (total_input_items (tracker s')) pct
                       (total_output_items (tracker s'))
                       (failed_items (tracker s')) eta]).
Proof.
  intros Hsplit Htot Hq.
  unfold run_body. unfold info at 1 2 3. unfold main_logger. unfold_monad.
  rewrite Hsplit. simpl.
  match goal with |- context [for_each batches ?f ?s0] =>
    destruct (for_each_info batches "Started process" s0) as (s0' & E0 & Htr0 & Hq0)
  end.
  rewrite E0. simpl in Htr0.
  destruct (monitor_returns (length batches) 0 polls s0')
    as (exit & s1 & E1 & Ht1 & Hex & Hq1).
  { by rewrite Htr0. }
  { apply Hq0.
    apply (quiet_log (mkSup _ _ _) (Log INFO _) eq_refl).
    apply (quiet_log (mkSup _ _ _) (Log INFO _) eq_refl).
    apply (quiet_log s (Log INFO _) eq_refl). done. }
  rewrite E1.
  destruct (join_all_run (seq 0 (length batches)) joins s1)
    as (sj & Ej & Htrj & Hqj).
  assert (total_input_items (tracker sj) ≠ 0) as Htotj
    by (by rewrite Htrj, Ht1, Htr0).
  set (s2 := mkSup (tracker sj) (main_log sj ++ [Log INFO "All processes completed"])
               (ticks sj)).
  destruct (log_progress_run s2 Htotj) as (s' & E2 & Htr2 & Hlog).
  assert (tracker s' = tracker s1
          ∧ total_input_items (tracker s') = total_input_items (tracker s)
          ∧ (if processed_input_items (tracker s') =? 0
             then Forall (λ r, is_summary r = false) (main_log s')
             else ∃ log pct eta,
                 main_log s'
                 = log ++ [ProgressSummary (processed_input_items (tracker s'))
                             (total_input_items (tracker s')) pct
                             (total_output_items (tracker s'))
                             (failed_items (tracker s')) eta])) as (Ha & Hb & Hc).
  { split_and!.
    - rewrite Htr2. simpl. done.
    - rewrite Htr2. simpl. by rewrite Htrj, Ht1, Htr0.
    - rewrite Htr2. simpl in *.
      destruct (processed_input_items (tracker sj) =? 0) eqn:Ez.
      + rewrite Hlog. apply Forall_app. split; [|by constructor].
        apply (Hqj Hq1). lia.
      + destruct Hlog as (pct & eta & ->). eauto. }
  destruct exit; [| |
    exists Starved, s0', s1, s1; split_and!; try done; by rewrite Ht1, Htr0 |done].
  - exists Finished, s0', s1, s'. rewrite Ej. unfold info, main_logger. unfold_monad.
    fold s2. rewrite E2. done.
  - exists Interrupted, s0', s1, s'. rewrite Ej. unfold info, main_logger. unfold_monad.
    fold s2. rewrite E2. done.
Qed.

Lemma filter_items_nil file key :
  ResumeFilter._filter_items_for_resume file key [] = [].
Proof.
  unfold ResumeFilter._filter_items_for_resume. by case_bool_decide.
Qed.

Lemma init_quiet total : quiet (__init__ clock total).
Proof. split; simpl; [lia|]. intros _. constructor. Qed.


End SupervisorFacts.



(** ** Convergence of the processed count *)

Section ConvergenceFacts.
Import Worker ProgressTracker Supervisor.
Context {World : Type}.
Variable _init_driver : World → Outcome bool * World.
Variable has_driver : World → bool.
Variable _process_single_item : Item → World → Outcome (list ResultRecord) * World.
Variable driver_quit : World → Outcome unit * World.
Variable progress_tracking_key : string.
Variable clock : nat → Q.

Local Abbreviation progress_trace :=
  (progress_trace _init_driver has_driver _process_single_item driver_quit
     progress_tracking_key).
Local Abbreviation batch_signals :=
  (batch_signals _init_driver _process_single_item progress_tracking_key).

Lemma tail_of_counts_done (l : list Signal) :
  forallb is_count l = true → tail_of_worker (l ++ [Done]) = true.
Proof.
  induction l as [|[c|] l IH]; simpl; [done| |done].
  intros H. rewrite (IH H). destruct l; done.
Qed.

Lemma filter_counts_done (l : list Signal) :
  forallb is_count l = true →
  length (List.filter is_count (l ++ [Done])) = length l.
Proof.
  induction l as [|[c|] l IH]; simpl; [done| |done].
  intros H. by rewrite (IH H).
Qed.

(** The traces of the workers of a run: every batch gives integers and
    then ['DONE']; no worker is finished before it starts; the integers
    are as many as the items. *)
Lemma traces_measures (batches : list (list Item)) (worlds : list World) :
  length worlds = length batches →
  let traces := zip_with progress_trace batches worlds in
  Forall (λ tr, tail_of_worker tr = true) traces
  ∧ pending traces = length batches
  ∧ outstanding traces = length (concat batches).
Proof.
  revert worlds. induction batches as [|b batches IH]; intros [|w worlds] Hl;
    simpl in *; try done.
  destruct (IH worlds) as (IH1 & IH2 & IH3); [lia|].
  rewrite progress_trace_shape.
  pose proof (batch_signals_counts _init_driver _process_single_item
                progress_tracking_key b w) as Hc.
  pose proof (batch_signals_length _init_driver _process_single_item
                progress_tracking_key b w) as Hlen.
  split_and!.
  - constructor; [|done]. by apply tail_of_counts_done.
  - destruct (batch_signals b w); simpl; by rewrite IH2.
  - rewrite filter_counts_done by done. rewrite Hlen, IH3, length_app. done.
Qed.

(** C5. Cut the filtered input into batches, give each batch to a worker
    in any world, and let the progress queue deliver any interleaving of
    what the workers put. If the supervisor is not interrupted, its
    monitor loop ends on the last ['DONE'] with every integer signal
    applied, and [processed_input_items] equals the number of filtered
    input items, whatever the outcome of each item. Each worker's puts
    are one integer per item of its batch and then ['DONE'], and every
    [update] adds exactly one to the count. *)
Theorem processed_converges (items : list Item) n batches
    (worlds : list World) polls joins :
  Partitioner.split_items_into_batches items n = Ret batches →
  length worlds = length batches →
  Interleave (zip_with progress_trace batches worlds) (delivered polls) →
  Forall (λ p, interrupted p = false) polls →
  (∃ s',
     run_body clock items n polls joins (__init__ clock (Z.of_nat (length items)))
     = (Ret Finished, s')
     ∧ processed_input_items (tracker s') = Z.of_nat (length items))
  ∧ Forall2 (λ b tr, ∃ ints, tr = ints ++ [Done]
                             ∧ length ints = length b
                             ∧ forallb is_count ints = true)
      batches (zip_with progress_trace batches worlds)
  ∧ (∀ c t, processed_input_items (count_signal c t)
            = processed_input_items t + 1).
Proof.
  intros Hsplit Hlen Hil Hint.
  pose proof (Partitioner_concat := split_items_into_batches_concat _ _ _ Hsplit).
  destruct (traces_measures batches worlds Hlen) as (Htail & Hpend & Hout).
  split_and!.
  - destruct items as [|i items'] eqn:Ei.
    + (* nothing to do: no batch, no worker, the loop ends at once *)
      assert (batches = []) as -> by (by inversion Hsplit).
      unfold run_body, info, main_logger. unfold_monad. simpl.
      destruct polls; simpl; eexists; (split; [reflexivity|done]).
    + rewrite <- Ei in *.
      destruct (run_body_run clock items n batches polls joins
                  (__init__ clock (Z.of_nat (length items))) Hsplit)
        as (exit & s0 & s1 & s' & Htr0 & Emon & Erun & _ & Htr' & _).
      { simpl. rewrite Ei. simpl. lia. }
      { apply init_quiet. }
      destruct (monitor_interleave clock polls
                  (zip_with progress_trace batches worlds)
                  (length batches) 0 s0 Hil Htail)
        as (s1' & Emon' & Hproc & _); [by rewrite Hpend|done| |].
      { rewrite Htr0. simpl. rewrite Ei. simpl. lia. }
      rewrite Emon in Emon'. injection Emon' as -> ->.
      exists s'. split; [done|].
      rewrite Htr', Hproc, Htr0, Hout, Partitioner_concat. simpl. lia.
  - clear Hil Hsplit Partitioner_concat Htail Hpend Hout.
    revert worlds Hlen. induction batches as [|b batches IH];
      intros [|w worlds] Hl; simpl in *; try done.
    constructor; [|apply IH; lia].
    exists (batch_signals b w). split; [apply progress_trace_shape|].
    split; [apply batch_signals_length|apply batch_signals_counts].
  - intros c t. apply count_signal_processed.
Qed.

End ConvergenceFacts.

Lemma processed_converges_witness :
  ∃ s',
    Supervisor.run_body Scenario.still [Scenario.a; Scenario.b; Scenario.c] 2
      Scenario.polls_abc (λ _, Supervisor.Joined)
      (ProgressTracker.__init__ Scenario.still 3)
    = (Ret Supervisor.Finished, s')
    ∧ ProgressTracker.processed_input_items (ProgressTracker.tracker s') = 3.
Proof.
  refine (proj1 (processed_converges Scenario.init_ok Scenario.driver_up
                   Scenario.agent Scenario.quit_ok "k" Scenario.still
                   [Scenario.a; Scenario.b; Scenario.c] 2
                   [[Scenario.a]; [Scenario.b; Scenario.c]] [0%nat; 0%nat]
                   Scenario.polls_abc (λ _, Supervisor.Joined) _ _ _ _)).
  - reflexivity.
  - reflexivity.
  - change (Supervisor.Interleave
              [[Count 1; Done]; [Count (-1); Count 0; Done]]
              [Count (-1); Count 1; Done; Count 0; Done]).
    apply (Supervisor.interleave_next [[Count 1; Done]] (Count (-1)) [Count 0; Done] []).
    apply (Supervisor.interleave_next [] (Count 1) [Done] [[Count 0; Done]]).
    apply (Supervisor.interleave_next [] Done [] [[Count 0; Done]]).
    apply (Supervisor.interleave_next [[]] (Count 0) [Done] []).
    apply (Supervisor.interleave_next [[]] Done [] []).
    apply Supervisor.interleave_done. repeat constructor.
  - repeat constructor.
Defined.

Example run_abc :
  ∃ final,
    Supervisor.run_multiprocess_scraper Scenario.still ResumeFilter.Missing "k"
      [Scenario.a; Scenario.b; Scenario.c] 2 Scenario.polls_abc
      (λ _, Supervisor.Joined)
    = Supervisor.Ran (Ret Supervisor.Finished) final
    ∧ ProgressTracker.processed_input_items (ProgressTracker.tracker final) = 3
    ∧ ProgressTracker.failed_items (ProgressTracker.tracker final) = 1
    ∧ ProgressTracker.total_output_items (ProgressTracker.tracker final) = 1.
Proof. eexists. split; [vm_compute; reflexivity|]. done. Qed.

(** ** OutputSink and OutputWriter *)

Section OutputFacts.
Import OutputManager OutputWriterProcess.

Implicit Types (s : Sink) (env : SinkEnv) (result : ResultRecord).

(** One call of [append_single_result] returns normally whatever the
    operating system does. Either the record is appended to the output
    file; or the call failed, the output file has gained what the failed
    write left behind, and the handler has written the backup file, or
    tried to. *)
Lemma append_single_result_run env result s :
  ∃ s',
    append_single_result env result s = (Ret (), s')
    ∧ ((∃ f, fails_at env = None
             ∧ output_file s = Some f
             ∧ output_file s'
               = Some (f ++ csv_lines result
                              (bool_decide (f = []) || negb (headers_written s)))
             ∧ headers_written s' = true
             ∧ backup_files s' = backup_files s)
       ∨ ((fails_at env ≠ None ∨ output_file s = None)
          ∧ output_file s' = (λ f, f ++ left_behind env result s) <$> output_file s
          ∧ headers_written s'
            = (if bool_decide (fails_at env = Some OpClose)
               then bool_decide (is_Some (output_file s)) || headers_written s
               else headers_written s)
          ∧ backup_fails env = false
          ∧ backup_files s'
            = write_file (now env) (csv_lines result true) (backup_files s))
       ∨ ((fails_at env ≠ None ∨ output_file s = None)
          ∧ output_file s' = (λ f, f ++ left_behind env result s) <$> output_file s
          ∧ headers_written s'
            = (if bool_decide (fails_at env = Some OpClose)
               then bool_decide (is_Some (output_file s)) || headers_written s
               else headers_written s)
          ∧ backup_fails env = true
          ∧ backup_files s'
            = match backup_reached env with
              | None => backup_files s
              | Some k =>
                  write_file (now env) (take k (csv_lines result true))
                    (backup_files s)
              end)).
Proof.
  destruct s as [file hw backups lg].
  destruct env as [fault k second bf br].
  unfold append_single_result, stat_is_empty, open_append, to_csv, arrived,
    set_headers_written, backup_to_csv, os_call, log, left_behind.
  unfold_monad. simpl.
  destruct fault as [[| | | |]|]; destruct file as [f|]; destruct bf;
    destruct br as [kb|]; simpl;
    repeat (case_bool_decide; try done); simpl;
    unfold try_except; unfold_monad; simpl;
    (eexists; split; [reflexivity|]); simpl;
    rewrite ?app_nil_r;
    first [ left; exists f;
            rewrite ?bool_decide_eq_true_2, ?bool_decide_eq_false_2 by done;
            done
          | right; left; split_and!; [by (left + right)|done..]
          | right; right; split_and!; [by (left + right)|done..] ].
Qed.

Lemma header_count_app (f g : list Line) :
  header_count (f ++ g) = (header_count f + header_count g)%nat.
Proof. unfold header_count. by rewrite List.filter_app, length_app. Qed.

Lemma header_count_csv_lines result (h : bool) :
  header_count (csv_lines result h) = if h then 1%nat else 0%nat.
Proof. by destruct h. Qed.

(** A call whose write and close do not fail keeps the header invariant:
    a failure at [stat], [open] or the lock leaves the file alone. *)
Lemma append_single_result_header_once env result s :
  fails_at env ≠ Some OpWrite → fails_at env ≠ Some OpClose →
  header_once s → header_once (append_single_result env result s).2.
Proof.
  intros Hw Hc (f & Hf & Hinv).
  assert (left_behind env result s = []) as Hleft.
  { unfold left_behind. by destruct (fails_at env) as [[| | | |]|]. }
  destruct (append_single_result_run env result s)
    as (s' & -> & [(f0 & _ & Hf0 & Hf' & Hhw & _)
                  |[(_ & Hf' & Hhw & _)|(_ & Hf' & Hhw & _)]]);
    simpl.
  - rewrite Hf in Hf0. injection Hf0 as <-.
    exists (f ++ csv_lines result (bool_decide (f = []) || negb (headers_written s))).
    split; [done|]. rewrite Hhw, header_count_app, header_count_csv_lines.
    destruct (headers_written s).
    + rewrite bool_decide_eq_false_2; [simpl; lia|].
      intros ->. by vm_compute in Hinv.
    + subst f. done.
  - exists f. rewrite Hf', Hhw, Hf, Hleft, bool_decide_eq_false_2 by done.
    simpl. by rewrite app_nil_r.
  - exists f. rewrite Hf', Hhw, Hf, Hleft, bool_decide_eq_false_2 by done.
    simpl. by rewrite app_nil_r.
Qed.

(** X5. An instance created on a missing or empty file keeps the header
    invariant through any sequence of calls in which no write and no
    close fails, failures at [stat], [open] and the lock included: the
    file stays empty until the instance has written, and holds exactly
    one header row from then on. *)
Lemma fresh_instance_header_once calls file lg :
  file = None ∨ file = Some [] →
  Forall (λ c : SinkEnv * ResultRecord,
            fails_at c.1 ≠ Some OpWrite ∧ fails_at c.1 ≠ Some OpClose) calls →
  header_once (append_all calls (__init__ file lg)).2.
Proof.
  intros Hfile.
  assert (header_once (__init__ file lg)) as Hinit.
  { exists []. by destruct Hfile as [-> | ->]. }
  revert Hinit. generalize (__init__ file lg). unfold append_all.
  induction calls as [|[env result] calls IH]; intros s Hs Hall; simpl; [done|].
  inversion Hall as [|? ? [Hw Hc] Hall']; subst. simpl in Hw, Hc.
  unfold_monad. simpl.
  pose proof (append_single_result_header_once env result s Hw Hc Hs) as Hs'.
  destruct (append_single_result_run env result s) as (s' & E & _).
  rewrite E in Hs' |- *. simpl in *. by apply IH.
Qed.

(** C7, on the code. An [OutputManager] created for a resumed run, on a
    file that already holds a header and a row, starts with
    [headers_written = False]; its first successful
    [append_single_result] writes the header again, so the file then
    holds two header rows. *)
Theorem resumed_instance_repeats_header :
  ∃ s',
    append_single_result Scenario.no_fault Scenario.row_b
      (__init__ (Some Scenario.earlier_file) [])
    = (Ret (), s')
    ∧ output_file s'
      = Some (csv_lines Scenario.row_a true ++ csv_lines Scenario.row_b true)
    ∧ header_count (csv_lines Scenario.row_a true ++ csv_lines Scenario.row_b true)
      = 2%nat.
Proof. eexists. split; [vm_compute; reflexivity|]. split; reflexivity. Qed.

(** The writer's loop never raises and counts every record it receives
    before the shutdown sentinel, whatever the sink does with it. *)
Lemma run_loop_run gets_ (m : Sink) (n : Z) :
  ∃ exit m',
    run_loop gets_ (mkWriter m false n)
    = (Ret exit, mkWriter m' false (n + records_before_stop gets_)).
Proof.
  revert m n. induction gets_ as [|[g env] gets_ IH]; intros m n; simpl.
  - eexists _, _. unfold_monad. by rewrite Z.add_0_r.
  - unfold_monad. simpl. destruct g as [|[result|]].
    + apply IH.
    + unfold write_result, with_manager, logger, with_manager, log.
      unfold_monad. simpl.
      destruct (append_single_result_run env result m) as (m1 & -> & _).
      simpl. case_bool_decide; simpl.
      * edestruct IH as (exit & m' & ->). eexists _, _.
        by rewrite Z.add_assoc.
      * edestruct IH as (exit & m' & ->). eexists _, _.
        by rewrite Z.add_assoc.
    + eexists _, _. by rewrite Z.add_0_r.
Qed.

(** C10. [append_single_result] returns normally for every record and
    every behaviour of the operating system: the append succeeds, or it
    fails and the backup file is written, or both fail. A failed append
    leaves in the output file what reached it before the failure, which
    is nothing when the failure came before the write; a backup written
    replaces any backup file named by the same second. The output
    writer's loop therefore never ends on a sink error: it returns
    normally and has counted every record received before the shutdown
    sentinel. *)
Theorem append_single_result_never_raises :
  (∀ env result s,
     ∃ s',
       append_single_result env result s = (Ret (), s')
       ∧ ((fails_at env = None ∧ is_Some (output_file s)
           ∧ headers_written s' = true
           ∧ backup_files s' = backup_files s)
          ∨ (output_file s' = (λ f, f ++ left_behind env result s) <$> output_file s
             ∧ backup_fails env = false
             ∧ backup_files s'
               = write_file (now env) (csv_lines result true) (backup_files s))
          ∨ (output_file s' = (λ f, f ++ left_behind env result s) <$> output_file s
             ∧ backup_fails env = true
             ∧ backup_files s'
               = match backup_reached env with
                 | None => backup_files s
                 | Some k =>
                     write_file (now env) (take k (csv_lines result true))
                       (backup_files s)
                 end))
       ∧ (fails_at env ∈ [Some OpStat; Some OpOpen; Some OpLock] →
          output_file s' = output_file s))
  ∧ (∀ gets_ m n,
       ∃ exit w',
         run gets_ (mkWriter m false n) = (Ret exit, w')
         ∧ items_written w' = n + records_before_stop gets_).
Proof.
  split.
  - intros env result s.
    assert (fails_at env ∈ [Some OpStat; Some OpOpen; Some OpLock] →
            left_behind env result s = []) as Hleft.
    { unfold left_behind. rewrite !elem_of_cons, elem_of_nil.
      destruct (fails_at env) as [[| | | |]|]; try done;
        intros [?|[?|[?|[]]]]; discriminate. }
    destruct (append_single_result_run env result s)
      as (s' & E & [(f & Hnone & Hf & ? & ? & ?)
                   |[(_ & Hf' & _ & ? & ?)|(_ & Hf' & _ & ? & ?)]]);
      exists s'; (split; [done|]); split.
    + left. rewrite Hf. eauto.
    + rewrite Hnone, !elem_of_cons, elem_of_nil.
      intros [?|[?|[?|[]]]]; discriminate.
    + right; left. done.
    + intros Hin. rewrite Hf', (Hleft Hin).
      destruct (output_file s); simpl; by rewrite ?app_nil_r.
    + right; right. done.
    + intros Hin. rewrite Hf', (Hleft Hin).
      destruct (output_file s); simpl; by rewrite ?app_nil_r.
  - intros gets_ m n. unfold run, logger, with_manager, log.
    unfold_monad. simpl.
    edestruct run_loop_run as (exit & m' & ->).
    destruct exit; simpl; eexists _, _; (split; [reflexivity|done]).
Qed.

End OutputFacts.

(** * Further properties *)

(** ** Partitioner: the shape of the batches *)

Section PartitionerShape.
Import Partitioner.
Context {A : Type}.
Implicit Types (items : list A) (batches : list (list A)).

(** The slicing loop written out: slice [k] is
    [items[k*batch_size : (k+1)*batch_size]]. *)
Lemma slice_loop_slices items batch_size :
  (0 < batch_size)%nat →
  slice_loop items batch_size
  = (λ k, take batch_size (drop (k * batch_size) items))
    <$> seq 0 ((length items + batch_size - 1) `div` batch_size)%nat.
Proof.
  intros Hs. unfold slice_loop, range0.
  generalize (le_n ((length items + batch_size - 1) `div` batch_size)%nat).
  generalize ((length items + batch_size - 1) `div` batch_size)%nat at 1 3 4.
  induction n as [|m IH]; intros Hm; [done|].
  rewrite seq_S, !fmap_app, foldl_app, IH by lia. simpl.
  unfold slice_step, slice.
  replace (m * batch_size + batch_size - m * batch_size)%nat with batch_size by lia.
  assert (m * batch_size < length items)%nat as Hlt
    by (apply range0_bound; [done|lia]).
  destruct (take batch_size (drop (m * batch_size) items)) as [|x b] eqn:E; [|done].
  apply (f_equal length) in E. rewrite length_take, length_drop in E.
  simpl in E. lia.
Qed.

(** Every slice but the last is full. *)
Lemma slice_loop_sizes items batch_size i b :
  (0 < batch_size)%nat →
  slice_loop items batch_size !! i = Some b →
  (S i < length (slice_loop items batch_size))%nat →
  length b = batch_size.
Proof.
  intros Hs. rewrite slice_loop_slices by done.
  rewrite length_fmap, length_seq, list_lookup_fmap.
  intros Hb Hi.
  rewrite lookup_seq_lt in Hb by lia. simpl in Hb. injection Hb as <-.
  pose proof (range0_bound (length items) batch_size (S i) Hs Hi).
  rewrite length_take, length_drop. lia.
Qed.

(** The merging loop, for [n >= 1]: it leaves [min (length batches) n]
    batches and touches none but the last of them. *)
Lemma merge_loop_shape fuel batches (n : Z) merged :
  1 ≤ n →
  (length batches ≤ fuel)%nat →
  merge_loop fuel batches n = Ret merged →
  length merged = Nat.min (length batches) (Z.to_nat n)
  ∧ ∀ i, (S i < length merged)%nat → merged !! i = batches !! i.
Proof.
  intros Hn. revert batches. induction fuel as [|fuel IH]; intros batches Hfuel.
  - destruct batches; [|simpl in Hfuel; lia].
    simpl. rewrite andb_false_r. intros [= <-]. simpl. split; [lia|done].
  - simpl.
    destruct (bool_decide (n < Z.of_nat (length batches))
              && bool_decide (1 < length batches)%nat) eqn:G.
    + apply andb_true_iff in G as [G1 G2].
      apply bool_decide_eq_true in G1, G2.
      destruct (two_last batches G2) as (pre & y & x & ->).
      destruct (merge_step pre y x) as [-> ->].
      rewrite length_app in Hfuel, G1 |- *. simpl in Hfuel, G1 |- *.
      intros E. apply IH in E as [Hl Hi]; [|rewrite length_app; simpl; lia].
      rewrite length_app in Hl. simpl in Hl. split; [lia|].
      intros i Hlt. rewrite (Hi i Hlt).
      rewrite !lookup_app_l by lia. done.
    + intros [= <-]. split; [|done].
      apply andb_false_iff in G as [G|G]; apply bool_decide_eq_false in G; lia.
Qed.

Lemma concat_uniform (l : list (list A)) (size : nat) :
  (∀ i b, l !! i = Some b → length b = size) →
  length (concat l) = (length l * size)%nat.
Proof.
  induction l as [|c l IH]; intros H; [done|].
  simpl. rewrite length_app, (H 0%nat c eq_refl), IH; [lia|].
  intros i b Hb. apply (H (S i) b Hb).
Qed.

(** X1. With [n >= 1] and [len] items the function makes [min(n, len)]
    batches: every worker gets one as soon as there are [n] items. All
    batches but the last hold [max(1, len // n)] items, and the last one
    holds the rest. *)
Theorem split_items_into_batches_shape items (n : Z) batches :
  1 ≤ n →
  split_items_into_batches items n = Ret batches →
  let batch_size := Z.to_nat (Z.max 1 (Z.of_nat (length items) `div` n)) in
  length batches = Nat.min (Z.to_nat n) (length items)
  ∧ (∀ i b, batches !! i = Some b → (S i < length batches)%nat →
            length b = batch_size)
  ∧ (∀ b, last batches = Some b →
          length b = (length items - (length batches - 1) * batch_size)%nat).
Proof.
  intros Hn Hsplit.
  pose proof (split_items_into_batches_concat _ _ _ Hsplit) as Hconcat.
  revert Hsplit. unfold split_items_into_batches.
  destruct items as [|a items'] eqn:Ei.
  { intros [= <-]. simpl. split_and!; [lia|done|done]. }
  rewrite <- Ei in *. cbv zeta.
  set (batch_size := Z.to_nat (Z.max 1 (Z.of_nat (length items) `div` n))).
  unfold floordiv.
  destruct (decide (n = 0)) as [?|_]; [lia|].
  assert (0 < batch_size)%nat as Hbs by (unfold batch_size; lia).
  intros E. apply merge_loop_shape in E as [Hl Hi]; [|done|done].
  fold batch_size in Hl, Hi.
  assert (length (slice_loop items batch_size)
          = ((length items + batch_size - 1) `div` batch_size)%nat) as Hm.
  { rewrite slice_loop_slices by done. by rewrite length_fmap, length_seq. }
  assert (length batches = Nat.min (Z.to_nat n) (length items)) as Hlen.
  { rewrite Hl, Hm.
    pose proof (Nat.div_mod_eq (length items + batch_size - 1) batch_size) as Ed.
    pose proof (Nat.mod_upper_bound (length items + batch_size - 1) batch_size
                  ltac:(lia)) as Ud.
    destruct (decide (Z.of_nat (length items) < n)) as [Hlt|Hge].
    - assert (batch_size = 1%nat) as ->.
      { unfold batch_size. rewrite Z.div_small by lia. done. }
      rewrite Nat.div_1_r. lia.
    - assert (Z.of_nat batch_size = Z.of_nat (length items) `div` n) as Hq.
      { unfold batch_size.
        pose proof (Z.div_le_lower_bound (Z.of_nat (length items)) n 1
                      ltac:(lia) ltac:(lia)). lia. }
      pose proof (Z.mul_div_le (Z.of_nat (length items)) n ltac:(lia)) as Hle.
      rewrite <- Hq in Hle.
      assert (Z.to_nat n * batch_size ≤ length items)%nat by nia.
      assert (Z.to_nat n ≤ (length items + batch_size - 1) `div` batch_size)%nat
        by (apply Nat.div_le_lower_bound; lia).
      lia. }
  assert (∀ i b, batches !! i = Some b → (S i < length batches)%nat →
                 length b = batch_size) as Hsizes.
  { intros i b Hb Hlt. rewrite (Hi i Hlt) in Hb.
    apply (slice_loop_sizes items batch_size i b Hbs Hb). lia. }
  split_and!; [done|done|].
  intros b Hb.
  destruct (decide (batches = [])) as [->|Hne]; [done|].
  destruct (exists_last Hne) as (init & b' & ->).
  rewrite last_snoc in Hb. injection Hb as ->.
  rewrite concat_app in Hconcat. simpl in Hconcat. rewrite app_nil_r in Hconcat.
  apply (f_equal length) in Hconcat. rewrite length_app in Hconcat.
  rewrite length_app in Hsizes |- *. simpl in Hsizes |- *.
  assert (length (concat init) = (length init * batch_size)%nat) as Hinit.
  { apply concat_uniform. intros i d Hd.
    pose proof (lookup_lt_Some _ _ _ Hd) as Hlt.
    apply (Hsizes i d); [|lia]. by rewrite lookup_app_l. }
  lia.
Qed.

(** X2. A negative number of processes puts all the items in one batch. *)
Theorem split_items_into_batches_negative items (n : Z) :
  n < 0 → items ≠ [] →
  split_items_into_batches items n = Ret [items].
Proof.
  intros Hn Hne. unfold split_items_into_batches.
  destruct items as [|a items'] eqn:Ei; [done|]. rewrite <- Ei in *.
  unfold floordiv. destruct (decide (n = 0)) as [?|_]; [lia|].
  set (batch_size := Z.to_nat (Z.max 1 (Z.of_nat (length items) `div` n))).
  assert (0 < batch_size)%nat as Hbs by (unfold batch_size; lia).
  destruct (slice_loop_spec items batch_size Hbs) as [Hc Hf].
  destruct (merge_loop_spec (length (slice_loop items batch_size))
              (slice_loop items batch_size) n (le_n _) Hf)
    as (merged & E & Hc' & _ & _ & Hg).
  rewrite E. f_equal.
  destruct merged as [|b [|b' merged]].
  - rewrite Hc in Hc'. simpl in Hc'. by subst items.
  - simpl in Hc'. rewrite app_nil_r in Hc'. by rewrite Hc', Hc.
  - exfalso. apply Hg. simpl. lia.
Qed.

End PartitionerShape.

Lemma split_items_into_batches_shape_witness :
  length [[1; 2]; [3; 4]; [5; 6; 7]]%nat = Nat.min (Z.to_nat 3) 7
  ∧ (∀ i b, [[1; 2]; [3; 4]; [5; 6; 7]]%nat !! i = Some b → (S i < 3)%nat →
            length b = 2%nat)
  ∧ (∀ b, last [[1; 2]; [3; 4]; [5; 6; 7]]%nat = Some b →
          length b = (7 - (3 - 1) * 2)%nat).
Proof.
  apply (split_items_into_batches_shape [1; 2; 3; 4; 5; 6; 7]%nat 3
           [[1; 2]; [3; 4]; [5; 6; 7]]%nat).
  - lia.
  - reflexivity.
Defined.

Lemma split_items_into_batches_negative_witness :
  Partitioner.split_items_into_batches [1; 2; 3]%nat (-2) = Ret [[1; 2; 3]]%nat.
Proof.
  apply (split_items_into_batches_negative [1; 2; 3]%nat (-2)).
  - lia.
  - discriminate.
Defined.

(** ** OutputSink: what a sequence of appends does to the file *)

Section OutputSinkMore.
Import OutputManager OutputWriterProcess Traces.

Implicit Types (s : Sink) (env : SinkEnv) (result : ResultRecord).

Lemma append_all_cons env result calls s :
  append_all ((env, result) :: calls) s
  = append_all calls (append_single_result env result s).2.
Proof.
  unfold append_all. simpl. unfold_monad. simpl.
  destruct (append_single_result_run env result s) as (s' & -> & _). done.
Qed.

Lemma data_lines_csv result (h : bool) :
  length (List.filter is_data (csv_lines result h)) = 1%nat.
Proof. by destruct h. Qed.

Lemma append_all_grows calls s f :
  output_file s = Some f →
  ∃ g, output_file (append_all calls s).2 = Some (f ++ g).
Proof.
  revert s f. induction calls as [|[env result] calls IH]; intros s f Hf.
  - exists []. by rewrite app_nil_r.
  - rewrite append_all_cons.
    destruct (append_single_result_run env result s)
      as (s' & -> & [(f0 & _ & Hf0 & Hf' & _)
                    |[(_ & Hf' & _)|(_ & Hf' & _)]]);
      simpl.
    + rewrite Hf in Hf0. injection Hf0 as <-.
      destruct (IH s' _ Hf') as (g & Hg).
      eexists. rewrite <- app_assoc in Hg. exact Hg.
    + rewrite Hf in Hf'. destruct (IH s' _ Hf') as (g & Hg).
      eexists. rewrite <- app_assoc in Hg. exact Hg.
    + rewrite Hf in Hf'. destruct (IH s' _ Hf') as (g & Hg).
      eexists. rewrite <- app_assoc in Hg. exact Hg.
Qed.

(** X3. The output file is append-only: whatever it held when the
    [OutputManager] was created is still its beginning after any sequence
    of [append_single_result] calls, whatever fails in between. *)
Theorem output_file_append_only calls file lg :
  ∃ g,
    output_file (append_all calls (__init__ file lg)).2
    = Some (default [] file ++ g).
Proof.
  destruct (append_all_grows calls (__init__ file lg) (default [] file))
    as (g & Hg); [by destruct file|].
  by exists g.
Qed.

Lemma elem_of_write_file name content files (file : Z * list Line) :
  file ∈ write_file name content files
  ↔ file = (name, content) ∨ (file ∈ files ∧ file.1 ≠ name).
Proof.
  unfold write_file. rewrite elem_of_app, list_elem_of_filter, list_elem_of_singleton.
  split.
  - intros [[Hne Hin]|Heq]; [by right|by left].
  - intros [Heq|[Hin Hne]]; [by right|by left].
Qed.

Lemma data_line_in_csv_lines result (h : bool) :
  Forall (λ l, l ∈ csv_lines result h) (csv_lines result false).
Proof.
  unfold csv_lines. simpl. constructor; [|done].
  rewrite elem_of_app, list_elem_of_singleton. by right.
Qed.

(** The seconds in the names of the backup files the failing calls write. *)
Local Abbreviation backup_seconds calls :=
  ((λ c : SinkEnv * ResultRecord, now c.1)
     <$> filter (λ c : SinkEnv * ResultRecord, fails_at c.1 ≠ None) calls).

Lemma append_all_places calls s f :
  output_file s = Some f →
  Forall (λ c : SinkEnv * ResultRecord, backup_fails c.1 = false) calls →
  NoDup (backup_seconds calls) →
  ∃ g,
    output_file (append_all calls s).2 = Some (f ++ g)
    ∧ (∀ file, file ∈ backup_files s → file.1 ∉ backup_seconds calls →
               file ∈ backup_files (append_all calls s).2)
    ∧ (∀ env result, (env, result) ∈ calls →
         if decide (fails_at env = None)
         then Forall (λ l, l ∈ f ++ g) (csv_lines result false)
         else (now env, csv_lines result true)
              ∈ backup_files (append_all calls s).2).
Proof.
  revert s f. induction calls as [|[env result] calls IH];
    intros s f Hf Hall Hdup.
  - exists []. rewrite app_nil_r. split; [done|]. split; [done|].
    intros env result Hin. by apply elem_of_nil in Hin.
  - rewrite append_all_cons.
    inversion Hall as [|? ? Hbf Hall']; subst. simpl in Hbf.
    destruct (append_single_result_run env result s)
      as (s' & -> & [(f0 & Hnone & Hf0 & Hf' & _ & Hb)
                    |[(Hfail & Hf' & _ & _ & Hb)|(_ & _ & _ & Hbf' & _)]]);
      simpl; [| |congruence].
    + rewrite Hf in Hf0. injection Hf0 as <-.
      rewrite filter_cons_False in Hdup by (simpl; by rewrite Hnone; intros []).
      destruct (IH s' _ Hf' Hall' Hdup) as (g & Hg & Hkeep & Hplaced).
      rewrite <- app_assoc in Hg.
      eexists. split; [exact Hg|]. split.
      * intros file Hin Hsec. apply Hkeep; [by rewrite Hb|].
        by rewrite filter_cons_False in Hsec
          by (simpl; by rewrite Hnone; intros []).
      * intros env' result' Hin. apply elem_of_cons in Hin as [[= -> ->]|Hin].
        -- rewrite decide_True by done.
           eapply Forall_impl; [apply data_line_in_csv_lines|].
           intros l Hl. rewrite !elem_of_app. right; left. exact Hl.
        -- specialize (Hplaced env' result' Hin).
           by rewrite <- app_assoc in Hplaced.
    + assert (fails_at env ≠ None) as Hfault by (destruct Hfail; congruence).
      rewrite filter_cons_True in Hdup by done. simpl in Hdup.
      apply NoDup_cons in Hdup as [Hfresh Hdup].
      rewrite Hf in Hf'. simpl in Hf'.
      destruct (IH s' _ Hf' Hall' Hdup) as (g & Hg & Hkeep & Hplaced).
      rewrite <- app_assoc in Hg.
      eexists. split; [exact Hg|]. split.
      * intros file Hin Hsec.
        rewrite filter_cons_True in Hsec by done. simpl in Hsec.
        apply not_elem_of_cons in Hsec as [Hne Hsec].
        apply Hkeep; [|done]. rewrite Hb. apply elem_of_write_file. by right.
      * intros env' result' Hin. apply elem_of_cons in Hin as [[= -> ->]|Hin].
        -- rewrite decide_False by done.
           apply Hkeep; [|done]. rewrite Hb. apply elem_of_write_file. by left.
        -- specialize (Hplaced env' result' Hin).
           by rewrite <- app_assoc in Hplaced.
Qed.

(** X4. No record is lost while the backup files can be written and no
    two failures fall within the same second: after any such sequence of
    calls, the row of every record whose append went through is in the
    output file, and every record whose append failed is in the backup
    file named by the second of its failure. *)
Theorem every_record_is_placed calls file lg :
  Forall (λ c : SinkEnv * ResultRecord, backup_fails c.1 = false) calls →
  NoDup (backup_seconds calls) →
  ∃ f,
    output_file (append_all calls (__init__ file lg)).2 = Some f
    ∧ ∀ env result, (env, result) ∈ calls →
        if decide (fails_at env = None)
        then Forall (λ l, l ∈ f) (csv_lines result false)
        else (now env, csv_lines result true)
             ∈ backup_files (append_all calls (__init__ file lg)).2.
Proof.
  intros Hall Hdup.
  destruct (append_all_places calls (__init__ file lg) (default [] file))
    as (g & Hg & _ & Hplaced); [by destruct file|done|done|].
  eexists. split; [exact Hg|]. exact Hplaced.
Qed.

(** X27. Two appends that fail within the same second keep one backup
    only: the backup file is named by the second and opened in write
    mode, so the second failure replaces the first record's backup, and
    the first record is then neither in the output file nor in any
    backup file. *)
Theorem backups_in_one_second_overwrite env1 env2 result1 result2 file lg :
  fails_at env1 ∈ [Some OpStat; Some OpOpen; Some OpLock] →
  fails_at env2 ∈ [Some OpStat; Some OpOpen; Some OpLock] →
  backup_fails env1 = false → backup_fails env2 = false →
  now env1 = now env2 →
  let s' := (append_all [(env1, result1); (env2, result2)] (__init__ file lg)).2 in
  output_file s' = Some (default [] file)
  ∧ backup_files s' = [(now env2, csv_lines result2 true)].
Proof.
  intros H1 H2 Hb1 Hb2 Hnow s'. subst s'.
  destruct env1 as [fault1 k1 second1 bf1 br1].
  destruct env2 as [fault2 k2 second2 bf2 br2].
  simpl in *. subst bf1 bf2 second2.
  rewrite !elem_of_cons, elem_of_nil in H1, H2.
  unfold append_all, for_each, append_single_result, stat_is_empty, open_append,
    to_csv, arrived, set_headers_written, backup_to_csv, os_call, log, __init__,
    write_file.
  unfold_monad. unfold try_except. unfold_monad. simpl.
  destruct H1 as [->|[->|[->|[]]]]; destruct H2 as [->|[->|[->|[]]]];
    destruct file as [f|]; simpl;
    rewrite ?filter_nil; simpl;
    rewrite ?filter_cons_False by (simpl; intros Hne; by apply Hne);
    rewrite ?filter_nil; done.
Qed.

(** X28. A row that fails to be written leaves its header behind: when
    the first write of a fresh instance fails after the header line has
    reached the file, [headers_written] is still unset, and the next
    append writes the header again. The file then holds two header
    rows. *)
Theorem failed_row_leaves_second_header env1 env2 result1 result2 file lg :
  file = None ∨ file = Some [] →
  fails_at env1 = Some OpWrite → reached env1 = 1%nat →
  fails_at env2 = None →
  let s' := (append_all [(env1, result1); (env2, result2)] (__init__ file lg)).2 in
  output_file s'
  = Some (take 1 (csv_lines result1 true) ++ csv_lines result2 true)
  ∧ header_count (take 1 (csv_lines result1 true) ++ csv_lines result2 true)
    = 2%nat.
Proof.
  intros Hfile Hw Hr Hnone s'. subst s'.
  destruct env1 as [fault1 k1 second1 bf1 br1].
  destruct env2 as [fault2 k2 second2 bf2 br2].
  simpl in *. subst fault1 k1 fault2.
  split; [|done].
  unfold append_all, for_each, append_single_result, stat_is_empty, open_append,
    to_csv, arrived, set_headers_written, backup_to_csv, os_call, log, __init__.
  unfold_monad. unfold try_except. unfold_monad. simpl.
  destruct Hfile as [-> | ->]; destruct bf1; destruct br1; simpl; done.
Qed.

End OutputSinkMore.

(** ** OutputWriter: arrival order *)

Section OutputWriterMore.
Import OutputManager OutputWriterProcess Traces.

Lemma append_single_result_no_fault env result f hw backups lg :
  fails_at env = None →
  append_single_result env result (mkSink (Some f) hw backups lg)
  = (Ret (), mkSink (Some (f ++ csv_lines result (bool_decide (f = []) || negb hw)))
               true backups lg).
Proof.
  destruct env as [fault k second bf br]. simpl. intros ->.
  unfold append_single_result, stat_is_empty, open_append, to_csv, arrived,
    set_headers_written, backup_to_csv, os_call, log.
  unfold_monad. simpl. done.
Qed.

Lemma rows_of_snoc done_ r :
  rows_of (done_ ++ [r])
  = rows_of done_
    ++ csv_lines r (bool_decide (rows_of done_ = [])
                    || negb (negb (bool_decide (done_ = [])))).
Proof.
  destruct done_ as [|d ds]; simpl.
  - done.
  - rewrite flat_map_app. simpl. done.
Qed.

(** The loop on a sink that has written [done_] so far and meets no
    failure: it goes on writing in arrival order. *)
Lemma run_loop_in_order gets_ done_ backups lg n :
  Forall (λ g : Get (option ResultRecord) * SinkEnv, fails_at g.2 = None) gets_ →
  ∃ exit lg',
    run_loop gets_
      (mkWriter (mkSink (Some (rows_of done_)) (negb (bool_decide (done_ = [])))
                   backups lg) false n)
    = (Ret exit,
       mkWriter (mkSink (Some (rows_of (done_ ++ received gets_)))
                   (negb (bool_decide (done_ ++ received gets_ = [])))
                   backups lg')
         false (n + records_before_stop gets_)).
Proof.
  revert done_ lg n. induction gets_ as [|[g env] gets_ IH]; intros done_ lg n Hall.
  - simpl. unfold_monad. rewrite app_nil_r, Z.add_0_r. eauto.
  - inversion Hall as [|? ? Henv Hall']; subst. simpl in Henv.
    simpl. unfold_monad. simpl. destruct g as [|[result|]].
    + apply IH. done.
    + unfold write_result, with_manager, logger, with_manager, log.
      unfold_monad. simpl.
      rewrite append_single_result_no_fault by done. simpl.
      rewrite <- rows_of_snoc.
      replace true with (negb (bool_decide (done_ ++ [result] = [])))
        by (rewrite bool_decide_eq_false_2; [done|by destruct done_]).
      case_bool_decide; simpl.
      * edestruct (IH (done_ ++ [result])) as (exit & lg' & ->); [done|].
        rewrite <- !app_assoc, Z.add_assoc. simpl. eauto.
      * edestruct (IH (done_ ++ [result])) as (exit & lg' & ->); [done|].
        rewrite <- !app_assoc, Z.add_assoc. simpl. eauto.
    + rewrite app_nil_r, Z.add_0_r. eauto.
Qed.

(** X6. Started on a missing or empty file and meeting no failure, the output
    writer leaves in the file a header for the first record and then one
    data line per record, in the order the records arrived; records behind
    the shutdown sentinel are not written, and no backup file is made. *)
Theorem writer_writes_in_arrival_order gets_ file lg n :
  file = None ∨ file = Some [] →
  Forall (λ g : Get (option ResultRecord) * SinkEnv, fails_at g.2 = None) gets_ →
  ∃ exit w',
    run gets_ (mkWriter (__init__ file lg) false n) = (Ret exit, w')
    ∧ output_file (output_manager w') = Some (rows_of (received gets_))
    ∧ backup_files (output_manager w') = []
    ∧ items_written w' = n + Z.of_nat (length (received gets_)).
Proof.
  intros Hfile Hall.
  assert (__init__ file lg = mkSink (Some (rows_of [])) (negb (bool_decide (@nil ResultRecord = []))) [] lg) as ->.
  { by destruct Hfile as [-> | ->]. }
  unfold run, logger, with_manager, log. unfold_monad. simpl.
  edestruct (run_loop_in_order gets_ [] []) as (exit & lg' & ->); [done|].
  assert (records_before_stop gets_ = Z.of_nat (length (received gets_))) as ->.
  { clear. induction gets_ as [|[[|[r|]] env] gets_ IH]; simpl; try done.
    rewrite IH. lia. }
  destruct exit; simpl; eexists _, _; (split; [reflexivity|done]).
Qed.

End OutputWriterMore.

Lemma writer_writes_in_arrival_order_witness :
  ∃ exit w',
    OutputWriterProcess.run
      [ (OutputWriterProcess.Got (Some Scenario.row_a), Scenario.no_fault);
        (OutputWriterProcess.GetEmpty, Scenario.no_fault);
        (OutputWriterProcess.Got (Some Scenario.row_b), Scenario.no_fault);
        (OutputWriterProcess.Got None, Scenario.no_fault);
        (OutputWriterProcess.Got (Some Scenario.row_a), Scenario.no_fault) ]
      (OutputWriterProcess.mkWriter (OutputManager.__init__ None []) false 0)
    = (Ret exit, w')
    ∧ OutputManager.output_file (OutputWriterProcess.output_manager w')
      = Some (Traces.rows_of [Scenario.row_a; Scenario.row_b])
    ∧ OutputManager.backup_files (OutputWriterProcess.output_manager w') = []
    ∧ OutputWriterProcess.items_written w' = 0 + 2.
Proof.
  apply (writer_writes_in_arrival_order
           [ (OutputWriterProcess.Got (Some Scenario.row_a), Scenario.no_fault);
             (OutputWriterProcess.GetEmpty, Scenario.no_fault);
             (OutputWriterProcess.Got (Some Scenario.row_b), Scenario.no_fault);
             (OutputWriterProcess.Got None, Scenario.no_fault);
             (OutputWriterProcess.Got (Some Scenario.row_a), Scenario.no_fault) ]
           None [] 0).
  - left. reflexivity.
  - repeat constructor.
Defined.

Lemma every_record_is_placed_witness :
  ∃ f,
    OutputManager.output_file
      (OutputManager.append_all
         [ (Scenario.no_fault, Scenario.row_a); (Cases.write_fails 7, Scenario.row_b) ]
         (OutputManager.__init__ None [])).2
    = Some f
    ∧ ∀ env result,
        (env, result)
        ∈ [ (Scenario.no_fault, Scenario.row_a); (Cases.write_fails 7, Scenario.row_b) ] →
        if decide (OutputManager.fails_at env = None)
        then Forall (λ l, l ∈ f) (OutputManager.csv_lines result false)
        else (OutputManager.now env, OutputManager.csv_lines result true)
             ∈ OutputManager.backup_files
                 (OutputManager.append_all
                    [ (Scenario.no_fault, Scenario.row_a);
                      (Cases.write_fails 7, Scenario.row_b) ]
                    (OutputManager.__init__ None [])).2.
Proof.
  apply (every_record_is_placed
           [ (Scenario.no_fault, Scenario.row_a); (Cases.write_fails 7, Scenario.row_b) ]
           None []).
  - repeat constructor.
  - vm_compute. repeat constructor. intros Hin. inversion Hin.
Defined.

Lemma backups_in_one_second_overwrite_witness :
  let s' :=
    (OutputManager.append_all
       [ (Cases.stat_fails 7, Scenario.row_a); (Cases.stat_fails 7, Scenario.row_b) ]
       (OutputManager.__init__ None [])).2 in
  OutputManager.output_file s' = Some (default [] None)
  ∧ OutputManager.backup_files s'
    = [(OutputManager.now (Cases.stat_fails 7), OutputManager.csv_lines Scenario.row_b true)].
Proof.
  apply (backups_in_one_second_overwrite (Cases.stat_fails 7) (Cases.stat_fails 7)
           Scenario.row_a Scenario.row_b None []).
  - vm_compute. repeat constructor.
  - vm_compute. repeat constructor.
  - reflexivity.
  - reflexivity.
  - reflexivity.
Defined.

Lemma failed_row_leaves_second_header_witness :
  let s' :=
    (OutputManager.append_all
       [ (Cases.write_fails 7, Scenario.row_a); (Scenario.no_fault, Scenario.row_b) ]
       (OutputManager.__init__ None [])).2 in
  OutputManager.output_file s'
  = Some (take 1 (OutputManager.csv_lines Scenario.row_a true)
          ++ OutputManager.csv_lines Scenario.row_b true)
  ∧ OutputManager.header_count
      (take 1 (OutputManager.csv_lines Scenario.row_a true)
       ++ OutputManager.csv_lines Scenario.row_b true)
    = 2%nat.
Proof.
  apply (failed_row_leaves_second_header (Cases.write_fails 7) Scenario.no_fault
           Scenario.row_a Scenario.row_b None []).
  - left. reflexivity.
  - reflexivity.
  - reflexivity.
  - reflexivity.
Defined.

Lemma fresh_instance_header_once_witness :
  OutputManager.header_once
    (OutputManager.append_all
       [ (Scenario.no_fault, Scenario.row_a); (Cases.stat_fails 7, Scenario.row_b);
         (Scenario.no_fault, Scenario.row_b) ]
       (OutputManager.__init__ None [])).2.
Proof.
  apply (fresh_instance_header_once
           [ (Scenario.no_fault, Scenario.row_a); (Cases.stat_fails 7, Scenario.row_b);
             (Scenario.no_fault, Scenario.row_b) ]
           None []).
  - left. reflexivity.
  - repeat constructor; discriminate.
Defined.

(** ** ProgressTracker: counters, ETA and the logging rule *)

Section TrackerMore.
Import ProgressTracker Traces.
Variable clock : nat → Q.

Implicit Types (s : ProgressTracker.Sup) (t : Tracker).

Lemma count_signal_counters c t :
  processed_input_items (count_signal c t) = processed_input_items t + 1
  ∧ failed_items (count_signal c t) = failed_items t + (if c =? -1 then 1 else 0)
  ∧ total_output_items (count_signal c t)
    = total_output_items t + (if c =? -1 then 0 else c)
  ∧ total_input_items (count_signal c t) = total_input_items t
  ∧ start_time (count_signal c t) = start_time t
  ∧ last_update (count_signal c t) = last_update t.
Proof.
  unfold count_signal. destruct (c =? -1) eqn:E1; simpl.
  - split_and!; try done; lia.
  - destruct (c =? 0) eqn:E0; simpl; split_and!; try done; lia.
Qed.

Lemma update_counters c s :
  total_input_items (tracker s) ≠ 0 →
  ∃ s',
    update clock c s = (Ret (), s')
    ∧ processed_input_items (tracker s') = processed_input_items (tracker s) + 1
    ∧ failed_items (tracker s')
      = failed_items (tracker s) + (if c =? -1 then 1 else 0)
    ∧ total_output_items (tracker s')
      = total_output_items (tracker s) + (if c =? -1 then 0 else c)
    ∧ total_input_items (tracker s') = total_input_items (tracker s).
Proof.
  intros Htot. destruct s as [t lg k].
  destruct (count_signal_counters c t) as (Hp & Hf & Ho & Ht & _).
  unfold update, set_tracker, time_time. unfold_monad. simpl in *.
  match goal with |- context [if ?b then _ else _] => destruct b end.
  - destruct (log_progress_run clock (mkSup (count_signal c t) lg (S k)))
      as (s1 & E1 & Htr & _); [simpl; lia|].
    rewrite E1. eexists. split; [reflexivity|]. simpl. rewrite Htr. simpl. done.
  - eexists. split; [reflexivity|]. done.
Qed.

(** X7. After any sequence of [update] calls on a tracker whose total is not
    zero, [processed_input_items] has grown by the number of calls,
    [failed_items] by the number of [-1] among them, and
    [total_output_items] by the sum of the other counts. *)
Theorem updates_accumulate (cs : list Z) s :
  total_input_items (tracker s) ≠ 0 →
  ∃ s',
    for_each cs (update clock) s = (Ret (), s')
    ∧ processed_input_items (tracker s')
      = processed_input_items (tracker s) + Z.of_nat (length cs)
    ∧ failed_items (tracker s') = failed_items (tracker s) + failures (Count <$> cs)
    ∧ total_output_items (tracker s')
      = total_output_items (tracker s) + produced (Count <$> cs)
    ∧ total_input_items (tracker s') = total_input_items (tracker s).
Proof.
  revert s. induction cs as [|c cs IH]; intros s Htot.
  - simpl. unfold_monad. eexists. split; [reflexivity|]. simpl.
    split_and!; try done; lia.
  - destruct (update_counters c s Htot) as (s1 & E1 & Hp & Hf & Ho & Ht).
    destruct (IH s1) as (s' & E' & Hp' & Hf' & Ho' & Ht'); [by rewrite Ht|].
    exists s'. simpl. unfold_monad. rewrite E1, E'.
    split; [done|]. rewrite Hp', Hf', Ho', Ht', Hp, Hf, Ho, Ht.
    split_and!; try done; try lia; symmetry; apply Z.add_assoc.
Qed.

(** X8. A tracker built for zero input items cannot take an update: the
    counters are incremented, and the progress log that follows divides by
    the total and raises [ZeroDivisionError]. *)
Theorem update_zero_total c s :
  total_input_items (tracker s) = 0 →
  0 ≤ processed_input_items (tracker s) →
  ∃ s',
    update clock c s = (Raise ZeroDivisionError, s')
    ∧ processed_input_items (tracker s') = processed_input_items (tracker s) + 1.
Proof.
  intros Htot Hp. destruct s as [t lg k].
  destruct (count_signal_counters c t) as (Hp' & _ & _ & Ht & _).
  unfold update, set_tracker, time_time. unfold_monad. simpl in *.
  rewrite Ht, Htot, Hp'.
  replace (0 <=? processed_input_items t + 1) with true by lia.
  rewrite orb_true_r.
  unfold _log_progress. unfold_monad. simpl.
  rewrite Hp'. replace (processed_input_items t + 1 =? 0) with false by lia.
  unfold truediv. rewrite Ht, Htot. simpl.
  eexists. split; [reflexivity|]. simpl. done.
Qed.

End TrackerMore.

Lemma updates_accumulate_witness :
  ∃ s',
    for_each [2; -1; 0; 3] (ProgressTracker.update Scenario.still)
      (ProgressTracker.__init__ Scenario.still 4)
    = (Ret (), s')
    ∧ ProgressTracker.processed_input_items (ProgressTracker.tracker s') = 0 + 4
    ∧ ProgressTracker.failed_items (ProgressTracker.tracker s') = 0 + 1
    ∧ ProgressTracker.total_output_items (ProgressTracker.tracker s') = 0 + 5
    ∧ ProgressTracker.total_input_items (ProgressTracker.tracker s') = 4.
Proof.
  apply (updates_accumulate Scenario.still [2; -1; 0; 3]
           (ProgressTracker.__init__ Scenario.still 4)).
  simpl. lia.
Defined.

Lemma update_zero_total_witness :
  ∃ s',
    ProgressTracker.update Scenario.still 1 (ProgressTracker.__init__ Scenario.still 0)
    = (Raise ZeroDivisionError, s')
    ∧ ProgressTracker.processed_input_items (ProgressTracker.tracker s') = 0 + 1.
Proof.
  apply (update_zero_total Scenario.still 1 (ProgressTracker.__init__ Scenario.still 0)).
  - reflexivity.
  - simpl. lia.
Defined.

Section TrackerEta.
Import ProgressTracker Traces.
Variable clock : nat → Q.

Implicit Types (s : ProgressTracker.Sup) (t : Tracker).

Lemma eta_not_negative (remaining processed : Z) (elapsed : Q) :
  0 ≤ remaining → 0 < processed → (0 <= elapsed)%Q →
  Qlt_bool (inject_Z remaining * (elapsed / inject_Z processed))%Q 0 = false.
Proof.
  intros Hr Hp He. unfold Qlt_bool.
  apply negb_false_iff, Qle_bool_iff.
  apply Qmult_le_0_compat.
  - change 0%Q with (inject_Z 0). by rewrite <- Zle_Qle.
  - unfold Qdiv. apply Qmult_le_0_compat; [done|].
    apply Qinv_le_0_compat. change 0%Q with (inject_Z 0). rewrite <- Zle_Qle. lia.
Qed.

Lemma log_progress_summary s :
  total_input_items (tracker s) ≠ 0 →
  0 < processed_input_items (tracker s) →
  ∃ s' pct eta,
    _log_progress clock s = (Ret (), s')
    ∧ main_log s'
      = main_log s
        ++ [ProgressSummary (processed_input_items (tracker s))
              (total_input_items (tracker s)) pct
              (total_output_items (tracker s)) (failed_items (tracker s)) eta]
    ∧ eta ≠ EtaCalculating
    ∧ (eta = EtaCompleted
       ↔ total_input_items (tracker s) ≤ processed_input_items (tracker s))
    ∧ ((start_time (tracker s) <= clock (ticks s))%Q → eta ≠ EtaCompleting).
Proof.
  intros Htot Hp. destruct s as [t lg k]. simpl in *.
  unfold _log_progress. unfold_monad. simpl.
  replace (processed_input_items t =? 0) with false by lia.
  unfold truediv. destruct (decide (total_input_items t = 0)); [done|].
  simpl. unfold main_logger. unfold_monad. simpl.
  eexists _, _, _. split; [reflexivity|]. split; [reflexivity|].
  replace (0 <? processed_input_items t) with true by lia. simpl.
  destruct (processed_input_items t <? total_input_items t) eqn:Elt.
  - apply Z.ltb_lt in Elt.
    match goal with |- context [Qlt_bool ?e 0] => destruct (Qlt_bool e 0) eqn:Eq end.
    + split_and!; [done|split; [done|lia]|].
      intros Hclock. exfalso.
      rewrite eta_not_negative in Eq; [done|lia|done|].
      apply -> Qle_minus_iff. done.
    + split_and!; [done|split; [done|lia]|done].
  - apply Z.ltb_ge in Elt.
    replace (total_input_items t <=? processed_input_items t) with true by lia.
    split_and!; [done|split; [lia|done]|done].
Qed.

(** X9. The summary [_log_progress] writes once an item was processed: its ETA
    is "Completed" exactly when the processed count has reached the total,
    it is never "Calculating...", and it is "Completing..." only when the
    clock reads earlier than the start time. *)
Theorem log_progress_eta s :
  total_input_items (tracker s) ≠ 0 →
  0 < processed_input_items (tracker s) →
  ∃ s' pct eta,
    _log_progress clock s = (Ret (), s')
    ∧ main_log s'
      = main_log s
        ++ [ProgressSummary (processed_input_items (tracker s))
              (total_input_items (tracker s)) pct
              (total_output_items (tracker s)) (failed_items (tracker s)) eta]
    ∧ eta ≠ EtaCalculating
    ∧ (eta = EtaCompleted
       ↔ total_input_items (tracker s) ≤ processed_input_items (tracker s))
    ∧ ((start_time (tracker s) <= clock (ticks s))%Q → eta ≠ EtaCompleting).
Proof. intros. eapply log_progress_summary; eauto. Qed.

(** X10. The logging rule of [update], on a tracker whose total is not zero:
    the update that brings the processed count to the total always logs a
    summary with ETA "Completed", whatever the clock reads; an earlier
    update within 10 seconds of the last logged one logs nothing and does
    not move [last_update]. *)
Theorem update_logging_rule c s :
  total_input_items (tracker s) ≠ 0 →
  0 ≤ processed_input_items (tracker s) →
  ∃ s',
    update clock c s = (Ret (), s')
    ∧ (total_input_items (tracker s) ≤ processed_input_items (tracker s) + 1 →
       (∃ pct,
          main_log s'
          = main_log s
            ++ [ProgressSummary (processed_input_items (tracker s'))
                  (total_input_items (tracker s')) pct
                  (total_output_items (tracker s')) (failed_items (tracker s'))
                  EtaCompleted])
       ∧ last_update (tracker s') = clock (ticks s))
    ∧ (processed_input_items (tracker s) + 1 < total_input_items (tracker s) →
       (clock (ticks s) - last_update (tracker s) <= 10)%Q →
       main_log s' = main_log s
       ∧ last_update (tracker s') = last_update (tracker s)).
Proof.
  intros Htot Hp. destruct s as [t lg k].
  destruct (count_signal_counters c t) as (Hp' & _ & _ & Ht & _ & Hlu).
  unfold update, set_tracker, time_time. unfold_monad. simpl in *.
  rewrite Hlu, Ht, Hp'.
  destruct (Qlt_bool 10 (clock k - last_update t)
            || (total_input_items t <=? processed_input_items t + 1)) eqn:Hcond.
  - destruct (log_progress_summary (mkSup (count_signal c t) lg (S k)))
      as (s1 & pct & eta & E1 & Hlog & _ & Hdone & _); [simpl; lia|simpl; lia|].
    rewrite E1. eexists. split; [reflexivity|]. simpl in *.
    assert (tracker s1 = count_signal c t) as Htr.
    { destruct (log_progress_run clock (mkSup (count_signal c t) lg (S k)))
        as (s1' & E1' & Htr & _); [simpl; lia|].
      rewrite E1 in E1'. injection E1' as <-. done. }
    rewrite Htr. simpl. split.
    + intros Hfull. split; [|done].
      exists pct. rewrite Hlog.
      assert (eta = EtaCompleted) as -> by (apply Hdone; lia). done.
    + intros Hless Hrecent. exfalso.
      apply orb_true_iff in Hcond as [Hc|Hc].
      * unfold Qlt_bool in Hc. apply negb_true_iff in Hc.
        apply Qle_bool_iff in Hrecent. congruence.
      * apply Z.leb_le in Hc. lia.
  - eexists. split; [reflexivity|]. simpl.
    apply orb_false_iff in Hcond as [_ Hc]. apply Z.leb_gt in Hc.
    split; [lia|]. intros _ _. rewrite Hlu. done.
Qed.

End TrackerEta.

Lemma log_progress_eta_witness :
  ∃ s' pct eta,
    ProgressTracker._log_progress Scenario.still
      (ProgressTracker.mkSup (ProgressTracker.mkTracker 4 1 2 0 0%Q 0%Q) [] 1)
    = (Ret (), s')
    ∧ ProgressTracker.main_log s' = [] ++ [ProgressSummary 1 4 pct 2 0 eta]
    ∧ eta ≠ EtaCalculating
    ∧ (eta = EtaCompleted ↔ 4 ≤ 1)
    ∧ ((0 <= Scenario.still 1%nat)%Q → eta ≠ EtaCompleting).
Proof.
  apply (log_progress_eta Scenario.still
           (ProgressTracker.mkSup (ProgressTracker.mkTracker 4 1 2 0 0%Q 0%Q) [] 1)).
  - simpl. lia.
  - simpl. lia.
Defined.

Lemma update_logging_rule_witness :
  ∃ s',
    ProgressTracker.update Scenario.still 2
      (ProgressTracker.mkSup (ProgressTracker.mkTracker 2 1 0 0 0%Q 0%Q) [] 1)
    = (Ret (), s')
    ∧ (2 ≤ 1 + 1 →
       (∃ pct,
          ProgressTracker.main_log s'
          = [] ++ [ProgressSummary
                     (ProgressTracker.processed_input_items (ProgressTracker.tracker s'))
                     (ProgressTracker.total_input_items (ProgressTracker.tracker s')) pct
                     (ProgressTracker.total_output_items (ProgressTracker.tracker s'))
                     (ProgressTracker.failed_items (ProgressTracker.tracker s'))
                     EtaCompleted])
       ∧ ProgressTracker.last_update (ProgressTracker.tracker s') = Scenario.still 1%nat)
    ∧ (1 + 1 < 2 →
       (Scenario.still 1%nat - 0 <= 10)%Q →
       ProgressTracker.main_log s' = []
       ∧ ProgressTracker.last_update (ProgressTracker.tracker s') = 0%Q).
Proof.
  apply (update_logging_rule Scenario.still 2
           (ProgressTracker.mkSup (ProgressTracker.mkTracker 2 1 0 0 0%Q 0%Q) [] 1)).
  - simpl. lia.
  - simpl. lia.
Defined.

(** ** Supervisor: when the monitor loop ends, and what it has counted *)

Section SupervisorMore.
Import ProgressTracker Supervisor Traces.
Variable clock : nat → Q.

Implicit Types (s : ProgressTracker.Sup).

(** X11. Without an interrupt the monitor loop ends only on its count of
    ['DONE']: it finishes when the polls deliver one for every worker not
    yet counted, and otherwise it is still waiting when they run out,
    whatever the liveness check found. *)
Theorem monitor_waits_for_every_done nprocs completed polls s :
  total_input_items (tracker s) ≠ 0 →
  Forall (λ p, interrupted p = false) polls →
  (monitor clock nprocs completed polls s).1
  = Ret (if bool_decide (nprocs ≤ completed + dones (delivered polls))%nat
         then Finished else Starved).
Proof.
  revert completed s. induction polls as [|p polls IH];
    intros completed s Htot Hint.
  - simpl. case_bool_decide; simpl.
    + rewrite bool_decide_eq_false_2 by lia. done.
    + rewrite bool_decide_eq_true_2 by lia. done.
  - inversion Hint as [|? ? Hp Hint']; subst.
    simpl. case_bool_decide as Hguard; cycle 1.
    { simpl. rewrite bool_decide_eq_true_2 by lia. done. }
    unfold interrupted in Hp. unfold delivered. simpl.
    destruct (poll_get p) as [|[c|]|] eqn:Eget; [| | |done].
    + unfold_monad.
      destruct (liveness_check_run (poll_dead p) s) as (s1 & -> & Htr & _).
      apply IH; [by rewrite Htr|done].
    + unfold_monad.
      destruct (update_run clock c s Htot) as (s1 & -> & _ & Ht1).
      destruct (liveness_check_run (poll_dead p) s1) as (s2 & -> & Htr & _).
      simpl. apply IH; [by rewrite Htr, Ht1|done].
    + unfold info, update_process_completion, main_logger. unfold_monad.
      match goal with |- context [liveness_check ?d ?s0] =>
        destruct (liveness_check_run d s0) as (s2 & -> & Htr & _) end.
      simpl. rewrite (IH (S completed) s2); [|by rewrite Htr|done].
      f_equal. fold (delivered polls).
      destruct (decide (nprocs ≤ completed + S (dones (delivered polls)))%nat).
      * rewrite !bool_decide_eq_true_2 by lia. done.
      * rewrite !bool_decide_eq_false_2 by lia. done.
Qed.

Lemma delivered_cons p polls :
  delivered (p :: polls)
  = match poll_get p with
    | Deliver x => x :: delivered polls
    | _ => delivered polls
    end.
Proof. unfold delivered. simpl. by destruct (poll_get p). Qed.

Lemma last_done_counts (l : list Signal) :
  last l = Some Done → (0 < dones l)%nat.
Proof.
  induction l as [|x l IH]; [done|].
  destruct l as [|y l].
  - simpl. intros [= ->]. simpl. lia.
  - intros H. specialize (IH H). destruct x; simpl in *; lia.
Qed.

(** What the monitor loop has counted when the polls deliver exactly the
    ['DONE'] it waits for, the last of them at the end. *)
Lemma monitor_totals nprocs completed polls s :
  (completed + dones (delivered polls))%nat = nprocs →
  delivered polls = [] ∨ last (delivered polls) = Some Done →
  Forall (λ p, interrupted p = false) polls →
  total_input_items (tracker s) ≠ 0 →
  ∃ s',
    monitor clock nprocs completed polls s = (Ret Finished, s')
    ∧ processed_input_items (tracker s')
      = processed_input_items (tracker s) + counts (delivered polls)
    ∧ failed_items (tracker s')
      = failed_items (tracker s) + failures (delivered polls)
    ∧ total_output_items (tracker s')
      = total_output_items (tracker s) + produced (delivered polls).
Proof.
  revert completed s. induction polls as [|p polls IH];
    intros completed s Hdones Hlast Hint Htot.
  - simpl in *. rewrite bool_decide_eq_false_2 by lia.
    eexists. split; [reflexivity|]. split_and!; lia.
  - apply Forall_cons in Hint as [Hp Hint'].
    remember (delivered (p :: polls)) as dl eqn:Edl.
    simpl. case_bool_decide as Hguard; cycle 1.
    { assert (dones dl = 0%nat) as Hz by lia.
      destruct Hlast as [-> | Hl]; [|apply last_done_counts in Hl; lia].
      eexists. split; [reflexivity|]. simpl. split_and!; lia. }
    subst dl. rewrite delivered_cons in Hlast, Hdones |- *.
    unfold interrupted in Hp.
    destruct (poll_get p) as [|[c|]|] eqn:Eget; [| | |done].
    + unfold_monad.
      destruct (liveness_check_run (poll_dead p) s) as (s1 & -> & Htr & _).
      destruct (IH completed s1) as (s' & -> & Hp' & Hf' & Ho'); try done.
      { by rewrite Htr. }
      eexists. split; [reflexivity|]. by rewrite Hp', Hf', Ho', Htr.
    + unfold_monad.
      destruct (update_counters clock c s Htot) as (s1 & -> & Hp1 & Hf1 & Ho1 & Ht1).
      destruct (liveness_check_run (poll_dead p) s1) as (s2 & -> & Htr & _).
      destruct (IH completed s2) as (s' & -> & Hp' & Hf' & Ho'); try done.
      { destruct Hlast as [?|Hl]; [done|]. right.
        destruct (delivered polls); [done|]. done. }
      { by rewrite Htr, Ht1. }
      eexists. split; [reflexivity|].
      rewrite Hp', Hf', Ho', Htr, Hp1, Hf1, Ho1.
      cbn [counts failures produced].
      split_and!; lia.
    + unfold info, update_process_completion, main_logger. unfold_monad.
      match goal with |- context [liveness_check ?d ?s0] =>
        destruct (liveness_check_run d s0) as (s2 & -> & Htr & _) end.
      destruct (IH (S completed) s2) as (s' & -> & Hp' & Hf' & Ho'); try done.
      { simpl in Hdones. lia. }
      { destruct Hlast as [?|Hl]; [done|].
        destruct (delivered polls); [by left|by right]. }
      { by rewrite Htr. }
      eexists. split; [reflexivity|].
      rewrite Hp', Hf', Ho', Htr. simpl. done.
Qed.

End SupervisorMore.

(** ** Worker: what reaches the output queue *)

Section WorkerMore.
Import Worker Traces.
Context {World : Type}.
Variable _init_driver : World → Outcome bool * World.
Variable has_driver : World → bool.
Variable _process_single_item : Item → World → Outcome (list ResultRecord) * World.
Variable driver_quit : World → Outcome unit * World.
Variable progress_tracking_key : string.

Local Abbreviation process_item :=
  (process_item _process_single_item progress_tracking_key).
Local Abbreviation process_batch :=
  (process_batch _init_driver has_driver _process_single_item driver_quit
     progress_tracking_key).
Local Abbreviation item_signal := (item_signal _process_single_item progress_tracking_key).
Local Abbreviation item_world := (item_world _process_single_item progress_tracking_key).
Local Abbreviation loop_signals := (loop_signals _process_single_item progress_tracking_key).
Local Abbreviation loop_world := (loop_world _process_single_item progress_tracking_key).
Local Abbreviation batch_signals :=
  (batch_signals _init_driver _process_single_item progress_tracking_key).
Local Abbreviation batch_world :=
  (batch_world _init_driver _process_single_item progress_tracking_key).
Local Abbreviation batch_body :=
  (batch_body _init_driver _process_single_item progress_tracking_key).

Implicit Types (s : WState (World:=World)) (w : World) (items : list Item).

Lemma produced_app (l1 l2 : list Signal) :
  produced (l1 ++ l2) = produced l1 + produced l2.
Proof. induction l1 as [|[c|] l1 IH]; simpl; lia. Qed.

Lemma produced_failed n : produced (replicate n (Count (-1))) = 0.
Proof. induction n; simpl; lia. Qed.

(** The loop body puts on the output queue as many records as the count
    it signals, and none when it signals an error. *)
Lemma process_item_outputs item s :
  ∃ logs outs,
    process_item item s
    = (Ret (), mkWState (item_world item (world s)) (has_logger s)
                 (log_queue s ++ logs) (output_queue s ++ outs)
                 (progress_queue s ++ [Count (item_signal item (world s))]))
    ∧ Z.of_nat (length outs) = produced [Count (item_signal item (world s))].
Proof.
  destruct s as [w hl lq oq pq].
  unfold Worker.process_item, Worker.item_signal, Worker.item_world. simpl.
  destruct (str_truthy (item_get item progress_tracking_key)); simpl.
  - unfold logger, emit, lift, log_queue_put, progress_queue_put.
    unfold_monad. simpl.
    destruct (_process_single_item item w) as [[results|e] w'] eqn:E; simpl.
    + destruct results as [|r results].
      * simpl. eexists _, []. rewrite (app_nil_r oq), <- ?app_assoc. done.
      * set (rs := r :: results).
        rewrite for_each_output. simpl. eexists _, rs.
        rewrite <- ?app_assoc. split; [reflexivity|].
        subst rs. simpl length. lia.
    + eexists _, []. rewrite (app_nil_r oq), <- ?app_assoc. done.
  - unfold logger, emit, log_queue_put, progress_queue_put.
    unfold_monad. simpl. eexists _, []. rewrite (app_nil_r oq), <- ?app_assoc.
    done.
Qed.

Lemma loop_outputs items s :
  ∃ logs outs,
    for_each items process_item s
    = (Ret (), mkWState (loop_world items (world s)) (has_logger s)
                 (log_queue s ++ logs) (output_queue s ++ outs)
                 (progress_queue s ++ loop_signals items (world s)))
    ∧ Z.of_nat (length outs) = produced (loop_signals items (world s)).
Proof.
  revert s. induction items as [|item items IH]; intros s.
  - exists [], []. destruct s. simpl. unfold_monad. by rewrite !app_nil_r.
  - destruct (process_item_outputs item s) as (logs1 & outs1 & E1 & H1).
    simpl. unfold_monad. rewrite E1.
    edestruct IH as (logs2 & outs2 & E2 & H2). rewrite E2. simpl in *.
    exists (logs1 ++ logs2), (outs1 ++ outs2).
    rewrite <- !app_assoc. split; [done|].
    rewrite length_app, Nat2Z.inj_add, H1, H2. lia.
Qed.

Lemma batch_outputs items w :
  Z.of_nat (length (output_queue (process_batch items (start w)).2))
  = produced (progress_queue (process_batch items (start w)).2).
Proof.
  unfold Worker.process_batch, try_finally.
  assert (∃ logs outs,
            try_except (batch_body items) (batch_handler items) (start w)
            = (Ret (), mkWState (batch_world items w) true logs outs
                         (batch_signals items w))
            ∧ Z.of_nat (length outs) = produced (batch_signals items w))
    as (logs & outs & -> & Hlen).
  { unfold Worker.batch_body, Worker.batch_signals, Worker.batch_world,
      batch_handler, setup_process_logging, logger, emit, lift, log_queue_put.
    unfold_monad. simpl.
    destruct (_init_driver w) as [[[|]|e] w1] eqn:E; simpl.
    - edestruct (loop_outputs items) as (logs & outs & -> & Hlen). simpl in *.
      eexists _, outs. split; [reflexivity|done].
    - rewrite for_each_failed. simpl.
      eexists _, []. split; [reflexivity|]. by rewrite produced_failed.
    - rewrite for_each_failed. simpl.
      eexists _, []. split; [reflexivity|]. by rewrite produced_failed. }
  edestruct (batch_finally_run has_driver driver_quit) as (logs2 & ->). simpl.
  rewrite produced_app. simpl. lia.
Qed.

(** X12. The records a worker puts on the output queue are as many as its
    progress signals announce: the sum of its integer signals other than
    the error signal [-1]. *)
Theorem worker_output_matches_progress items w :
  Z.of_nat (length (output_queue (process_batch items (start w)).2))
  = produced (progress_queue (process_batch items (start w)).2).
Proof. intros. eapply batch_outputs; eauto. Qed.

Lemma keyless_loop items w :
  Forall (λ item, str_truthy (item_get item progress_tracking_key) = false) items →
  loop_signals items w = replicate (length items) (Count 0)
  ∧ loop_world items w = w.
Proof.
  induction 1 as [|item items Hkey _ [IH1 IH2]]; simpl; [done|].
  unfold Worker.item_signal, Worker.item_world. rewrite Hkey.
  by rewrite IH1, IH2.
Qed.

(** X13. Items that have no tracking key, or an empty one, are never handed to
    the agent: a batch made of such items gives one [0] per item and then
    ['DONE'], nothing on the output queue, and a world touched only by the
    start and the shutdown of the driver. *)
Theorem keyless_items_are_skipped items w w1 :
  _init_driver w = (Ret true, w1) →
  Forall (λ item, str_truthy (item_get item progress_tracking_key) = false) items →
  ∃ s',
    process_batch items (start w) = (Ret (), s')
    ∧ progress_queue s' = replicate (length items) (Count 0) ++ [Done]
    ∧ output_queue s' = []
    ∧ world s' = if has_driver w1 then (driver_quit w1).2 else w1.
Proof.
  intros Hinit Hkeys.
  pose proof (batch_outputs items w) as Hout.
  destruct (process_batch_run _init_driver has_driver _process_single_item
              driver_quit progress_tracking_key items (start w))
    as (logs & outs & E & _).
  rewrite E in Hout. simpl in *.
  unfold Worker.batch_signals, Worker.batch_world in *. rewrite Hinit in *.
  destruct (keyless_loop items w1 Hkeys) as [Hs Hw]. rewrite Hs, Hw in *.
  eexists. split; [exact E|]. simpl. rewrite ?Hs, ?Hw. split; [done|].
  split; [|done].
  rewrite produced_app in Hout. simpl in Hout.
  assert (produced (replicate (length items) (Count 0)) = 0) as Hz.
  { clear. induction (length items); simpl; lia. }
  destruct outs; [done|]. simpl in Hout. lia.
Qed.

End WorkerMore.

Lemma keyless_items_are_skipped_witness :
  ∃ s',
    Worker.process_batch Scenario.init_ok Scenario.driver_up Scenario.agent
      Scenario.quit_ok "k" [Scenario.page; ∅] (Worker.start 0%nat)
    = (Ret (), s')
    ∧ Worker.progress_queue s' = replicate 2 (Count 0) ++ [Done]
    ∧ Worker.output_queue s' = []
    ∧ Worker.world s' = 0%nat.
Proof.
  apply (keyless_items_are_skipped Scenario.init_ok Scenario.driver_up
           Scenario.agent Scenario.quit_ok "k" [Scenario.page; ∅] 0%nat 0%nat).
  - reflexivity.
  - repeat constructor.
Defined.

(** ** The tracker's totals against what the workers did *)

Section TotalsFacts.
Import Worker ProgressTracker Supervisor Traces.
Context {World : Type}.
Variable _init_driver : World → Outcome bool * World.
Variable has_driver : World → bool.
Variable _process_single_item : Item → World → Outcome (list ResultRecord) * World.
Variable driver_quit : World → Outcome unit * World.
Variable progress_tracking_key : string.
Variable clock : nat → Q.

Local Abbreviation process_batch :=
  (process_batch _init_driver has_driver _process_single_item driver_quit
     progress_tracking_key).
Local Abbreviation progress_trace :=
  (progress_trace _init_driver has_driver _process_single_item driver_quit
     progress_tracking_key).

Lemma all_empty_concat {A} (traces : list (list A)) :
  Forall (λ tr, tr = []) traces → concat traces = [].
Proof. induction 1 as [|tr ts -> _ IH]; simpl; done. Qed.

(** What the queue delivers is a rearrangement of what the workers put. *)
Lemma interleave_perm {A} (traces : list (list A)) out :
  Interleave traces out → out ≡ₚ concat traces.
Proof.
  induction 1 as [traces Hall|pre x xs post out _ IH].
  - by rewrite all_empty_concat.
  - rewrite concat_app in IH |- *. simpl in *.
    rewrite IH. by rewrite Permutation_middle.
Qed.

Lemma sums_perm (l l' : list Signal) :
  l ≡ₚ l' →
  produced l = produced l' ∧ failures l = failures l'
  ∧ counts l = counts l' ∧ dones l = dones l'.
Proof.
  induction 1 as [|x l l' _ (IH1 & IH2 & IH3 & IH4)|x y l
                  |l l' l'' _ (IH1 & IH2 & IH3 & IH4) _ (IH1' & IH2' & IH3' & IH4')].
  - done.
  - destruct x; simpl; rewrite ?IH1, ?IH2, ?IH3, ?IH4; done.
  - destruct x, y; simpl; split_and!; lia.
  - split_and!; congruence.
Qed.

Lemma tail_of_worker_next x (xs : list Signal) :
  tail_of_worker (x :: xs) = true →
  tail_of_worker xs = true ∧ (xs = [] → x = Done).
Proof.
  destruct x as [c|]; simpl.
  - destruct xs; [done|]. done.
  - destruct xs; [done|]. done.
Qed.

Lemma interleave_last (traces : list (list Signal)) out :
  Interleave traces out →
  Forall (λ tr, tail_of_worker tr = true) traces →
  out = [] ∨ last out = Some Done.
Proof.
  induction 1 as [traces Hall|pre x xs post out Hil IH]; intros Htail; [by left|].
  right.
  apply Forall_app in Htail as [Hpre Hpost].
  apply Forall_cons in Hpost as [Hx Hpost].
  apply tail_of_worker_next in Hx as [Hxs Hend].
  destruct IH as [-> | Hl].
  - apply Forall_app. split; [done|]. by constructor.
  - inversion Hil as [? Hall|]; subst.
    apply Forall_app in Hall as [_ Hall].
    apply Forall_cons in Hall as [Hnil _].
    rewrite (Hend Hnil). done.
  - destruct out; [done|]. done.
Qed.

Lemma dones_app (l1 l2 : list Signal) : dones (l1 ++ l2) = (dones l1 + dones l2)%nat.
Proof. induction l1 as [|[c|] l1 IH]; simpl; lia. Qed.

Lemma failures_app (l1 l2 : list Signal) :
  failures (l1 ++ l2) = failures l1 + failures l2.
Proof. induction l1 as [|[c|] l1 IH]; simpl; lia. Qed.

Lemma tail_of_worker_dones (tr : list Signal) :
  tail_of_worker tr = true →
  dones tr = match tr with [] => 0%nat | _ => 1%nat end.
Proof.
  induction tr as [|x tr IH]; [done|].
  intros H. destruct x as [c|].
  - destruct tr as [|y tr']; [done|].
    change (dones (Count c :: y :: tr')) with (dones (y :: tr')).
    by rewrite IH.
  - destruct tr as [|y tr']; [done|]. done.
Qed.

Lemma dones_concat_pending (traces : list (list Signal)) :
  Forall (λ tr, tail_of_worker tr = true) traces →
  dones (concat traces) = pending traces.
Proof.
  induction 1 as [|tr traces Htr _ IH]; [done|].
  simpl. rewrite dones_app, IH, (tail_of_worker_dones tr Htr).
  destruct tr; simpl; lia.
Qed.

Lemma outputs_match_traces (batches : list (list Item)) (worlds : list World) :
  length worlds = length batches →
  produced (concat (zip_with progress_trace batches worlds))
  = Z.of_nat (length (concat (zip_with
                                (λ b w, output_queue (process_batch b (start w)).2)
                                batches worlds))).
Proof.
  revert worlds. induction batches as [|b batches IH]; intros [|w worlds] Hl;
    simpl in *; try done.
  rewrite produced_app, length_app, Nat2Z.inj_add, IH by lia.
  unfold Worker.progress_trace at 1.
  by rewrite <- batch_outputs.
Qed.

(** X14. Under the conditions of the convergence theorem, the tracker's totals
    at the end of the run are what the workers did: [total_output_items]
    is the number of records the workers put on the output queue, and
    [failed_items] the number of [-1] signals they put on the progress
    queue. *)
Theorem tracker_totals_match_workers (items : list Item) n batches
    (worlds : list World) polls joins :
  Partitioner.split_items_into_batches items n = Ret batches →
  length worlds = length batches →
  Interleave (zip_with progress_trace batches worlds) (delivered polls) →
  Forall (λ p, interrupted p = false) polls →
  ∃ s',
    run_body clock items n polls joins (__init__ clock (Z.of_nat (length items)))
    = (Ret Finished, s')
    ∧ total_output_items (tracker s')
      = Z.of_nat (length (concat (zip_with
                                    (λ b w, output_queue (process_batch b (start w)).2)
                                    batches worlds)))
    ∧ failed_items (tracker s')
      = failures (concat (zip_with progress_trace batches worlds)).
Proof.
  intros Hsplit Hlen Hil Hint.
  destruct (traces_measures _init_driver has_driver _process_single_item
              driver_quit progress_tracking_key batches worlds Hlen)
    as (Htail & Hpend & _).
  pose proof (interleave_perm _ _ Hil) as Hperm.
  destruct (sums_perm _ _ Hperm) as (Hprod & Hfail & _ & Hdones).
  rewrite <- outputs_match_traces by done.
  destruct items as [|i items'] eqn:Ei.
  - assert (batches = []) as -> by (by inversion Hsplit).
    destruct worlds; [|done].
    unfold run_body, info, main_logger. unfold_monad. simpl.
    destruct polls; simpl; eexists; (split; [reflexivity|done]).
  - rewrite <- Ei in *.
    destruct (run_body_run clock items n batches polls joins
                (__init__ clock (Z.of_nat (length items))) Hsplit)
      as (exit & s0 & s1 & s' & Htr0 & Emon & Erun & _ & Htr' & _).
    { simpl. rewrite Ei. simpl. lia. }
    { apply init_quiet. }
    destruct (monitor_totals clock (length batches) 0 polls s0)
      as (s1' & Emon' & _ & Hf & Ho).
    { rewrite Hdones, dones_concat_pending by done. by rewrite Hpend. }
    { by apply (interleave_last _ _ Hil). }
    { done. }
    { rewrite Htr0. simpl. rewrite Ei. simpl. lia. }
    rewrite Emon in Emon'. injection Emon' as -> ->.
    exists s'. split; [done|].
    rewrite Htr', Hf, Ho, Htr0, Hprod, Hfail. simpl. split; lia.
Qed.

End TotalsFacts.

Lemma tracker_totals_match_workers_witness :
  ∃ s',
    Supervisor.run_body Scenario.still [Scenario.a; Scenario.b; Scenario.c] 2
      Scenario.polls_abc (λ _, Supervisor.Joined)
      (ProgressTracker.__init__ Scenario.still 3)
    = (Ret Supervisor.Finished, s')
    ∧ ProgressTracker.total_output_items (ProgressTracker.tracker s') = 1
    ∧ ProgressTracker.failed_items (ProgressTracker.tracker s') = 1.
Proof.
  refine (tracker_totals_match_workers Scenario.init_ok Scenario.driver_up
            Scenario.agent Scenario.quit_ok "k" Scenario.still
            [Scenario.a; Scenario.b; Scenario.c] 2
            [[Scenario.a]; [Scenario.b; Scenario.c]] [0%nat; 0%nat]
            Scenario.polls_abc (λ _, Supervisor.Joined) _ _ _ _).
  - reflexivity.
  - reflexivity.
  - change (Supervisor.Interleave
              [[Count 1; Done]; [Count (-1); Count 0; Done]]
              [Count (-1); Count 1; Done; Count 0; Done]).
    apply (Supervisor.interleave_next [[Count 1; Done]] (Count (-1)) [Count 0; Done] []).
    apply (Supervisor.interleave_next [] (Count 1) [Done] [[Count 0; Done]]).
    apply (Supervisor.interleave_next [] Done [] [[Count 0; Done]]).
    apply (Supervisor.interleave_next [[]] (Count 0) [Done] []).
    apply (Supervisor.interleave_next [[]] Done [] []).
    apply Supervisor.interleave_done. repeat constructor.
  - repeat constructor.
Defined.

(** ** The run as a whole *)

Section RunOutcomes.
Import ProgressTracker Supervisor.
Variable clock : nat → Q.

Lemma split_items_into_batches_returns {A} (items : list A) (n : Z) :
  n ≠ 0 → ∃ batches, Partitioner.split_items_into_batches items n = Ret batches.
Proof.
  intros Hn. unfold Partitioner.split_items_into_batches.
  destruct items as [|a items'] eqn:Ei; [by eexists|]. rewrite <- Ei.
  unfold Partitioner.floordiv. destruct (decide (n = 0)) as [?|_]; [done|].
  set (batch_size := Z.to_nat (Z.max 1 (Z.of_nat (length items) `div` n))).
  assert (0 < batch_size)%nat as Hbs by (unfold batch_size; lia).
  destruct (slice_loop_spec items batch_size Hbs) as [_ Hf].
  destruct (merge_loop_spec (length (Partitioner.slice_loop items batch_size))
              (Partitioner.slice_loop items batch_size) n (le_n _) Hf)
    as (merged & E & _).
  by exists merged.
Qed.

(** X15. Asked for zero processes, [run_multiprocess_scraper] does not
    raise and starts no worker: cutting the batches divides by zero, the
    outer handler logs the error, the [finally] block logs "Scraping
    completed", and the tracker is as it was created. Nothing is read
    from the progress queue. *)
Theorem zero_processes_starts_no_worker file key (items0 : list Item) polls joins :
  let items := ResumeFilter._filter_items_for_resume file key items0 in
  items ≠ [] →
  ∃ final,
    run_multiprocess_scraper clock file key items0 0 polls joins
    = Ran (Ret Aborted) final
    ∧ main_log final
      = [ Log INFO "Starting multiprocess scraping";
          Log INFO "Total items to process";
          Log ERROR "Error in multiprocess scraping";
          Log INFO "Scraping completed" ]
    ∧ tracker final = tracker (__init__ clock (Z.of_nat (length items))).
Proof.
  intros items Hitems. subst items.
  unfold run_multiprocess_scraper.
  destruct items0 as [|i0 items0'] eqn:E0;
    [by rewrite filter_items_nil in Hitems|].
  rewrite <- E0 in *.
  destruct (ResumeFilter._filter_items_for_resume file key items0)
    as [|i items'] eqn:Ei; [congruence|].
  unfold try_finally, try_except, run_body, info, main_logger.
  unfold_monad. simpl. eexists. done.
Qed.

End RunOutcomes.

(** ** LogAggregator *)

Section LoggerFacts.
Import OutputWriterProcess LoggerProcess.

Lemma logger_run_loop gets_ lines_ :
  run_loop gets_ (mkLogger false lines_)
  = (Ret (if stopped gets_ then Stopped else Waiting),
     mkLogger false (lines_ ++ (line_of <$> received gets_))).
Proof.
  revert lines_. induction gets_ as [|g gets_ IH]; intros lines_; simpl.
  - unfold_monad. by rewrite app_nil_r.
  - unfold_monad. simpl. destruct g as [|[item|]].
    + apply IH.
    + destruct item as [[| |]|]; simpl;
        unfold try_except, write_line, raise; unfold_monad; simpl;
        rewrite IH, <- app_assoc; done.
    + by rewrite app_nil_r.
Qed.

(** X16. The logger process writes, after its start line, one line per item
    received before the shutdown sentinel, in arrival order, and nothing
    that arrives behind the sentinel; it writes its stop line only when the
    sentinel came. The line of a record that has a level is the record
    itself; a record with no level is not written: [handle] raises on it
    and the line "Error in logger process" is written in its place. No
    item makes [run] raise. *)
Theorem logger_writes_in_arrival_order gets_ lines_ :
  run true gets_ (mkLogger false lines_)
  = (Ret (if stopped gets_ then Stopped else Waiting),
     mkLogger false
       (lines_ ++ [Log INFO "Logger process started"]
        ++ (line_of <$> received gets_)
        ++ (if stopped gets_ then [Log INFO "Logger process stopped"] else []))).
Proof.
  unfold run, write_line. unfold_monad. simpl.
  rewrite logger_run_loop.
  destruct (stopped gets_); simpl; rewrite <- ?app_assoc; simpl.
  - done.
  - by rewrite app_nil_r.
Qed.

End LoggerFacts.

(** ** The worker's critical-error record in the logger process *)

Section WorkerLogger.
Import Worker.
Context {World : Type}.
Variable _init_driver : World → Outcome bool * World.
Variable has_driver : World → bool.
Variable _process_single_item : Item → World → Outcome (list ResultRecord) * World.
Variable driver_quit : World → Outcome unit * World.
Variable progress_tracking_key : string.

(** What the [finally] block of [process_batch] logs in world [w]. *)
Local Abbreviation closing w :=
  (if has_driver w
   then [match (driver_quit w).1 with
         | Ret _ => Log INFO "WebDriver closed successfully"
         | Raise _ => Log WARNING "Error closing WebDriver"
         end]
   else []).

Lemma process_batch_critical_log items w e w1 :
  _init_driver w = (Raise e, w1) →
  log_queue (process_batch _init_driver has_driver _process_single_item
               driver_quit progress_tracking_key items (start w)).2
  = [Log INFO "Starting batch processing"; NoLevel "Error in process"]
    ++ closing w1.
Proof.
  intros Hinit.
  unfold process_batch, try_finally, try_except, batch_body, batch_handler,
    setup_process_logging, logger, emit, lift, log_queue_put, start.
  unfold_monad. simpl. rewrite Hinit. simpl.
  rewrite for_each_failed. simpl.
  unfold batch_finally, try_except, logger, emit, lift, log_queue_put,
    progress_queue_put.
  unfold_monad. simpl.
  destruct (has_driver w1); simpl; [|done].
  destruct (driver_quit w1) as [[[]|e'] w2]; done.
Qed.

(** X26. When an exception reaches the outer handler of [process_batch]
    (the driver initialisation raises), the record the handler puts on
    the log queue never reaches the log: the logger process, fed what
    the worker put, writes the line "Error in logger process" where the
    worker's error message should be, and goes on. *)
Theorem critical_error_is_not_logged items w e w1 lines_ :
  _init_driver w = (Raise e, w1) →
  let records :=
    log_queue (process_batch _init_driver has_driver _process_single_item
                 driver_quit progress_tracking_key items (start w)).2 in
  NoLevel "Error in process" ∈ records
  ∧ LoggerProcess.run true
      ((λ r, OutputWriterProcess.Got (Some (LoggerProcess.Record_ r))) <$> records)
      (LoggerProcess.mkLogger false lines_)
    = (Ret OutputWriterProcess.Waiting,
       LoggerProcess.mkLogger false
         (lines_ ++ [Log INFO "Logger process started";
                     Log INFO "Starting batch processing";
                     Log ERROR "Error in logger process"]
          ++ closing w1)).
Proof.
  intros Hinit records. subst records.
  rewrite (process_batch_critical_log items w e w1 Hinit).
  split; [set_solver|].
  unfold LoggerProcess.run, LoggerProcess.write_line. unfold_monad. simpl.
  unfold try_except, LoggerProcess.write_line, raise. unfold_monad. simpl.
  destruct (has_driver w1); simpl.
  - destruct (driver_quit w1).1; simpl; unfold try_except, LoggerProcess.write_line;
      unfold_monad; simpl; by rewrite <- !app_assoc.
  - by rewrite <- !app_assoc.
Qed.

End WorkerLogger.

(** ** The base class's browser methods *)

Section ScraperFacts.
Import Scraper ScraperSpec.
Context {B Element : Type}.
Variable options : B → Outcome unit * B.
Variable chrome : B → Outcome unit * B.
Variable execute_script : B → Outcome unit * B.
Variable set_window_size : B → Outcome unit * B.
Variable quit : B → Outcome unit * B.
Variable driver_get : string → B → Outcome unit * B.
Variable wait_presence : By → string → B → Outcome unit * B.
Variable find_elements : option Element → By → string → B → Outcome (list Element) * B.
Variable wait_click : By → string → B → Outcome unit * B.
Variable save_page_source : B → Outcome unit * B.
Variable _process_category_element : Element → Item → B → Outcome ResultRecord * B.
Variable _create_empty_result : Item → B → Outcome ResultRecord * B.
Variable _get_page_ready_selector : string.
Variable _get_categories_selector : string.
Variable progress_tracking_key : string.
Variable recursion_limit : nat.

Local Abbreviation Inst := (Instance (B:=B)).
Local Abbreviation _init_driver :=
  (_init_driver options chrome execute_script set_window_size quit).
Local Abbreviation discard_driver := (discard_driver (B:=B) quit).
Local Abbreviation find_loop := (find_loop wait_presence find_elements).
Local Abbreviation _find_elements := (_find_elements wait_presence find_elements).
Local Abbreviation _click_element := (_click_element (B:=B) wait_click).
Local Abbreviation _wait_for_page_ready :=
  (_wait_for_page_ready wait_presence find_elements _get_page_ready_selector).
Local Abbreviation _is_error_page := (_is_error_page wait_presence find_elements).
Local Abbreviation handle_loop := (handle_loop (B:=B) wait_click).
Local Abbreviation _handle_error_page := (_handle_error_page (B:=B) wait_click).
Local Abbreviation _navigate_to_url :=
  (_navigate_to_url driver_get wait_presence find_elements wait_click
     save_page_source _get_page_ready_selector).
Local Abbreviation category_loop := (category_loop _process_category_element).
Local Abbreviation _process_single_item :=
  (_process_single_item driver_get wait_presence find_elements wait_click
     save_page_source _process_category_element _create_empty_result
     _get_page_ready_selector _get_categories_selector progress_tracking_key
     recursion_limit).

Implicit Types (s : Inst).

(** *** How [keeps] and [never_raises] compose *)

Lemma keeps_ret {A} (a : A) : keeps (B:=B) (mret a).
Proof. intros s. done. Qed.

Lemma keeps_raise {A} e : keeps (B:=B) (raise (A:=A) e).
Proof. intros s. done. Qed.

Lemma keeps_bind {A C} (c : M Inst A) (k : A → M Inst C) :
  keeps c → (∀ a, keeps (k a)) → keeps (c ≫= k).
Proof.
  intros Hc Hk s. unfold_monad. specialize (Hc s).
  destruct (c s) as [[a|e] s1]; simpl in *; [|done].
  destruct (Hk a s1) as [H1 H2]. destruct Hc as [H3 H4].
  split; congruence.
Qed.

Lemma keeps_try_except {A} (body : M Inst A) handler :
  keeps body → (∀ e, keeps (handler e)) → keeps (try_except body handler).
Proof.
  intros Hc Hk s. unfold try_except. specialize (Hc s).
  destruct (body s) as [[a|e] s1]; simpl in *; [done|].
  destruct (Hk e s1) as [H1 H2]. destruct Hc as [H3 H4].
  split; congruence.
Qed.

Lemma keeps_lift {A} (op : B → Outcome A * B) : keeps (lift op).
Proof. intros s. unfold lift. by destruct (op (browser s)). Qed.

Lemma keeps_gets {A} (f : Inst → A) : keeps (gets f).
Proof. intros s. done. Qed.

Lemma keeps_set_driver d : keeps (B:=B) (set_driver d).
Proof. intros s. done. Qed.

Lemma keeps_set_wait w : keeps (B:=B) (set_wait w).
Proof. intros s. done. Qed.

Lemma keeps_write_log r : keeps (B:=B) (write_log r).
Proof. intros s. done. Qed.

Lemma keeps_print t : keeps (B:=B) (print t).
Proof. intros s. done. Qed.

Lemma keeps_log_if lvl text : keeps (B:=B) (log_if lvl text).
Proof.
  intros [b d w sel hl lg out]. unfold log_if, write_log. unfold_monad. simpl.
  by destruct hl.
Qed.

Lemma keeps_logger lvl text : keeps (B:=B) (logger lvl text).
Proof.
  intros [b d w sel hl lg out]. unfold logger, write_log. unfold_monad. simpl.
  by destruct hl.
Qed.

Lemma keeps_on_driver {A} (op : B → Outcome A * B) : keeps (on_driver op).
Proof.
  intros s. unfold on_driver. unfold_monad. simpl.
  destruct (driver s); [apply keeps_lift|done].
Qed.

Lemma keeps_on_wait {A} (op : B → Outcome A * B) : keeps (on_wait op).
Proof.
  intros s. unfold on_wait. unfold_monad. simpl.
  destruct (wait s); [apply keeps_lift|done].
Qed.

Lemma never_raises_try_except {A} (body : M Inst A) handler :
  (∀ e, never_raises (handler e)) → never_raises (try_except body handler).
Proof.
  intros Hh s. unfold try_except.
  destruct (body s) as [[a|e] s1]; [by eexists _, _|]. apply Hh.
Qed.

Lemma never_raises_log_if lvl text : never_raises (B:=B) (log_if lvl text).
Proof.
  intros s. unfold log_if, write_log. unfold_monad. simpl.
  destruct (has_logger s); by eexists _, _.
Qed.

Ltac keeps_step :=
  first
    [ apply keeps_bind; [|intros ?]
    | apply keeps_try_except; [|intros ?]
    | apply keeps_ret | apply keeps_raise | apply keeps_lift | apply keeps_gets
    | apply keeps_set_driver | apply keeps_set_wait | apply keeps_write_log
    | apply keeps_print | apply keeps_log_if | apply keeps_logger
    | apply keeps_on_driver | apply keeps_on_wait
    | assumption
    | match goal with
      | |- keeps (if ?b then _ else _) => destruct b
      | |- keeps (match ?x with _ => _ end) => destruct x
      | |- keeps (let _ := _ in _) => cbv zeta
      end ].

Lemma keeps_discard_driver : keeps discard_driver.
Proof. unfold Scraper.discard_driver. repeat keeps_step. Qed.

Lemma keeps_init_driver : keeps _init_driver.
Proof.
  unfold Scraper._init_driver.
  repeat first [apply keeps_discard_driver | keeps_step].
Qed.

Lemma keeps_find_loop container candidates : keeps (find_loop container candidates).
Proof.
  induction candidates as [|selector rest IH]; simpl; repeat keeps_step.
Qed.

Lemma keeps_find_elements key container : keeps (_find_elements key container).
Proof.
  unfold Scraper._find_elements.
  repeat first [apply keeps_find_loop | keeps_step].
Qed.

Lemma keeps_click_element selector : keeps (_click_element selector).
Proof. unfold Scraper._click_element. repeat keeps_step. Qed.

Lemma keeps_handle_error_page : keeps _handle_error_page.
Proof.
  unfold Scraper._handle_error_page.
  apply keeps_bind; [apply keeps_gets|]. intros [m|]; [|apply keeps_raise].
  induction (default [] (m !! "error_page_handler")) as [|selector rest IH]; simpl;
    repeat first [apply keeps_click_element | keeps_step].
Qed.

Lemma keeps_navigate_to_url depth url : keeps (_navigate_to_url depth url).
Proof.
  induction depth as [|depth IH]; simpl;
    unfold Scraper._wait_for_page_ready, Scraper._is_error_page;
    repeat first [apply keeps_find_elements | apply keeps_handle_error_page
                 | keeps_step].
Qed.

Lemma keeps_category_loop elements item new_items :
  keeps (category_loop elements item new_items).
Proof.
  revert new_items. induction elements as [|el rest IH]; intros new_items; simpl;
    repeat first [apply IH | keeps_step].
Qed.

Lemma keeps_process_single_item item : keeps (_process_single_item item).
Proof.
  unfold Scraper._process_single_item, getitem.
  repeat first [apply keeps_navigate_to_url | apply keeps_find_elements
               | apply keeps_category_loop | keeps_step].
Qed.

Ltac unfold_scraper :=
  unfold Scraper.discard_driver, on_driver, on_wait, lift, set_driver, set_wait,
    log_if, logger, write_log, print, getitem in *.

Ltac ext_cases :=
  repeat match goal with
         | |- context [let (_, _) := ?f ?b in _] =>
             destruct (f b) as [[?|?] ?]; simpl
         | |- context [match ?f ?b with (_, _) => _ end] =>
             destruct (f b) as [[?|?] ?]; simpl
         end.

(** X17. [_init_driver] never raises. When it returns [True] the driver and
    the wait are set; when it returns [False] no driver is left behind,
    whichever step failed and whether or not an earlier driver existed. *)
Theorem init_driver_outcome s :
  ∃ r s',
    _init_driver s = (Ret r, s')
    ∧ driver s' = r
    ∧ (r = true → wait s' = true).
Proof.
  destruct s as [b d w sel hl lg out].
  unfold Scraper._init_driver. unfold_scraper. unfold_monad. simpl.
  destruct d, hl; simpl; ext_cases; eexists _, _; (split; [reflexivity|]); done.
Qed.

Lemma find_loop_run container candidates s :
  ∃ r s',
    find_loop container candidates s = (Ret r, s')
    ∧ (r ≠ [] →
       ∃ selector b b',
         selector ∈ candidates
         ∧ find_elements container (_get_selector_type selector) selector b
           = (Ret r, b')).
Proof.
  revert s. induction candidates as [|selector rest IH]; intros s.
  - simpl. eexists _, _. split; [reflexivity|]. done.
  - assert (∀ s0, ∃ r s',
              find_loop container rest s0 = (Ret r, s')
              ∧ (r ≠ [] →
                 ∃ sel b b',
                   sel ∈ selector :: rest
                   ∧ find_elements container (_get_selector_type sel) sel b
                     = (Ret r, b'))) as IH'.
    { intros s0. destruct (IH s0) as (r & s' & E & Hr).
      exists r, s'. split; [done|]. intros Hne.
      destruct (Hr Hne) as (sel & b & b' & Hin & Hf).
      exists sel, b, b'. split; [by right|done]. }
    destruct s as [b d w sel hl lg out].
    simpl. unfold_scraper. unfold_monad. simpl.
    destruct w; simpl; [|apply IH'].
    destruct (wait_presence (_get_selector_type selector) selector b)
      as [[[]|e] b1]; simpl; [|apply IH'].
    destruct container as [c|]; simpl.
    + destruct (find_elements (Some c) (_get_selector_type selector) selector b1)
        as [[[|el els]|e] b2] eqn:Ef; simpl; [apply IH'| |apply IH'].
      eexists _, _. split; [reflexivity|]. intros _.
      exists selector, b1, b2. split; [by left|done].
    + destruct d; simpl; [|apply IH'].
      destruct (find_elements None (_get_selector_type selector) selector b1)
        as [[[|el els]|e] b2] eqn:Ef; simpl; [apply IH'| |apply IH'].
      eexists _, _. split; [reflexivity|]. intros _.
      exists selector, b1, b2. split; [by left|done].
Qed.

(** X18. [_find_elements] on a configured instance never raises, whatever the
    browser does. An unknown selector key gives the empty list without
    touching the browser; a non-empty result is what [find_elements]
    returned for one of the selectors configured under the key. *)
Theorem find_elements_outcome key container s m :
  selectors s = Some m →
  ∃ r s',
    _find_elements key container s = (Ret r, s')
    ∧ (m !! key = None → r = [] ∧ browser s' = browser s)
    ∧ (r ≠ [] →
       ∃ candidates selector b b',
         m !! key = Some candidates
         ∧ selector ∈ candidates
         ∧ find_elements container (_get_selector_type selector) selector b
           = (Ret r, b')).
Proof.
  intros Hsel. unfold Scraper._find_elements. unfold_monad. simpl.
  rewrite Hsel. destruct (m !! key) as [candidates|] eqn:Ek.
  - destruct (find_loop_run container candidates s) as (r & s' & E & Hr).
    exists r, s'. split; [done|]. split; [done|].
    intros Hne. destruct (Hr Hne) as (sel & b & b' & Hin & Hf).
    by exists candidates, sel, b, b'.
  - destruct s as [b d w sel hl lg out]. unfold_scraper. unfold_monad. simpl.
    destruct hl; eexists _, _; (split; [reflexivity|]); done.
Qed.

Lemma never_raises_navigate_to_url depth url :
  never_raises (_navigate_to_url depth url).
Proof.
  destruct depth; simpl; apply never_raises_try_except; intros e s;
    unfold_scraper; unfold_monad; simpl;
    destruct (has_logger s); by eexists _, _.
Qed.

(** X19. [_navigate_to_url] never raises, whatever the browser does and however
    often the error page is handled. Without a driver it returns [False]
    and the browser is not touched. *)
Theorem navigate_to_url_outcome depth url s :
  ∃ r s',
    _navigate_to_url depth url s = (Ret r, s')
    ∧ (driver s = false → r = false ∧ browser s' = browser s).
Proof.
  destruct (never_raises_navigate_to_url depth url s) as (r & s' & E).
  exists r, s'. split; [done|]. intros Hd.
  revert E. destruct s as [b d w sel hl lg out]. simpl in Hd. subst d.
  destruct depth; simpl; unfold try_except; unfold_scraper; unfold_monad; simpl;
    destruct hl; simpl; intros [= <- <-]; done.
Qed.

Lemma logger_run lvl text s :
  has_logger s = true →
  logger lvl text s
  = (Ret (), mkInstance (browser s) (driver s) (wait s) (selectors s) true
               (log s ++ [Log lvl text]) (stdout s)).
Proof.
  destruct s as [b d w sel hl lg out]. simpl. intros ->.
  unfold logger, write_log. unfold_monad. done.
Qed.

Lemma process_single_item_run item s :
  has_logger s = true →
  ∃ r s',
    _process_single_item item s = (Ret r, s')
    ∧ has_logger s' = true
    ∧ (item !! progress_tracking_key = None → r = [])
    ∧ (∀ url, item !! progress_tracking_key = Some url →
              (_navigate_to_url recursion_limit url s).1 = Ret false →
              r = []).
Proof.
  intros Hl.
  unfold Scraper._process_single_item.
  match goal with |- context [try_except ?c ?h] => set (body := c) end.
  assert (keeps body) as Hkb.
  { subst body. unfold getitem.
    repeat first [apply keeps_navigate_to_url | apply keeps_find_elements
                 | apply keeps_category_loop | keeps_step]. }
  assert (item !! progress_tracking_key = None → (body s).1 = Raise KeyError)
    as Hnokey.
  { intros Hk. subst body. unfold getitem. rewrite Hk. unfold_monad. done. }
  assert (∀ url, item !! progress_tracking_key = Some url →
                 (_navigate_to_url recursion_limit url s).1 = Ret false →
                 (body s).1 = Ret []) as Hnonav.
  { intros url Hk Hnav. subst body. unfold getitem. rewrite Hk. unfold_monad.
    pose proof (keeps_navigate_to_url recursion_limit url s) as [Hkn _].
    destruct (_navigate_to_url recursion_limit url s) as [o s1].
    simpl in Hnav, Hkn. subst o. simpl.
    rewrite logger_run by congruence. done. }
  unfold try_except. destruct (Hkb s) as [Hk1 _].
  destruct (body s) as [[r|e] s1]; simpl in *.
  - exists r, s1. split; [done|]. split; [congruence|]. split.
    + intros Hk. by specialize (Hnokey Hk).
    + intros url Hk Hnav. specialize (Hnonav url Hk Hnav). congruence.
  - unfold_monad. rewrite logger_run by congruence.
    eexists _, _. split; [reflexivity|]. done.
Qed.

(** X20. With [self.logger] set, the base [_process_single_item] never raises:
    every failure inside it ends in one of its own handlers. An item
    without the tracking key, and an item whose page cannot be reached,
    give the empty list. *)
Theorem process_single_item_outcome item s :
  has_logger s = true →
  ∃ r s',
    _process_single_item item s = (Ret r, s')
    ∧ has_logger s' = true
    ∧ (item !! progress_tracking_key = None → r = [])
    ∧ (∀ url, item !! progress_tracking_key = Some url →
              (_navigate_to_url recursion_limit url s).1 = Ret false →
              r = []).
Proof. intros. eapply process_single_item_run; eauto. Qed.

(** X21. A worker that runs the base class's methods, with its logger set up,
    never reports an item as failed once its driver has started: every
    per-item signal is a count of zero or more, because
    [_process_single_item] turns every failure into an empty result. *)
Theorem base_agent_never_signals_failure (items : list Item) s s1 :
  has_logger s = true →
  _init_driver s = (Ret true, s1) →
  ∃ signals,
    Worker.progress_trace _init_driver driver _process_single_item (lift quit)
      progress_tracking_key items s
    = signals ++ [Done]
    ∧ length signals = length items
    ∧ Forall (λ x, ∃ c, x = Count c ∧ 0 ≤ c) signals.
Proof.
  intros Hl Hinit.
  rewrite progress_trace_shape. unfold Worker.batch_signals. rewrite Hinit.
  eexists. split; [reflexivity|]. split; [apply loop_signals_length|].
  assert (has_logger s1 = true) as Hl1.
  { pose proof (keeps_init_driver s) as [Hk _]. rewrite Hinit in Hk.
    simpl in Hk. congruence. }
  clear Hinit Hl. revert s1 Hl1.
  induction items as [|item items IH]; intros s1 Hl1; simpl; [done|].
  unfold Worker.item_signal, Worker.item_world.
  destruct (process_single_item_run item s1 Hl1) as (r & s2 & E & Hl2 & _).
  destruct (str_truthy (item_get item progress_tracking_key)).
  - rewrite E. simpl. constructor; [|by apply IH].
    eexists. split; [reflexivity|]. lia.
  - constructor; [|by apply IH]. by exists 0.
Qed.

End ScraperFacts.

(** ** Text cleaning *)

Example clean_text_tags :
  Text._clean_text Text.ascii_space (Text.chars "  <b>Tea &amp;   <i>cake</i></b> ")
  = Text.chars "Tea & cake".
Proof. vm_compute. reflexivity. Qed.

Example strip_tags_unclosed :
  Text.strip_tags (Text.chars "a <> b < c") = Text.chars "a <> b < c".
Proof. vm_compute. reflexivity. Qed.

Section TextFacts.
Import Text.
Variable isspace : N → bool.

Local Abbreviation single_spaced := (single_spaced isspace).
Local Abbreviation normalised := (normalised isspace).
Local Abbreviation lstrip := (lstrip isspace).
Local Abbreviation rstrip := (rstrip isspace).
Local Abbreviation strip := (strip isspace).
Local Abbreviation collapse_scan := (collapse_scan isspace).
Local Abbreviation _clean_text := (_clean_text isspace).

(** The first character, if any, is not whitespace. *)
Local Abbreviation starts_clean text :=
  (match text with [] => true | c :: _ => negb (isspace c) end).

Lemma collapse_scan_spaced text :
  isspace SPACE = true →
  (∀ in_run, single_spaced (collapse_scan in_run text) = true)
  ∧ starts_clean (collapse_scan true text) = true.
Proof.
  intros Hsp. induction text as [|c rest [IHa IHb]]; [done|].
  split.
  - intros in_run. simpl. destruct (isspace c) eqn:Ec.
    + destruct in_run; [apply IHa|].
      simpl. rewrite Hsp, IHa. change (SPACE =? SPACE)%N with true. simpl.
      destruct (Text.collapse_scan isspace true rest); [done|].
      simpl in IHb. by rewrite IHb.
    + simpl. by rewrite Ec, IHa.
  - simpl. destruct (isspace c) eqn:Ec; [done|]. simpl. by rewrite Ec.
Qed.

Lemma single_spaced_suffix (l1 l2 : list N) :
  single_spaced (l1 ++ l2) = true → single_spaced l2 = true.
Proof.
  induction l1 as [|c l1 IH]; [done|]. simpl.
  intros H. apply andb_true_iff in H as [_ H]. by apply IH.
Qed.

Lemma single_spaced_prefix (l1 l2 : list N) :
  single_spaced (l1 ++ l2) = true → single_spaced l1 = true.
Proof.
  induction l1 as [|c l1 IH]; [done|]. simpl.
  intros H. apply andb_true_iff in H as [Hc H]. rewrite (IH H), andb_true_r.
  destruct (isspace c); [|done].
  apply andb_true_iff in Hc as [-> Hc]. simpl.
  destruct l1; [done|]. done.
Qed.

Lemma lstrip_suffix text :
  (∃ pre, text = pre ++ lstrip text) ∧ starts_clean (lstrip text) = true.
Proof.
  induction text as [|c rest [[pre IH1] IH2]]; simpl.
  - split; [by exists []|done].
  - destruct (isspace c) eqn:Ec.
    + split; [|done]. exists (c :: pre). simpl. by f_equal.
    + split; [by exists []|]. by rewrite Ec.
Qed.

Lemma rstrip_prefix text :
  (∃ suf, text = rstrip text ++ suf)
  ∧ match last (rstrip text) with None => true | Some c => negb (isspace c) end = true.
Proof.
  unfold Text.rstrip.
  destruct (lstrip_suffix (reverse text)) as [[pre Hpre] Hclean].
  split.
  - exists (reverse pre).
    rewrite <- reverse_app, <- Hpre. by rewrite reverse_involutive.
  - destruct (lstrip (reverse text)) as [|c l]; [done|].
    rewrite reverse_cons, last_snoc. done.
Qed.

Lemma strip_normalised text :
  single_spaced text = true → normalised (strip text) = true.
Proof.
  intros Hs. unfold Text.strip, Text.normalised.
  destruct (lstrip_suffix text) as [[pre Hpre] Hclean].
  destruct (rstrip_prefix (lstrip text)) as [[suf Hsuf] Hlast].
  rewrite Hpre in Hs. apply single_spaced_suffix in Hs.
  rewrite Hsuf in Hs. apply single_spaced_prefix in Hs.
  rewrite Hlast, Hs, !andb_true_r.
  destruct (rstrip (lstrip text)) as [|c l]; [done|].
  rewrite Hsuf in Hclean. done.
Qed.

(** X23. Whatever the input, the text [_clean_text] returns is in normal form:
    no whitespace at either end, no whitespace character other than the
    space, and no two spaces in a row. *)
Theorem clean_text_normalised text :
  isspace SPACE = true →
  normalised (_clean_text text) = true.
Proof.
  intros Hsp. unfold Text._clean_text. destruct text as [|c text]; [done|].
  cbv zeta. apply strip_normalised.
  apply (collapse_scan_spaced _ Hsp).
Qed.

Lemma strip_tags_plain text :
  Forall (λ c, c ≠ LT) text → strip_tags text = text.
Proof.
  unfold strip_tags. induction 1 as [|c rest Hc _ IH]; [done|].
  simpl. rewrite (proj2 (N.eqb_neq c LT) Hc). by rewrite IH.
Qed.

Lemma replace_absent first_ old new text :
  Forall (λ c, c ≠ first_) text → replace (first_ :: old) new text = text.
Proof.
  unfold replace. induction 1 as [|c rest Hc _ IH]; [done|].
  simpl. rewrite bool_decide_eq_false_2.
  - by rewrite IH.
  - intros [k Hk]. simpl in Hk. congruence.
Qed.

Lemma collapse_plain text :
  Forall (λ c, isspace c = false) text → collapse isspace text = text.
Proof.
  unfold collapse. induction 1 as [|c rest Hc _ IH]; [done|].
  simpl. by rewrite Hc, IH.
Qed.

Lemma lstrip_plain text :
  Forall (λ c, isspace c = false) text → lstrip text = text.
Proof. destruct 1 as [|c rest Hc _]; [done|]. simpl. by rewrite Hc. Qed.

Lemma clean_steps_plain text :
  Forall (λ c, c ≠ LT ∧ c ≠ 38%N ∧ isspace c = false) text →
  strip
    (collapse isspace
       (replace (chars "&gt;") (chars ">")
          (replace (chars "&lt;") (chars "<")
             (replace (chars "&amp;") (chars "&")
                (replace (chars "&nbsp;") (chars " ") (strip_tags text))))))
  = text.
Proof.
  intros Hall.
  assert (Forall (λ c, c ≠ LT) text) as Hlt
    by (eapply Forall_impl; [exact Hall|]; intros c (? & ? & ?); done).
  assert (Forall (λ c, c ≠ 38%N) text) as Hamp
    by (eapply Forall_impl; [exact Hall|]; intros c (? & ? & ?); done).
  assert (Forall (λ c, isspace c = false) text) as Hws
    by (eapply Forall_impl; [exact Hall|]; intros c (? & ? & ?); done).
  rewrite (strip_tags_plain _ Hlt).
  pose proof (replace_absent 38%N (chars "nbsp;") (chars " ") text Hamp) as E1.
  pose proof (replace_absent 38%N (chars "amp;") (chars "&") text Hamp) as E2.
  pose proof (replace_absent 38%N (chars "lt;") (chars "<") text Hamp) as E3.
  pose proof (replace_absent 38%N (chars "gt;") (chars ">") text Hamp) as E4.
  change (38%N :: chars "nbsp;") with (chars "&nbsp;") in E1.
  change (38%N :: chars "amp;") with (chars "&amp;") in E2.
  change (38%N :: chars "lt;") with (chars "&lt;") in E3.
  change (38%N :: chars "gt;") with (chars "&gt;") in E4.
  rewrite E1, E2, E3, E4, (collapse_plain _ Hws).
  unfold Text.strip, Text.rstrip. rewrite (lstrip_plain _ Hws).
  rewrite lstrip_plain by (by apply Forall_reverse).
  apply reverse_involutive.
Qed.

(** X24. Text that holds no ['<'], no ['&'] and no whitespace comes back
    unchanged. *)
Theorem clean_text_plain text :
  Forall (λ c, c ≠ LT ∧ c ≠ 38%N ∧ isspace c = false) text →
  _clean_text text = text.
Proof.
  intros Hall. pose proof (clean_steps_plain _ Hall) as E.
  unfold Text._clean_text. by destruct text.
Qed.

Section ElementFacts.
Context {B Element : Type}.
Variable get_attribute : string → Element → B → Outcome (option (list N)) * B.
Variable element_text : Element → B → Outcome (list N) * B.

(** X25. [get_clean_text] never raises, though reading an element may.
    It returns the empty string for a missing element, without touching
    the browser, and as soon as one of its reads raises; otherwise it
    returns the cleaned text of the first of [innerText], [text] and
    [innerHTML] that is not blank, the last with its tags removed, and
    the empty string when all three are blank. What it returns is
    always in normal form. *)
Theorem get_clean_text_outcome (element : option Element) (b : B) :
  isspace SPACE = true →
  ∃ text b',
    get_clean_text isspace get_attribute element_text element b = (Ret text, b')
    ∧ normalised text = true
    ∧ (element = None → text = [] ∧ b' = b)
    ∧ (∀ el, element = Some el →
         match get_attribute "innerText" el b with
         | (Raise _, b1) => text = [] ∧ b' = b1
         | (Ret t1, b1) =>
             if Text.usable isspace t1
             then text = _clean_text (default [] t1) ∧ b' = b1
             else
               match element_text el b1 with
               | (Raise _, b2) => text = [] ∧ b' = b2
               | (Ret t2, b2) =>
                   if Text.usable isspace (Some t2)
                   then text = _clean_text t2 ∧ b' = b2
                   else
                     match get_attribute "innerHTML" el b2 with
                     | (Raise _, b3) => text = [] ∧ b' = b3
                     | (Ret t3, b3) =>
                         if Text.usable isspace t3
                         then text = _clean_text (strip_tags (default [] t3))
                              ∧ b' = b3
                         else text = [] ∧ b' = b3
                     end
               end
         end).
Proof.
  intros Hsp.
  destruct element as [el|]; cbn -[Text.usable Text._clean_text];
    [|eexists _, _; split; [reflexivity|]; done].
  unfold try_except. unfold_monad.
  assert (∀ text : list N, normalised (_clean_text text) = true) as Hnorm
    by (intros; by apply clean_text_normalised).
  destruct (get_attribute "innerText" el b) as [[t1|e] b1] eqn:E0;
    cbn -[Text.usable Text._clean_text]; cycle 1.
  { eexists _, _. split; [reflexivity|]. split_and!; [done..|].
    intros ? [= <-]. by rewrite E0. }
  destruct (Text.usable isspace t1) eqn:E1.
  { eexists _, _. split; [reflexivity|]. split_and!; [done..|].
    intros ? [= <-]. by rewrite E0, E1. }
  destruct (element_text el b1) as [[t2|e] b2] eqn:E2;
    cbn -[Text.usable Text._clean_text]; cycle 1.
  { eexists _, _. split; [reflexivity|]. split_and!; [done..|].
    intros ? [= <-]. by rewrite E0, E1, E2. }
  destruct (Text.usable isspace (Some t2)) eqn:E3.
  { eexists _, _. split; [reflexivity|]. split_and!; [done..|].
    intros ? [= <-]. by rewrite E0, E1, E2, E3. }
  destruct (get_attribute "innerHTML" el b2) as [[t3|e] b3] eqn:E4;
    cbn -[Text.usable Text._clean_text]; cycle 1.
  { eexists _, _. split; [reflexivity|]. split_and!; [done..|].
    intros ? [= <-]. by rewrite E0, E1, E2, E3, E4. }
  destruct (Text.usable isspace t3) eqn:E5.
  { eexists _, _. split; [reflexivity|]. split_and!; [done..|].
    intros ? [= <-]. by rewrite E0, E1, E2, E3, E4, E5. }
  eexists _, _. split; [reflexivity|]. split_and!; [done..|].
  intros ? [= <-]. by rewrite E0, E1, E2, E3, E4, E5.
Qed.

End ElementFacts.
End TextFacts.

Lemma clean_text_normalised_witness :
  Text.normalised Text.ascii_space
    (Text._clean_text Text.ascii_space (Text.chars " <p>a  b</p> "))
  = true.
Proof.
  apply (clean_text_normalised Text.ascii_space (Text.chars " <p>a  b</p> ")).
  reflexivity.
Defined.

Lemma clean_text_plain_witness :
  Text._clean_text Text.ascii_space (Text.chars "tea") = Text.chars "tea".
Proof.
  apply (clean_text_plain Text.ascii_space (Text.chars "tea")).
  repeat constructor; done.
Defined.

Lemma get_clean_text_outcome_witness :
  ∃ text b',
    Text.get_clean_text Text.ascii_space Cases.blank_attribute Cases.marked_up_text
      (Some 7%nat) 0%nat
    = (Ret text, b')
    ∧ Text.normalised Text.ascii_space text = true
    ∧ (Some 7%nat = None → text = [] ∧ b' = 0%nat)
    ∧ (∀ el, Some 7%nat = Some el →
         match Cases.blank_attribute "innerText" el 0%nat with
         | (Raise _, b1) => text = [] ∧ b' = b1
         | (Ret t1, b1) =>
             if Text.usable Text.ascii_space t1
             then text = Text._clean_text Text.ascii_space (default [] t1) ∧ b' = b1
             else
               match Cases.marked_up_text el b1 with
               | (Raise _, b2) => text = [] ∧ b' = b2
               | (Ret t2, b2) =>
                   if Text.usable Text.ascii_space (Some t2)
                   then text = Text._clean_text Text.ascii_space t2 ∧ b' = b2
                   else
                     match Cases.blank_attribute "innerHTML" el b2 with
                     | (Raise _, b3) => text = [] ∧ b' = b3
                     | (Ret t3, b3) =>
                         if Text.usable Text.ascii_space t3
                         then text
                              = Text._clean_text Text.ascii_space
                                  (Text.strip_tags (default [] t3))
                              ∧ b' = b3
                         else text = [] ∧ b' = b3
                     end
               end
         end).
Proof.
  apply (get_clean_text_outcome Text.ascii_space Cases.blank_attribute
           Cases.marked_up_text (Some 7%nat) 0%nat).
  reflexivity.
Defined.

Lemma monitor_waits_for_every_done_witness :
  (Supervisor.monitor Scenario.still 2 0 Scenario.polls_abc
     (ProgressTracker.__init__ Scenario.still 3)).1
  = Ret (if bool_decide (2 ≤ 0 + Traces.dones (Supervisor.delivered Scenario.polls_abc))%nat
         then Supervisor.Finished else Supervisor.Starved).
Proof.
  apply (monitor_waits_for_every_done Scenario.still 2 0 Scenario.polls_abc
           (ProgressTracker.__init__ Scenario.still 3)).
  - simpl. lia.
  - vm_compute. repeat constructor.
Defined.

Lemma find_elements_outcome_witness :
  ∃ r s',
    Scraper._find_elements Cases.present Cases.one_element "categories" None
      (Scraper.mkInstance 0%nat true true (Some Cases.configured) true [] [])
    = (Ret r, s')
    ∧ (Cases.configured !! "categories" = None → r = [] ∧ Scraper.browser s' = 0%nat)
    ∧ (r ≠ [] →
       ∃ candidates selector b b',
         Cases.configured !! "categories" = Some candidates
         ∧ selector ∈ candidates
         ∧ Cases.one_element None (Scraper._get_selector_type selector) selector b
           = (Ret r, b')).
Proof.
  apply (find_elements_outcome Cases.present Cases.one_element "categories" None
           (Scraper.mkInstance 0%nat true true (Some Cases.configured) true [] [])
           Cases.configured).
  reflexivity.
Defined.

Lemma process_single_item_outcome_witness :
  ∃ r s',
    Scraper._process_single_item Cases.get_ok Cases.present Cases.one_element
      Cases.present Cases.ok Cases.category Cases.empty_result
      "ready" "categories" "k" 3 Scenario.a
      (Scraper.mkInstance 0%nat true true (Some Cases.configured) true [] [])
    = (Ret r, s')
    ∧ Scraper.has_logger s' = true
    ∧ (Scenario.a !! "k" = None → r = [])
    ∧ (∀ url, Scenario.a !! "k" = Some url →
              (Scraper._navigate_to_url Cases.get_ok Cases.present Cases.one_element
                 Cases.present Cases.ok "ready" 3 url
                 (Scraper.mkInstance 0%nat true true (Some Cases.configured) true [] [])).1
              = Ret false →
              r = []).
Proof.
  apply (process_single_item_outcome Cases.get_ok Cases.present Cases.one_element
           Cases.present Cases.ok Cases.category Cases.empty_result
           "ready" "categories" "k" 3 Scenario.a
           (Scraper.mkInstance 0%nat true true (Some Cases.configured) true [] [])).
  reflexivity.
Defined.

Lemma base_agent_never_signals_failure_witness :
  ∃ signals,
    Worker.progress_trace
      (Scraper._init_driver Cases.ok Cases.ok Cases.ok Cases.ok Cases.ok)
      Scraper.driver
      (Scraper._process_single_item Cases.get_ok Cases.present Cases.one_element
         Cases.present Cases.ok Cases.category Cases.empty_result
         "ready" "categories" "k" 3)
      (Scraper.lift Cases.ok) "k" [Scenario.a; Scenario.page] Cases.fresh
    = signals ++ [Done]
    ∧ length signals = length [Scenario.a; Scenario.page]
    ∧ Forall (λ x, ∃ c, x = Count c ∧ 0 ≤ c) signals.
Proof.
  apply (base_agent_never_signals_failure Cases.ok Cases.ok Cases.ok Cases.ok
           Cases.ok Cases.get_ok Cases.present Cases.one_element Cases.present
           Cases.ok Cases.category Cases.empty_result "ready" "categories" "k" 3
           [Scenario.a; Scenario.page] Cases.fresh
           (Scraper._init_driver Cases.ok Cases.ok Cases.ok Cases.ok Cases.ok
              Cases.fresh).2).
  - reflexivity.
  - vm_compute. reflexivity.
Defined.

Section ScraperEdge.
Import Scraper.
Context {B Element : Type}.
Variable driver_get : string → B → Outcome unit * B.
Variable wait_presence : By → string → B → Outcome unit * B.
Variable find_elements : option Element → By → string → B → Outcome (list Element) * B.
Variable wait_click : By → string → B → Outcome unit * B.
Variable save_page_source : B → Outcome unit * B.
Variable _process_category_element : Element → Item → B → Outcome ResultRecord * B.
Variable _create_empty_result : Item → B → Outcome ResultRecord * B.
Variable _get_page_ready_selector : string.
Variable _get_categories_selector : string.
Variable progress_tracking_key : string.
Variable recursion_limit : nat.

(** X22. Before [setup_process_logging] has run, the base
    [_process_single_item] does not survive an item without the tracking
    key: its handler logs through [self.logger] without a guard, so the
    call ends in [AttributeError] and the browser is not touched. *)
Theorem process_single_item_needs_logger item (s : Instance (B:=B)) :
  has_logger s = false →
  item !! progress_tracking_key = None →
  _process_single_item driver_get wait_presence find_elements wait_click
    save_page_source _process_category_element _create_empty_result
    _get_page_ready_selector _get_categories_selector progress_tracking_key
    recursion_limit item s
  = (Raise AttributeError, s).
Proof.
  intros Hl Hk. destruct s as [b d w sel hl lg out]. simpl in Hl. subst hl.
  unfold Scraper._process_single_item, try_except, getitem, logger.
  rewrite Hk. unfold_monad. done.
Qed.

End ScraperEdge.

Lemma process_single_item_needs_logger_witness :
  Scraper._process_single_item Cases.get_ok Cases.present Cases.one_element
    Cases.present Cases.ok Cases.category Cases.empty_result
    "ready" "categories" "k" 3 Scenario.page
    (Scraper.mkInstance 0%nat true true (Some Cases.configured) false [] [])
  = (Raise Scraper.AttributeError,
     Scraper.mkInstance 0%nat true true (Some Cases.configured) false [] []).
Proof.
  apply (process_single_item_needs_logger Cases.get_ok Cases.present
           Cases.one_element Cases.present Cases.ok Cases.category
           Cases.empty_result "ready" "categories" "k" 3 Scenario.page
           (Scraper.mkInstance 0%nat true true (Some Cases.configured) false [] [])).
  - reflexivity.
  - reflexivity.
Defined.

Lemma critical_error_is_not_logged_witness :
  let records :=
    Worker.log_queue
      (Worker.process_batch Cases.init_raises Scenario.driver_down Scenario.agent
         Scenario.quit_ok "k" [Scenario.a; Scenario.b] (Worker.start 0%nat)).2 in
  NoLevel "Error in process" ∈ records
  ∧ LoggerProcess.run true
      ((λ r, OutputWriterProcess.Got (Some (LoggerProcess.Record_ r))) <$> records)
      (LoggerProcess.mkLogger false [])
    = (Ret OutputWriterProcess.Waiting,
       LoggerProcess.mkLogger false
         ([] ++ [Log INFO "Logger process started";
                 Log INFO "Starting batch processing";
                 Log ERROR "Error in logger process"]
          ++ (if Scenario.driver_down 0%nat
              then [match (Scenario.quit_ok 0%nat).1 with
                    | Ret _ => Log INFO "WebDriver closed successfully"
                    | Raise _ => Log WARNING "Error closing WebDriver"
                    end]
              else []))).
Proof.
  apply (critical_error_is_not_logged Cases.init_raises Scenario.driver_down
           Scenario.agent Scenario.quit_ok "k" [Scenario.a; Scenario.b]
           0%nat OSError 0%nat []).
  reflexivity.
Defined.

Lemma zero_processes_starts_no_worker_witness :
  ∃ final,
    Supervisor.run_multiprocess_scraper Scenario.still ResumeFilter.Missing "k"
      [Scenario.a; Scenario.b] 0 Scenario.polls_abc (λ _, Supervisor.Joined)
    = Supervisor.Ran (Ret Supervisor.Aborted) final
    ∧ ProgressTracker.main_log final
      = [ Log INFO "Starting multiprocess scraping";
          Log INFO "Total items to process";
          Log ERROR "Error in multiprocess scraping";
          Log INFO "Scraping completed" ]
    ∧ ProgressTracker.tracker final
      = ProgressTracker.tracker
          (ProgressTracker.__init__ Scenario.still
             (Z.of_nat (length (ResumeFilter._filter_items_for_resume
                                  ResumeFilter.Missing "k" [Scenario.a; Scenario.b])))).
Proof.
  apply (zero_processes_starts_no_worker Scenario.still ResumeFilter.Missing "k"
           [Scenario.a; Scenario.b] Scenario.polls_abc (λ _, Supervisor.Joined)).
  vm_compute. discriminate.
Defined.
